(** * QMASM utilities: symbol table, Chimera topology, coupler numbering,
      embeddability pre-check and edge canonicalisation.

    A shallow embedding of [qmasm/utils.py] and of [coupler_number] and
    [quote] from [qmasm/output.py], with the properties of the written
    specification stated and proved over it, followed by further properties
    of the same functions and of the helpers around them.

    Python integers are [Z] ([//] and [%] are [Z.div] and [Z.modulo], which
    round like Python's for every sign), dictionaries are [gmap]s where only
    the contents matter and association lists where the iteration order
    decides the result, sets are [gset]s, and exceptions are the [Raise]
    results of a small state-and-exception monad. *)

From Stdlib Require Import ZArith String Ascii List Bool Lia Permutation Sorted.
From stdpp Require Import base option list sorting gmap strings fin_maps fin_sets.

Open Scope Z_scope.

(** ** Exceptions and results *)

Inductive exn : Type :=
| RemainingNextException
| NonChimera
| KeyError
| InternalError (msg : string)
| SystemExit (msg : string)
| ZeroDivisionError
| ValueError
| UnboundLocalError
| IndexError (args : list Z).

Inductive result (A : Type) : Type :=
| Ok (a : A)
| Raise (e : exn).

Arguments Ok {A} a.
Arguments Raise {A} e.

Definition is_ok {A} (r : result A) : bool :=
  match r with Ok _ => true | Raise _ => false end.

(** ** Python string primitives used by the prefix functions *)

Module PyStr.

(** [p] is an initial segment of [s] ([s.startswith(p)]). *)
Fixpoint starts_with (p s : string) : bool :=
  match p, s with
  | EmptyString, _ => true
  | String a p', String b s' => if Ascii.eqb a b then starts_with p' s' else false
  | String _ _, EmptyString => false
  end.

(** [sub in s]. *)
Fixpoint contains (sub s : string) : bool :=
  starts_with sub s ||
  match s with
  | EmptyString => false
  | String _ s' => contains sub s'
  end.

(** Left-to-right scan of [s.replace(old, new)] for a non-empty [old]:
    [skip] counts the characters of a matched occurrence still to drop. *)
Fixpoint replace_from (old new : string) (skip : nat) (s : string) : string :=
  match s with
  | EmptyString => EmptyString
  | String c s' =>
      match skip with
      | S k => replace_from old new k s'
      | O =>
          if starts_with old s
          then new +:+ replace_from old new (Nat.pred (String.length old)) s'
          else String c (replace_from old new 0 s')
      end
  end.

(** For an empty [old] Python puts [new] before every character and at the
    end. *)
Fixpoint intersperse (new s : string) : string :=
  match s with
  | EmptyString => new
  | String c s' => new +:+ String c (intersperse new s')
  end.

Definition replace (old new s : string) : string :=
  match old with
  | EmptyString => intersperse new s
  | String _ _ => replace_from old new 0 s
  end.

End PyStr.

(** The deferred-prefix marker. *)
Definition next_marker : string := "!next.".

(** [apply_prefix(sym, prefix=None, next_prefix=None)] *)
Definition apply_prefix (sym : string) (prefix next_prefix : option string)
  : result string :=
  let sym := match prefix with Some p => p +:+ sym | None => sym end in
  if PyStr.contains next_marker sym then
    match prefix, next_prefix with
    | Some p, Some n => Ok (PyStr.replace (p +:+ next_marker) n sym)
    | _, _ => Raise RemainingNextException
    end
  else Ok sym.

(** ** The symbol table *)

Record SymbolMapping : Type := mkSymbolMapping {
  sym2num : gmap string Z;
  num2syms : gmap Z (gset string);
  next_sym_num : Z
}.

(** [SymbolMapping.__init__] *)
Definition init : SymbolMapping :=
  {| sym2num := ∅; num2syms := ∅; next_sym_num := 0 |}.

(** Methods run against the table and either return or raise; the table
    survives a raise, as the Python object does. *)
Definition Method (A : Type) : Type := SymbolMapping → result A * SymbolMapping.

Definition ret {A} (a : A) : Method A := λ st, (Ok a, st).
Definition raise {A} (e : exn) : Method A := λ st, (Raise e, st).
Definition bind {A B} (m : Method A) (k : A → Method B) : Method B :=
  λ st, match m st with
        | (Ok a, st') => k a st'
        | (Raise e, st') => (Raise e, st')
        end.
Definition get : Method SymbolMapping := λ st, (Ok st, st).
Definition put (st : SymbolMapping) : Method unit := λ _, (Ok tt, st).

(** [try: m except KeyError: h] *)
Definition try_KeyError {A} (m h : Method A) : Method A :=
  λ st, match m st with
        | (Raise KeyError, st') => h st'
        | r => r
        end.

Notation "'let!' x ':=' m 'in' k" := (bind m (λ x, k))
  (at level 10, x pattern, m at level 100, k at level 200, only parsing).

(** [abend(str)]: writes the message and calls [sys.exit(1)]. *)
Definition abend {A} (msg : string) : Method A := raise (SystemExit msg).

(** [d[k]] on a dictionary held in the table. *)
Definition subscript {K V} `{Countable K} (d : gmap K V) (k : K) : Method V :=
  match d !! k with
  | Some v => ret v
  | None => raise KeyError
  end.

(** [SymbolMapping.new_symbol] *)
Definition new_symbol (sym : string) : Method Z :=
  let! st := get in
  match sym2num st !! sym with
  | Some _ =>
      raise (InternalError ("Internal error: Symbol " +:+ sym +:+ " is already defined"))
  | None =>
      let n := next_sym_num st in
      let! _ := put {| sym2num := <[sym := n]> (sym2num st);
                       num2syms := <[n := {[sym]}]> (num2syms st);
                       next_sym_num := n + 1 |} in
      ret n
  end.

(** [SymbolMapping.to_number] *)
Definition to_number (sym : string) : Method Z :=
  let! st := get in subscript (sym2num st) sym.

(** [SymbolMapping.to_symbols] *)
Definition to_symbols (num : Z) : Method (gset string) :=
  let! st := get in subscript (num2syms st) num.

(** The loop of [alias] that rebuilds [sym2num] from [num2syms]. *)
Definition regenerate (n2s : gmap Z (gset string)) : gmap string Z :=
  map_fold (λ n ss acc, set_fold (λ s acc', <[s := n]> acc') acc ss) ∅ n2s.

(** [SymbolMapping.alias] *)
Definition alias (sym1 sym2 : string) : Method Z :=
  let! (num1, defs1) :=
    try_KeyError (let! n := to_number sym1 in ret (n, 0))
                 (let! n := new_symbol sym1 in ret (n, 1)) in
  let! (num2, n_new_defs) :=
    try_KeyError (let! n := to_number sym2 in ret (n, defs1))
                 (let! n := new_symbol sym2 in ret (n, defs1 + 1)) in
  if num1 =? num2 then ret num1
  else if n_new_defs =? 0 then
    abend ("Unable to alias pre-existing variables " +:+ sym1 +:+ " and " +:+ sym2)
  else
    let new_num := Z.min num1 num2 in
    let old_num := Z.max num1 num2 in
    let! st := get in
    let! into := subscript (num2syms st) new_num in
    let! from := subscript (num2syms st) old_num in
    let n2s := delete old_num (<[new_num := into ∪ from]> (num2syms st)) in
    let! _ := put {| sym2num := regenerate n2s;
                     num2syms := n2s;
                     next_sym_num := next_sym_num st |} in
    ret new_num.

(** [symbol_to_number(sym, prefix=None, next_prefix=None)], run against the
    global table [qmasm.sym_map]. *)
Definition symbol_to_number (sym : string) (prefix next_prefix : option string)
  : Method Z :=
  let lookup_or_new s := try_KeyError (to_number s) (new_symbol s) in
  if PyStr.contains next_marker sym then
    match prefix, next_prefix with
    | Some p, Some n => lookup_or_new (PyStr.replace (p +:+ next_marker) n sym)
    | _, _ => raise RemainingNextException
    end
  else lookup_or_new sym.


(** The double-quote character of the rename message. *)
Definition dquote : string := String (Ascii.ascii_of_nat 34) EmptyString.

(** [max(xs)] of a Python sequence; [ValueError] on an empty one. *)
Definition py_max (xs : list Z) : result Z :=
  match xs with
  | [] => Raise ValueError
  | x :: xs' => Ok (foldl Z.max x xs')
  end.

(** The loop of [overwrite_with] that files a symbol under its number. *)
Definition add_symbol (s : string) (n : Z) (n2s : gmap Z (gset string))
  : gmap Z (gset string) :=
  match n2s !! n with
  | Some ss => <[n := ss ∪ {[s]}]> n2s
  | None => <[n := {[s]}]> n2s
  end.

(** [SymbolMapping.overwrite_with] *)
Definition overwrite_with (s2n : gmap string Z) : Method unit :=
  let n2s := map_fold add_symbol ∅ s2n in
  let keys := (map_to_list n2s).*1 in
  let next :=
    match keys with
    | [] => 0
    | k :: ks => foldl Z.max k ks + 1
    end in
  put {| sym2num := s2n; num2syms := n2s; next_sym_num := next |}.

(** First loop of [replace_all], over the private copy of [sym2num]. *)
Fixpoint collect_before (before_syms : list string) (s2n : gmap string Z)
    (before_nums : list Z) : Method (gmap string Z * list Z) :=
  match before_syms with
  | [] => ret (s2n, before_nums)
  | s :: rest =>
      match s2n !! s with
      | Some n => collect_before rest (delete s s2n) (before_nums ++ [n])
      | None =>
          abend ("Failed to rename nonexistent symbol " +:+ dquote +:+ s +:+ dquote)
      end
  end.

(** Second loop of [replace_all], over [zip(after_syms, before_nums)]. *)
Definition assign_after (after_syms : list string) (before_nums : list Z)
    (s2n : gmap string Z) : gmap string Z :=
  foldl (λ acc sn, <[sn.1 := sn.2]> acc) s2n (zip after_syms before_nums).

(** [SymbolMapping.replace_all] *)
Definition replace_all (before_syms after_syms : list string) : Method unit :=
  let! st := get in
  let! (s2n, before_nums) := collect_before before_syms (sym2num st) [] in
  overwrite_with (assign_after after_syms before_nums s2n).

(** ** The symbol table: vocabulary of the properties *)

(** The two maps of a table agree: a symbol has the number [n] exactly when
    it is in the set of symbols of [n]. *)
Definition consistent (st : SymbolMapping) : Prop :=
  ∀ s n, sym2num st !! s = Some n ↔ ∃ ss, num2syms st !! n = Some ss ∧ s ∈ ss.

(** No number in use has reached [next_sym_num]. *)
Definition bounded (st : SymbolMapping) : Prop :=
  ∀ s n, sym2num st !! s = Some n → n < next_sym_num st.

Definition well_formed (st : SymbolMapping) : Prop :=
  consistent st ∧ bounded st.

(** No symbol is filed under two numbers. *)
Definition disjoint_sets (n2s : gmap Z (gset string)) : Prop :=
  ∀ n n' ss ss' s,
    n2s !! n = Some ss → n2s !! n' = Some ss' → s ∈ ss → s ∈ ss' → n = n'.

(** Two symbols resolve to the same number. *)
Definition same_number (st : SymbolMapping) (s1 s2 : string) : Prop :=
  ∃ n, sym2num st !! s1 = Some n ∧ sym2num st !! s2 = Some n.

(** The calls the front end makes while it builds the table. *)
Inductive call : Type :=
| Define (sym : string)
| Alias (sym1 sym2 : string).

Definition run_call (c : call) : Method Z :=
  match c with
  | Define sym => new_symbol sym
  | Alias sym1 sym2 => alias sym1 sym2
  end.

Fixpoint run_calls (cs : list call) : Method unit :=
  match cs with
  | [] => ret ()
  | c :: cs' => let! _ := run_call c in run_calls cs'
  end.

(** Symbols aliased together by a sequence of calls, directly or through
    other symbols. *)
Inductive aliased (cs : list call) : string → string → Prop :=
| aliased_call s1 s2 : Alias s1 s2 ∈ cs → aliased cs s1 s2
| aliased_sym s1 s2 : aliased cs s1 s2 → aliased cs s2 s1
| aliased_trans s1 s2 s3 : aliased cs s1 s2 → aliased cs s2 s3 → aliased cs s1 s3.

(** The first half of [alias] for one symbol: its number, whether it had to
    be defined, and the table afterwards. *)
Definition ensured (sym : string) (st : SymbolMapping) : Z * Z * SymbolMapping :=
  match sym2num st !! sym with
  | Some n => (n, 0, st)
  | None =>
      (next_sym_num st, 1,
       {| sym2num := <[sym := next_sym_num st]> (sym2num st);
          num2syms := <[next_sym_num st := {[sym]}]> (num2syms st);
          next_sym_num := next_sym_num st + 1 |})
  end.

(** The table after [alias] has merged the sets of two numbers. *)
Definition merged (num1 num2 : Z) (into from : gset string) (st : SymbolMapping)
  : SymbolMapping :=
  let n2s := delete (Z.max num1 num2)
               (<[Z.min num1 num2 := into ∪ from]> (num2syms st)) in
  {| sym2num := regenerate n2s; num2syms := n2s; next_sym_num := next_sym_num st |}.

(** ** Results of pure functions *)

Definition rbind {A B} (r : result A) (k : A → result B) : result B :=
  match r with
  | Ok a => k a
  | Raise e => Raise e
  end.

Notation "'let?' x ':=' r 'in' k" := (rbind r (λ x, k))
  (at level 10, x pattern, r at level 100, k at level 200, only parsing).

(** [a // b] *)
Definition floordiv (a b : Z) : result Z :=
  if b =? 0 then Raise ZeroDivisionError else Ok (a / b).

(** [a % b] *)
Definition pymod (a b : Z) : result Z :=
  if b =? 0 then Raise ZeroDivisionError else Ok (a mod b).

(** ** Topology inference *)

(** A dictionary from integers to tallies whose items come out in the
    order in which the keys were first stored (the order of Python 3.7 and
    later).  The order only decides which of several equally frequent
    distances is ranked first. *)
Module PyDict.

Fixpoint get (k : Z) (d : list (Z * Z)) : option Z :=
  match d with
  | [] => None
  | (k', v) :: d' => if k =? k' then Some v else get k d'
  end.

Fixpoint set (k v : Z) (d : list (Z * Z)) : list (Z * Z) :=
  match d with
  | [] => [(k, v)]
  | (k', v') :: d' => if k =? k' then (k, v) :: d' else (k', v') :: set k v d'
  end.

End PyDict.

(** [sorted(items, key=lambda dt: dt[1], reverse=True)]: stable, so items of
    equal tally keep their order. *)
Fixpoint insert_desc (x : Z * Z) (l : list (Z * Z)) : list (Z * Z) :=
  match l with
  | [] => [x]
  | y :: l' => if x.2 <? y.2 then y :: insert_desc x l' else x :: y :: l'
  end.

Definition sorted_desc (items : list (Z * Z)) : list (Z * Z) :=
  foldr insert_desc [] items.

(** What [chimera_topology] reads of [solver.properties]. *)
Record solver_properties : Type := mkSolver {
  num_qubits : option Z;
  couplers : list (Z * Z)
}.

(** [deltas = [abs(c1 - c2) for c1, c2 in couplers]] *)
Definition coupler_deltas (cs : list (Z * Z)) : list Z :=
  map (λ c, Z.abs (c.1 - c.2)) cs.

(** [{d: 0 for d in deltas}] *)
Definition zero_tallies (deltas : list Z) : list (Z * Z) :=
  foldl (λ d0 d, PyDict.set d 0 d0) [] deltas.

(** The tallying loop; [sorted_tallies] is assigned inside the loop body, so
    it stays unbound when [deltas] is empty. *)
Definition tally_step (acc : result (list (Z * Z) * option (list (Z * Z))))
    (d : Z) : result (list (Z * Z) * option (list (Z * Z))) :=
  let? (delta_tallies, _) := acc in
  match PyDict.get d delta_tallies with
  | None => Raise KeyError
  | Some t =>
      let delta_tallies := PyDict.set d (t + 1) delta_tallies in
      Ok (delta_tallies, Some (sorted_desc delta_tallies))
  end.

Definition tally_loop (deltas : list Z) (delta_tallies : list (Z * Z))
  : result (list (Z * Z) * option (list (Z * Z))) :=
  foldl tally_step (Ok (delta_tallies, None)) deltas.

(** The loop over [sorted_tallies[1:]] that sets [M]. *)
Fixpoint find_stride (L : Z) (rest : list (Z * Z)) : result Z :=
  match rest with
  | [] => Ok 1
  | (d, t) :: rest' =>
      if d >? 2 * L then floordiv d (2 * L) else find_stride L rest'
  end.

(** [chimera_topology(solver)] *)
Definition chimera_topology (solver : solver_properties) : result (Z * Z * Z) :=
  match num_qubits solver with
  | None => Raise NonChimera
  | Some nominal_qubits =>
      let deltas := coupler_deltas (couplers solver) in
      let? (_, sorted_tallies) := tally_loop deltas (zero_tallies deltas) in
      match sorted_tallies with
      | None => Raise UnboundLocalError
      | Some [] => Raise (IndexError [])
      | Some ((L, _) :: rest) =>
          let? M := find_stride L rest in
          let? N := floordiv (nominal_qubits + 2 * L * M - 1) (2 * L * M) in
          Ok (L, M, N)
      end
  end.

(** The words of the specification: how often a distance occurs, a most
    frequent distance, a ranking by descending frequency, and the number of
    columns read off the first ranked distance above [2 * L]. *)
Fixpoint count (d : Z) (l : list Z) : Z :=
  match l with
  | [] => 0
  | x :: l' => (if d =? x then 1 else 0) + count d l'
  end.

Definition most_frequent (deltas : list Z) (L : Z) : Prop :=
  L ∈ deltas ∧ ∀ d, count d deltas ≤ count L deltas.

Definition descending (ranked : list (Z * Z)) : Prop :=
  StronglySorted (λ x y, y.2 ≤ x.2) ranked.

Definition stride_columns (L : Z) (rest : list (Z * Z)) : Z :=
  match find (λ dt, dt.1 >? 2 * L) rest with
  | Some dt => dt.1 / (2 * L)
  | None => 1
  end.

(** The tallies of a dictionary after the distances [ds] have been counted
    into it. *)
Definition bump (ds : list Z) (tallies : list (Z * Z)) : list (Z * Z) :=
  map (λ kc, (kc.1, kc.2 + count kc.1 ds)) tallies.

(** ** Embeddability pre-check *)

(** [nodes[n1].add(n2)], creating the set on a [KeyError]. *)
Definition add_neighbor (n1 n2 : Z) (nodes : gmap Z (gset Z)) : gmap Z (gset Z) :=
  match nodes !! n1 with
  | Some peers => <[n1 := peers ∪ {[n2]}]> nodes
  | None => <[n1 := {[n2]}]> nodes
  end.

(** [edges_to_neighbor_list(pairs)] *)
Definition edges_to_neighbor_list (pairs : list (Z * Z)) : gmap Z (gset Z) :=
  foldl (λ nodes e, add_neighbor e.2 e.1 (add_neighbor e.1 e.2 nodes)) ∅ pairs.

(** [math.ceil(float(deg)/float(max_degree_avail))]; the quotient of two
    counts far below 2^53 is rounded correctly, so the ceiling is the one of
    the exact quotient. *)
Definition ceil_div (a b : Z) : result Z :=
  if b =? 0 then Raise ZeroDivisionError else Ok (- ((- a) / b)).

(** The loop that accumulates [extras]. *)
Definition extras_step (max_degree_avail : Z) (_ : Z) (peers : gset Z)
    (acc : result Z) : result Z :=
  let? extras := acc in
  let deg := Z.of_nat (size peers) in
  if deg >? max_degree_avail
  then let? c := ceil_div deg max_degree_avail in Ok (extras + (c - 1))
  else Ok extras.

(** The loop that builds the degree histogram. *)
Definition hist_step (_ : Z) (peers : gset Z) (hist : gmap Z Z) : gmap Z Z :=
  let deg := Z.of_nat (size peers) in
  match hist !! deg with
  | Some c => <[deg := c + 1]> hist
  | None => <[deg := 1]> hist
  end.

(** The quantities of the specification: the degree of a node, the helper
    nodes a logical node of degree [deg] needs on hardware of maximum degree
    [dmax], and their total over a logical graph. *)
Definition degree (peers : gset Z) : Z := Z.of_nat (size peers).

Definition extra_nodes (dmax deg : Z) : Z :=
  if deg >? dmax then - ((- deg) / dmax) - 1 else 0.

Definition total_extras (dmax : Z) (graph : gmap Z (gset Z)) : Z :=
  foldr Z.add 0 (map (λ kv, extra_nodes dmax (degree kv.2)) (map_to_list graph)).

(** Every node of a neighbor list has a neighbor. *)
Definition peers_nonempty (nodes : gmap Z (gset Z)) : Prop :=
  ∀ n peers, nodes !! n = Some peers → peers ≠ ∅.

(** Order of [sorted] on pairs of integers. *)
Definition pair_le (p q : Z * Z) : Prop :=
  p.1 < q.1 ∨ (p.1 = q.1 ∧ p.2 ≤ q.2).

Global Instance pair_le_dec p q : Decision (pair_le p q).
Proof. unfold pair_le. apply _. Defined.

(** The tuple returned by [maybe_embeddable]. *)
Record embeddability : Type := mkEmbeddability {
  embed : bool;
  extras : Z;
  nodes_needed_avail : Z * Z;
  edges_needed_avail : Z * Z;
  degree_hist : list (Z * Z)
}.

(** [maybe_embeddable(edges, adj)] *)
Definition maybe_embeddable (edges adj : list (Z * Z)) : result embeddability :=
  let graph_needed := edges_to_neighbor_list edges in
  let num_edges_needed := Z.of_nat (length edges) in
  let num_nodes_needed := Z.of_nat (size graph_needed) in
  let graph_avail := edges_to_neighbor_list adj in
  let num_edges_avail := Z.of_nat (length adj) in
  let num_nodes_avail := Z.of_nat (size graph_avail) in
  let? max_degree_avail :=
    py_max (map (λ kv, Z.of_nat (size kv.2)) (map_to_list graph_avail)) in
  let? extras := map_fold (extras_step max_degree_avail) (Ok 0) graph_needed in
  let embed :=
    negb (num_nodes_needed + extras >? num_nodes_avail)
    && negb (num_edges_needed + extras >? num_edges_avail) in
  let hist := map_fold hist_step ∅ graph_needed in
  Ok {| embed := embed;
        extras := extras;
        nodes_needed_avail := (num_nodes_needed, num_nodes_avail);
        edges_needed_avail := (num_edges_needed, num_edges_avail);
        degree_hist := merge_sort pair_le (map_to_list hist) |}.

(** ** Edge canonicalisation *)

Section Canonicalize.

(** Weights are the floats of the source.  The functions only add them and
    compare them with [0.0], so they are taken over any type with a zero,
    an addition and that test. *)
Context {W : Type} (zero : W) (add : W → W → W) (is_zero : W → bool).

(** Body of the loop over [strs.items()]; [new_strs] is a [defaultdict]
    whose missing entries read as [0.0]. *)
Definition canonicalize_step (key : Z * Z) (wt : W) (new_strs : gmap (Z * Z) W)
  : gmap (Z * Z) W :=
  let '(q1, q2) := key in
  if q1 =? q2 then new_strs
  else if is_zero wt then new_strs
  else
    let '(q1, q2) := if q1 >? q2 then (q2, q1) else (q1, q2) in
    <[(q1, q2) := add (default zero (new_strs !! (q1, q2))) wt]> new_strs.

(** [canonicalize_strengths(strs)].  [map_fold] visits the items of [strs]
    in one fixed order; at most two items meet under one key, so with a
    commutative addition the order makes no difference. *)
Definition canonicalize_strengths (strs : gmap (Z * Z) W) : gmap (Z * Z) W :=
  map_fold canonicalize_step ∅ strs.

(** What the specification asks for at the key [(a, b)] with [a < b]: the
    sum of the weights stored under [(a, b)] and under [(b, a)], entries of
    weight zero left out. *)
Definition nonzero_entry (o : option W) : option W :=
  match o with
  | Some w => if is_zero w then None else Some w
  | None => None
  end.

Definition summed_entries (forward backward : option W) : option W :=
  match nonzero_entry forward, nonzero_entry backward with
  | Some w1, Some w2 => Some (add w1 w2)
  | Some w1, None => Some w1
  | None, Some w2 => Some w2
  | None, None => None
  end.

End Canonicalize.

(** ** Coupler numbering *)

Section CouplerNumber.

(** [linear_index_to_chimera] comes from [dwave_sapi2.util] (or the
    stand-in module [fake_dwave]); the numbering is defined over any such
    decomposition. *)
Variable linear_index_to_chimera : list Z → Z → Z → Z → result (list (list Z)).

(** [coupler_number(M, N, L, q1, q2)] *)
Definition coupler_number (M N L q1 q2 : Z) : result Z :=
  let qmin := Z.min q1 q2 in
  let qmax := Z.max q1 q2 in
  let? coords := linear_index_to_chimera [qmin; qmax] M N L in
  match coords with
  | [[imin; jmin; umin; kmin]; [imax; jmax; umax; kmax]] =>
      let cell_links := L * L in
      if (imin =? imax) && (jmin =? jmax) && negb (umin =? umax)
      then Ok (cell_links * (imin * M + jmin) + kmin * L + kmax)
      else
        let total_intra := cell_links * M * N in
        if (imin =? imax) && (jmin + 1 =? jmax) && (umin =? umax) && (kmin =? kmax)
        then Ok (total_intra + L * (imin * (M - 1) + jmin) + kmin)
        else
          let total_horiz := (M - 1) * N * L in
          if (imin + 1 =? imax) && (jmin =? jmax) && (umin =? umax) && (kmin =? kmax)
          then Ok (total_intra + total_horiz + L * (imin * M + jmin) + kmin)
          else Raise (IndexError [q1; q2])
  | _ => Raise ValueError
  end.

End CouplerNumber.

(** Modelled from the spec: the coordinate decomposition
    [linear_index_to_chimera], whose code is not part of the sources at hand.
    It maps a linear qubit index to (row, column, shore, in-shore offset) of a
    grid of unit cells with [m] cell rows, [n] cell columns and [t] qubits per
    shore, cells numbered row by row and each cell holding shore 0 before
    shore 1.  [coupler_number] calls it with [M], [N] and [L] in this
    order. *)
Definition chimera_coordinates (n t q : Z) : result (list Z) :=
  let hd := 2 * t in
  let vd := n * hd in
  let? r := floordiv q vd in
  let? q := pymod q vd in
  let? c := floordiv q hd in
  let? q := pymod q hd in
  let? u := floordiv q t in
  let? k := pymod q t in
  Ok [r; c; u; k].

Fixpoint linear_index_to_chimera (linear_indices : list Z) (m n t : Z)
  : result (list (list Z)) :=
  match linear_indices with
  | [] => Ok []
  | q :: qs =>
      let? c := chimera_coordinates n t q in
      let? cs := linear_index_to_chimera qs m n t in
      Ok (c :: cs)
  end.

(** Modelled from the spec: the couplers of a synthetic Chimera graph with
    [L] qubits per shore, [M] cell columns and [N] cell rows.  Inside a cell
    every qubit of shore 0 is coupled to every qubit of shore 1; the qubits of
    shore 1 are coupled to their peers in the next cell of the row, those of
    shore 0 to their peers in the next cell of the column. *)
Module Chimera.

Definition qubit (L M : Z) (row col u k : Z) : Z :=
  ((row * M + col) * 2 + u) * L + k.

Definition range (n : Z) : list Z := seqZ 0 n.

Definition intra_cell (L M N : Z) : list (Z * Z) :=
  row ← range N; col ← range M; k1 ← range L; k2 ← range L;
  [(qubit L M row col 0 k1, qubit L M row col 1 k2)].

Definition horizontal (L M N : Z) : list (Z * Z) :=
  row ← range N; col ← range (M - 1); k ← range L;
  [(qubit L M row col 1 k, qubit L M row (col + 1) 1 k)].

Definition vertical (L M N : Z) : list (Z * Z) :=
  row ← range (N - 1); col ← range M; k ← range L;
  [(qubit L M row col 0 k, qubit L M (row + 1) col 0 k)].

Definition couplers (L M N : Z) : list (Z * Z) :=
  intra_cell L M N ++ horizontal L M N ++ vertical L M N.

End Chimera.

(** ** Sample tables and inputs *)

Definition two_symbols : SymbolMapping :=
  {| sym2num := {[ "a" := 0; "b" := 1 ]};
     num2syms := {[ 0 := {[ "a" ]}; 1 := {[ "b" ]} ]};
     next_sym_num := 2 |}.

(** Integer weights as an instance of the weights of [canonicalize_strengths]. *)
Definition canonicalize_Z : gmap (Z * Z) Z → gmap (Z * Z) Z :=
  canonicalize_strengths 0 Z.add (Z.eqb 0).

(** Two entries for the edge between qubits 1 and 2, and a vertex weight. *)
Definition doubled_strengths : gmap (Z * Z) Z :=
  {[ (2, 1) := 3; (1, 2) := 4; (5, 5) := 6 ]}.

(** A single unit cell with two qubits per shore. *)
Definition one_cell : solver_properties :=
  {| num_qubits := Some 4; couplers := [(0, 2); (0, 3); (1, 2); (1, 3)] |}.

(** The edges (1, 2) and (2, 1) with opposite weights. *)
Definition cancelling_strengths : gmap (Z * Z) Z :=
  {[ (1, 2) := 1; (2, 1) := -1 ]}.

(** ** Further methods of the symbol table *)

(** [SymbolMapping.max_number] *)
Definition max_number : Method Z :=
  let! st := get in ret (next_sym_num st - 1).

(** [SymbolMapping.all_numbers]; the keys come in no particular order. *)
Definition all_numbers : Method (gset Z) :=
  let! st := get in ret (dom (num2syms st)).

(** [SymbolMapping.all_symbols] *)
Definition all_symbols : Method (gset string) :=
  let! st := get in ret (dom (sym2num st)).

(** [SymbolMapping.symbol_number_items] *)
Definition symbol_number_items : Method (list (string * Z)) :=
  let! st := get in ret (map_to_list (sym2num st)).

(** Every number on file has a symbol. *)
Definition populated (st : SymbolMapping) : Prop :=
  ∀ n ss, num2syms st !! n = Some ss → ss ≠ ∅.

(** Numbers are handed out from 0 upwards. *)
Definition from_zero (st : SymbolMapping) : Prop :=
  0 ≤ next_sym_num st ∧ ∀ s n, sym2num st !! s = Some n → 0 ≤ n.

(** The number [alias] returns when it returns: the number of the first
    symbol if it has one, else that of the second, else the next free one. *)
Definition alias_number (sym1 sym2 : string) (st : SymbolMapping) : Z :=
  match sym2num st !! sym1, sym2num st !! sym2 with
  | Some n1, _ => n1
  | None, Some n2 => n2
  | None, None => next_sym_num st
  end.

(** How many of the two symbols [alias] has to define. *)
Definition alias_new_defs (sym1 sym2 : string) (st : SymbolMapping) : Z :=
  match sym2num st !! sym1, sym2num st !! sym2 with
  | Some _, Some _ => 0
  | Some _, None | None, Some _ => 1
  | None, None => if decide (sym1 = sym2) then 1 else 2
  end.

(** ** Vocabulary of the further properties of the embeddability check *)

(** Node [n2] is on file as a neighbour of node [n1]. *)
Definition adjacent (nodes : gmap Z (gset Z)) (n1 n2 : Z) : Prop :=
  ∃ peers, nodes !! n1 = Some peers ∧ n2 ∈ peers.

(** The number of nodes of a graph that have the degree [deg]. *)
Definition nodes_of_degree (deg : Z) (nodes : gmap Z (gset Z)) : Z :=
  Z.of_nat (size (filter (λ kv, degree kv.2 = deg) nodes)).

(** The sum of the tallies of a histogram. *)
Definition total_tally (hist : list (Z * Z)) : Z :=
  foldr Z.add 0 hist.*2.

(** ** Dictionaries and lists of weights *)

(** [lst[k] = v] on a Python list: a negative index counts from the end, an
    index outside the list raises [IndexError]. *)
Definition list_setitem {A} (lst : list A) (k : Z) (v : A) : result (list A) :=
  let len := Z.of_nat (length lst) in
  if (0 <=? k) && (k <? len) then Ok (<[Z.to_nat k := v]> lst)
  else if (- len <=? k) && (k <? 0) then Ok (<[Z.to_nat (k + len) := v]> lst)
  else Raise (IndexError []).

Section ListDict.

(** The values are numbers of either kind.  The functions use the literal
    [0] to fill the list, the literal [0.0] as the default of the dictionary,
    and the test [v != 0.0]. *)
Context {V : Type} (int_zero float_zero : V) (is_zero : V → bool).

(** The loop of [dict_to_list] over [d.items()]. *)
Fixpoint fill_list (items : list (Z * V)) (lst : list V) : result (list V) :=
  match items with
  | [] => Ok lst
  | (k, v) :: rest => let? lst' := list_setitem lst k v in fill_list rest lst'
  end.

(** [dict_to_list(d)], over the items of [d] in the order the loop visits
    them. *)
Definition dict_to_list (d : list (Z * V)) : result (list V) :=
  match d with
  | [] => Ok []
  | _ :: _ =>
      let? top := py_max d.*1 in
      let llen := top + 1 in
      fill_list d (replicate (Z.to_nat llen) int_zero)
  end.

(** [list_to_dict(lst)]: the entries of the dictionary it returns. *)
Definition list_to_dict (lst : list V) : gmap Z V :=
  foldl (λ acc k,
           match lst !! k with
           | Some v => if is_zero v then acc else <[Z.of_nat k := v]> acc
           | None => acc
           end)
        ∅ (seq 0 (length lst)).

(** Reading a key of the [defaultdict] that [list_to_dict] returns: a missing
    key reads as [0.0]. *)
Definition read_default (d : gmap Z V) (k : Z) : V := default float_zero (d !! k).

End ListDict.

(** Integer values as an instance. *)
Definition dict_to_list_Z : list (Z * Z) → result (list Z) := dict_to_list 0.
Definition list_to_dict_Z : list Z → gmap Z Z := list_to_dict (Z.eqb 0).

(** Coordinates of a qubit that lie inside a grid of [N] rows and [M]
    columns of cells with [L] qubits per shore. *)
Definition in_grid (M N L : Z) (c : list Z) : Prop :=
  match c with
  | [i; j; u; k] => 0 ≤ i < N ∧ 0 ≤ j < M ∧ 0 ≤ k < L
  | _ => False
  end.

(** ** Shell quoting *)

(** The single-quote character. *)
Definition squote : string := String (Ascii.ascii_of_nat 39) EmptyString.

(** A single quote as it is written inside a quoted word: the quotes are
    closed, the single quote is put into double quotes, and the quotes are
    opened again. *)
Definition quoted_squote : string :=
  squote +:+ dquote +:+ squote +:+ dquote +:+ squote.

Section Quote.

(** The class [\w] of the pattern.  Which characters it holds beyond the
    ASCII letters, the digits and the underscore depends on the kind of
    string and on the flags of the pattern, so the class is a parameter. *)
Context (word_char : ascii → bool).

(** A character outside the class [[^\w@%+=:,./-]]. *)
Definition is_safe_char (c : ascii) : bool :=
  word_char c || PyStr.contains (String c EmptyString) "@%+=:,./-".

(** [_find_unsafe(s) is None] *)
Fixpoint all_safe (s : string) : bool :=
  match s with
  | EmptyString => true
  | String c s' => is_safe_char c && all_safe s'
  end.

(** [quote(s)] *)
Definition quote (s : string) : string :=
  match s with
  | EmptyString => squote +:+ squote
  | String _ _ =>
      if all_safe s then s
      else squote +:+ PyStr.replace squote quoted_squote s +:+ squote
  end.

End Quote.

(** What [\w] matches among the ASCII characters: the letters, the digits
    and the underscore. *)
Definition ascii_word_char (c : ascii) : bool :=
  let n := Ascii.nat_of_ascii c in
  ((48 <=? n) && (n <=? 57) || (65 <=? n) && (n <=? 90)
   || (97 <=? n) && (n <=? 122) || (n =? 95))%nat.

(** * Properties *)

(** ** Strings *)

Module PyStrFacts.
Import PyStr.

Lemma starts_with_app (p x : string) : starts_with p (p +:+ x) = true.
Proof.
  induction p as [|a p IH]; simpl; [done|].
  by rewrite Ascii.eqb_refl.
Qed.

Lemma contains_prepend (sub p s : string) :
  contains sub s = true → contains sub (p +:+ s) = true.
Proof.
  intros Hs. induction p as [|a p IH]; simpl; [done|].
  rewrite IH. apply orb_true_r.
Qed.

Lemma contains_starts_with (sub s : string) :
  starts_with sub s = true → contains sub s = true.
Proof. intros H. destruct s; simpl; rewrite H; done. Qed.

(** Once an occurrence is matched the scan drops the rest of it. *)
Lemma replace_from_skip (old new x rest : string) :
  replace_from old new (String.length x) (x +:+ rest)
  = replace_from old new 0 rest.
Proof.
  induction x as [|a x IH]; simpl.
  - destruct rest; reflexivity.
  - exact IH.
Qed.

(** An occurrence at the head of the string is replaced and the scan goes on
    behind it. *)
Lemma replace_at_head (old new rest : string) :
  old ≠ EmptyString →
  replace old new (old +:+ rest) = new +:+ replace old new rest.
Proof.
  intros Hne. destruct old as [|a old]; [done|].
  unfold replace.
  pose proof (starts_with_app (String a old) rest) as Hst.
  change (String a old +:+ rest) with (String a (old +:+ rest)) in *.
  cbn [replace_from]. rewrite Hst. cbn [String.length Nat.pred].
  by rewrite replace_from_skip.
Qed.

Lemma append_assoc (a b c : string) : (a +:+ b) +:+ c = a +:+ b +:+ c.
Proof.
  induction a as [|x a IH]; [reflexivity|].
  change (String x ((a +:+ b) +:+ c) = String x (a +:+ b +:+ c)). by f_equal.
Qed.

Lemma app_marker_nonempty (p : string) : p +:+ next_marker ≠ EmptyString.
Proof. destruct p; discriminate. Qed.

End PyStrFacts.

(** ** Symbol table: running a method *)

Lemma new_symbol_fresh (sym : string) (st : SymbolMapping) :
  sym2num st !! sym = None →
  new_symbol sym st =
    (Ok (next_sym_num st),
     {| sym2num := <[sym := next_sym_num st]> (sym2num st);
        num2syms := <[next_sym_num st := {[sym]}]> (num2syms st);
        next_sym_num := next_sym_num st + 1 |}).
Proof. intros H. unfold new_symbol, bind, get, put, ret. by rewrite H. Qed.

Lemma new_symbol_defined (sym : string) (st : SymbolMapping) (n : Z) :
  sym2num st !! sym = Some n →
  new_symbol sym st =
    (Raise (InternalError ("Internal error: Symbol " +:+ sym +:+ " is already defined")),
     st).
Proof. intros H. unfold new_symbol, bind, get, raise. by rewrite H. Qed.

Lemma to_number_defined (sym : string) (st : SymbolMapping) (n : Z) :
  sym2num st !! sym = Some n → to_number sym st = (Ok n, st).
Proof. intros H. unfold to_number, bind, get, subscript. by rewrite H. Qed.

Lemma to_number_undefined (sym : string) (st : SymbolMapping) :
  sym2num st !! sym = None → to_number sym st = (Raise KeyError, st).
Proof. intros H. unfold to_number, bind, get, subscript. by rewrite H. Qed.

(** The lookup-or-allocate step shared by [alias] and [symbol_to_number]. *)
Lemma lookup_or_new_result (sym : string) (st : SymbolMapping) :
  try_KeyError (to_number sym) (new_symbol sym) st =
    match sym2num st !! sym with
    | Some n => (Ok n, st)
    | None =>
        (Ok (next_sym_num st),
         {| sym2num := <[sym := next_sym_num st]> (sym2num st);
            num2syms := <[next_sym_num st := {[sym]}]> (num2syms st);
            next_sym_num := next_sym_num st + 1 |})
    end.
Proof.
  unfold try_KeyError. destruct (sym2num st !! sym) as [n|] eqn:E.
  - by rewrite (to_number_defined _ _ _ E).
  - by rewrite (to_number_undefined _ _ E), (new_symbol_fresh _ _ E).
Qed.

(** C5: [alias] of two symbols that are both defined, at different numbers,
    ends the program through [abend] and leaves [sym2num], [num2syms] and
    [next_sym_num] as they were. *)
Theorem alias_predefined_fails_unchanged
    (st : SymbolMapping) (sym1 sym2 : string) (n1 n2 : Z) :
  sym2num st !! sym1 = Some n1 →
  sym2num st !! sym2 = Some n2 →
  n1 ≠ n2 →
  alias sym1 sym2 st =
    (Raise (SystemExit
       ("Unable to alias pre-existing variables " +:+ sym1 +:+ " and " +:+ sym2)),
     st).
Proof.
  intros H1 H2 Hne.
  cbv [alias bind try_KeyError to_number get subscript ret abend raise].
  rewrite H1. cbv beta iota zeta. rewrite H2. cbv beta iota zeta.
  by rewrite (proj2 (Z.eqb_neq n1 n2) Hne).
Qed.

Lemma alias_predefined_fails_unchanged_witness :
  alias "a" "b" two_symbols =
    (Raise (SystemExit "Unable to alias pre-existing variables a and b"),
     two_symbols).
Proof.
  apply (alias_predefined_fails_unchanged two_symbols "a" "b" 0 1);
    [reflexivity | reflexivity | lia].
Defined.

(** ** Deferred prefixes *)

(** C8: [apply_prefix] and [symbol_to_number] raise
    [RemainingNextException] exactly when the marker ["!next."] is present
    (in the prefixed symbol, respectively in the symbol given) and the prefix
    or the next prefix is missing; a symbol that contains the marker still
    contains it once prefixed.  For such a symbol, with both prefixes at
    hand, they replace the prefix followed by the marker with the next
    prefix, [apply_prefix] in the prefixed symbol and [symbol_to_number] in
    the symbol it is given, which it then looks up or defines; a marker that
    directly follows the prefix is thereby turned into the next prefix. *)
Theorem deferred_prefix_resolution
    (sym : string) (prefix next_prefix : option string) (st : SymbolMapping) :
  let prefixed := match prefix with Some p => p +:+ sym | None => sym end in
  (apply_prefix sym prefix next_prefix = Raise RemainingNextException
     ↔ PyStr.contains next_marker prefixed = true
       ∧ (prefix = None ∨ next_prefix = None))
  ∧ ((∃ st', symbol_to_number sym prefix next_prefix st
             = (Raise RemainingNextException, st'))
     ↔ PyStr.contains next_marker sym = true
       ∧ (prefix = None ∨ next_prefix = None))
  ∧ (PyStr.contains next_marker sym = true →
     PyStr.contains next_marker prefixed = true
     ∧ (prefix = None ∨ next_prefix = None →
        symbol_to_number sym prefix next_prefix st
        = (Raise RemainingNextException, st))
     ∧ ∀ p n, prefix = Some p → next_prefix = Some n →
       apply_prefix sym prefix next_prefix
         = Ok (PyStr.replace (p +:+ next_marker) n (p +:+ sym))
       ∧ symbol_to_number sym prefix next_prefix st
         = (let sym' := PyStr.replace (p +:+ next_marker) n sym in
            match sym2num st !! sym' with
            | Some k => (Ok k, st)
            | None =>
                (Ok (next_sym_num st),
                 {| sym2num := <[sym' := next_sym_num st]> (sym2num st);
                    num2syms := <[next_sym_num st := {[sym']}]> (num2syms st);
                    next_sym_num := next_sym_num st + 1 |})
            end)
       ∧ ∀ rest, sym = next_marker +:+ rest →
           apply_prefix sym prefix next_prefix
             = Ok (n +:+ PyStr.replace (p +:+ next_marker) n rest)).
Proof.
  intros prefixed.
  assert (∀ s, ¬ ∃ st', try_KeyError (to_number s) (new_symbol s) st
                        = (Raise RemainingNextException, st')) as Hnever.
  { intros s [st' Hs]. rewrite lookup_or_new_result in Hs.
    by destruct (sym2num st !! s). }
  split; [|split].
  - unfold apply_prefix. fold prefixed.
    destruct (PyStr.contains next_marker prefixed);
      destruct prefix as [p|], next_prefix as [n|]; intuition congruence.
  - unfold symbol_to_number.
    destruct (PyStr.contains next_marker sym).
    + destruct prefix as [p|], next_prefix as [n|]; unfold raise.
      * split; [intros Hr; by apply Hnever in Hr | intros [_ [?|?]]; congruence].
      * split; [intros _; auto | intros _; by eexists].
      * split; [intros _; auto | intros _; by eexists].
      * split; [intros _; auto | intros _; by eexists].
    + split; [intros Hr; by apply Hnever in Hr | intros [? _]; congruence].
  - intros Hin.
    assert (PyStr.contains next_marker prefixed = true) as Hpre.
    { unfold prefixed. destruct prefix as [p|]; [|done].
      by apply PyStrFacts.contains_prepend. }
    split; [done|]. split.
    { unfold symbol_to_number. rewrite Hin.
      destruct prefix, next_prefix; unfold raise; intuition congruence. }
    intros p n -> ->. split; [|split].
    + unfold apply_prefix. fold prefixed. by rewrite Hpre.
    + unfold symbol_to_number. rewrite Hin. apply lookup_or_new_result.
    + intros rest ->. unfold apply_prefix. fold prefixed. rewrite Hpre.
      unfold prefixed. rewrite <- PyStrFacts.append_assoc.
      by rewrite (PyStrFacts.replace_at_head _ _ _ (PyStrFacts.app_marker_nonempty p)).
Qed.

Lemma deferred_prefix_resolution_witness :
  apply_prefix "!next.x" (Some "foo.") (Some "bar.") = Ok "bar.x".
Proof.
  destruct (deferred_prefix_resolution "!next.x" (Some "foo.") (Some "bar.") init)
    as (_ & _ & H).
  destruct (H eq_refl) as (_ & _ & Hboth).
  destruct (Hboth "foo." "bar." eq_refl eq_refl) as (_ & _ & Hsub).
  exact (Hsub "x" eq_refl).
Defined.

(** ** Coupler numbers *)

(** C3 (amended): for a pair of qubits that the decomposition puts in the
    same row and column but on different shores, [coupler_number] returns
    [L*L*(row*M + col) + kmin*L + kmax], where [kmin] and [kmax] are the
    in-shore offsets of the smaller and of the larger qubit index. *)
Theorem coupler_number_intra_cell
    (decompose : list Z → Z → Z → Z → result (list (list Z)))
    (M N L q1 q2 imin jmin umin kmin imax jmax umax kmax : Z) :
  decompose [Z.min q1 q2; Z.max q1 q2] M N L
    = Ok [[imin; jmin; umin; kmin]; [imax; jmax; umax; kmax]] →
  imin = imax → jmin = jmax → umin ≠ umax →
  coupler_number decompose M N L q1 q2
    = Ok (L * L * (imin * M + jmin) + kmin * L + kmax).
Proof.
  intros Hd -> -> Hu. unfold coupler_number. rewrite Hd. cbn [rbind].
  rewrite !Z.eqb_refl, (proj2 (Z.eqb_neq umin umax) Hu). reflexivity.
Qed.

Lemma coupler_number_intra_cell_witness :
  coupler_number linear_index_to_chimera 2 2 4 1 6 = Ok (4 * 4 * (0 * 2 + 0) + 1 * 4 + 2).
Proof.
  apply (coupler_number_intra_cell linear_index_to_chimera 2 2 4 1 6 0 0 0 1 0 0 1 2);
    [reflexivity | reflexivity | reflexivity | lia].
Defined.

(** C3 as written fails: qubits 1 and 6 of the 2x2 grid with shores of 4 lie
    in cell (0, 0) on shores 0 and 1, at offsets 1 and 2; the coupler number
    is 6, while the shores in place of the offsets would give 1. *)
Lemma coupler_number_intra_cell_not_shores :
  linear_index_to_chimera [Z.min 1 6; Z.max 1 6] 2 2 4
    = Ok [[0; 0; 0; 1]; [0; 0; 1; 2]]
  ∧ coupler_number linear_index_to_chimera 2 2 4 1 6 = Ok 6
  ∧ coupler_number linear_index_to_chimera 2 2 4 1 6
    ≠ Ok (4 * 4 * (0 * 2 + 0) + 0 * 4 + 1).
Proof. split; [reflexivity|]. split; [reflexivity|]. discriminate. Qed.

(** C2: the synthetic Chimera graph with [L = 4], [M = 2], [N = 2] has 64
    couplers inside cells, 8 horizontal and 8 vertical ones, 80 in all;
    [coupler_number] raises on none of them, in either order of the two
    qubits, and numbers them 0, 1, ..., 79, each number once. *)
Theorem chimera_4_2_2_coupler_numbers :
  length (Chimera.intra_cell 4 2 2) = 64%nat
  ∧ length (Chimera.horizontal 4 2 2) = 8%nat
  ∧ length (Chimera.vertical 4 2 2) = 8%nat
  ∧ length (Chimera.couplers 4 2 2) = 80%nat
  ∧ map (λ e, coupler_number linear_index_to_chimera 2 2 4 e.1 e.2)
        (Chimera.couplers 4 2 2) = map Ok (seqZ 0 80)
  ∧ map (λ e, coupler_number linear_index_to_chimera 2 2 4 e.2 e.1)
        (Chimera.couplers 4 2 2) = map Ok (seqZ 0 80)
  ∧ NoDup (seqZ 0 80)
  ∧ ∀ id, id ∈ seqZ 0 80 ↔ 0 ≤ id < 80.
Proof.
  split_and!; try (vm_compute; reflexivity).
  - apply NoDup_seqZ.
  - intros id. rewrite elem_of_seqZ. lia.
Qed.

(** ** Edge canonicalisation *)

Section CanonicalizeFacts.

Context {W : Type} (zero : W) (add : W → W → W) (is_zero : W → bool).

(** Both laws hold of float addition and of the test [wt == 0.0]. *)
Hypothesis add_comm : ∀ a b, add a b = add b a.
Hypothesis add_zero_l : ∀ w, is_zero w = false → add zero w = w.

Local Abbreviation canon := (canonicalize_strengths zero add is_zero).
Local Abbreviation step := (canonicalize_step zero add is_zero).
Local Abbreviation summed := (summed_entries add is_zero).

Lemma nonzero_entry_is_nonzero (o : option W) (w : W) :
  nonzero_entry is_zero o = Some w → o = Some w ∧ is_zero w = false.
Proof.
  destruct o as [v|]; simpl; [|done].
  destruct (is_zero v) eqn:E; [done|]. by intros [= <-].
Qed.

(** The entry of the result at any key, in terms of the entries of the
    argument. *)
Lemma canonicalize_lookup (strs : gmap (Z * Z) W) (a b : Z) :
  canon strs !! (a, b) =
    if a <? b then summed (strs !! (a, b)) (strs !! (b, a)) else None.
Proof.
  revert a b. unfold canonicalize_strengths.
  apply (map_fold_weak_ind
    (λ r m, ∀ a b, r !! (a, b) =
       if a <? b then summed (m !! (a, b)) (m !! (b, a)) else None)).
  - intros a b. rewrite !lookup_empty. by destruct (a <? b).
  - intros [q1 q2] x m r Hfresh IH a b. unfold canonicalize_step.
    destruct (Z.eqb_spec q1 q2) as [->|Hq].
    { rewrite IH. destruct (Z.ltb_spec a b) as [Hab|Hab]; [|done].
      rewrite !lookup_insert_ne by (intros [= -> ->]; lia). done. }
    destruct (is_zero x) eqn:Hx.
    { rewrite IH. destruct (Z.ltb_spec a b) as [Hab|Hab]; [|done].
      unfold summed_entries.
      destruct (decide ((q1, q2) = (a, b))) as [[= -> ->]|Hk1].
      - rewrite lookup_insert_eq, lookup_insert_ne by (intros [= -> ?]; lia).
        rewrite Hfresh. simpl. by rewrite Hx.
      - rewrite (lookup_insert_ne _ _ (a, b)) by done.
        destruct (decide ((q1, q2) = (b, a))) as [[= -> ->]|Hk2].
        + rewrite lookup_insert_eq, Hfresh. simpl. by rewrite Hx.
        + by rewrite lookup_insert_ne. }
    destruct (Z.gtb_spec q1 q2) as [Hgt|Hle].
    + (* stored under (q2, q1) *)
      destruct (decide ((q2, q1) = (a, b))) as [[= -> ->]|Hk].
      * rewrite lookup_insert_eq, IH, Hfresh.
        rewrite (proj2 (Z.ltb_lt a b)) by lia.
        rewrite lookup_insert_eq, lookup_insert_ne by (intros [= -> ?]; lia).
        unfold summed_entries. cbn [nonzero_entry]. rewrite Hx.
        destruct (nonzero_entry is_zero (m !! (a, b))); simpl; [done|].
        by rewrite add_zero_l.
      * rewrite lookup_insert_ne, IH by done.
        destruct (Z.ltb_spec a b) as [Hab|Hab]; [|done].
        rewrite !lookup_insert_ne; [done| |]; intros [= -> ->]; [congruence|lia].
    + (* stored under (q1, q2) *)
      destruct (decide ((q1, q2) = (a, b))) as [[= -> ->]|Hk].
      * rewrite lookup_insert_eq, IH, Hfresh.
        rewrite (proj2 (Z.ltb_lt a b)) by lia.
        rewrite lookup_insert_eq, lookup_insert_ne by (intros [= -> ?]; lia).
        unfold summed_entries. cbn [nonzero_entry]. rewrite Hx.
        destruct (nonzero_entry is_zero (m !! (b, a))); simpl.
        -- by rewrite add_comm.
        -- by rewrite add_zero_l.
      * rewrite lookup_insert_ne, IH by done.
        destruct (Z.ltb_spec a b) as [Hab|Hab]; [|done].
        rewrite !lookup_insert_ne; [done| |]; intros [= -> ->]; [lia|congruence].
Qed.

Lemma canonicalize_key_ordered (strs : gmap (Z * Z) W) (a b : Z) (w : W) :
  canon strs !! (a, b) = Some w → a < b.
Proof.
  rewrite canonicalize_lookup. destruct (Z.ltb_spec a b); [done|discriminate].
Qed.

(** A map in canonical form without zero weights is left as it is. *)
Lemma canonicalize_fixpoint (m : gmap (Z * Z) W) :
  (∀ a b w, m !! (a, b) = Some w → a < b ∧ is_zero w = false) →
  canon m = m.
Proof.
  intros Hm. apply map_eq. intros [a b]. rewrite canonicalize_lookup.
  destruct (Z.ltb_spec a b) as [Hab|Hab].
  - assert (m !! (b, a) = None) as ->.
    { destruct (m !! (b, a)) as [w|] eqn:E; [|done].
      apply Hm in E. lia. }
    unfold summed_entries. cbn [nonzero_entry].
    destruct (m !! (a, b)) as [w|] eqn:E; [|done].
    simpl. by rewrite (proj2 (Hm _ _ _ E)).
  - destruct (m !! (a, b)) as [w|] eqn:E; [|done].
    apply Hm in E. lia.
Qed.

(** C1 (amended): the keys of [canonicalize_strengths(strs)] are pairs
    [(a, b)] with [a < b], so no key is a self-loop; the weight under
    [(a, b)] is the sum of the non-zero weights that [strs] holds under
    [(a, b)] and [(b, a)]; the function is idempotent on every [strs] whose
    result holds no zero weight (two opposite weights add up to an entry of
    weight zero, which a second pass drops), and a third pass never changes
    the result of the second. *)
Theorem canonicalize_strengths_canonical (strs : gmap (Z * Z) W) :
  let canonical := canonicalize_strengths zero add is_zero strs in
  (∀ a b w, canonical !! (a, b) = Some w → a < b)
  ∧ (∀ a b, a < b →
       canonical !! (a, b)
       = summed_entries add is_zero (strs !! (a, b)) (strs !! (b, a)))
  ∧ ((∀ k w, canonical !! k = Some w → is_zero w = false) →
       canonicalize_strengths zero add is_zero canonical = canonical)
  ∧ canonicalize_strengths zero add is_zero
      (canonicalize_strengths zero add is_zero canonical)
    = canonicalize_strengths zero add is_zero canonical.
Proof.
  intros canonical. unfold canonical. split_and!.
  - apply canonicalize_key_ordered.
  - intros a b Hab. rewrite canonicalize_lookup.
    by rewrite (proj2 (Z.ltb_lt a b) Hab).
  - intros Hnz. apply canonicalize_fixpoint. intros a b w Hw. split.
    + by apply canonicalize_key_ordered in Hw.
    + by apply Hnz in Hw.
  - apply canonicalize_fixpoint. intros a b w Hw. split.
    + by apply canonicalize_key_ordered in Hw.
    + rewrite canonicalize_lookup in Hw.
      destruct (Z.ltb_spec a b) as [Hab|Hab]; [|done].
      assert (canon strs !! (b, a) = None) as Hba.
      { destruct (canon strs !! (b, a)) as [v|] eqn:E; [|done].
        apply canonicalize_key_ordered in E. lia. }
      rewrite Hba in Hw. unfold summed_entries in Hw. cbn [nonzero_entry] in Hw.
      destruct (nonzero_entry is_zero (canon strs !! (a, b))) as [v|] eqn:E;
        [|done].
      injection Hw as <-. by apply nonzero_entry_is_nonzero in E as [_ ?].
Qed.

End CanonicalizeFacts.

Lemma canonicalize_strengths_canonical_witness :
  canonicalize_Z doubled_strengths !! (1, 2) = Some 7
  ∧ canonicalize_Z (canonicalize_Z doubled_strengths)
    = canonicalize_Z doubled_strengths.
Proof.
  destruct (canonicalize_strengths_canonical 0 Z.add (Z.eqb 0)
              Z.add_comm (λ w _, Z.add_0_l w) doubled_strengths)
    as (_ & Hsum & Hidem & _).
  unfold canonicalize_Z. split.
  - rewrite (Hsum 1 2) by lia. reflexivity.
  - apply Hidem. intros k w.
    replace (canonicalize_strengths 0 Z.add (Z.eqb 0) doubled_strengths)
      with ({[ (1, 2) := 7 ]} : gmap (Z * Z) Z) by (vm_compute; reflexivity).
    intros [_ <-]%lookup_singleton_Some. reflexivity.
Defined.

(** C1 as written fails: the weights 1 and -1 of the edges (1, 2) and (2, 1)
    add up to an entry of weight zero, and a second pass drops that entry. *)
Lemma canonicalize_strengths_not_idempotent :
  canonicalize_Z cancelling_strengths !! (1, 2) = Some 0
  ∧ canonicalize_Z (canonicalize_Z cancelling_strengths)
    ≠ canonicalize_Z cancelling_strengths.
Proof.
  split; [vm_compute; reflexivity|].
  intros H. apply (f_equal (λ m, m !! (1, 2))) in H.
  vm_compute in H. discriminate.
Qed.

(** ** Embeddability *)

Lemma foldl_max_spec (xs : list Z) (a : Z) :
  a ≤ foldl Z.max a xs
  ∧ (∀ x, x ∈ xs → x ≤ foldl Z.max a xs)
  ∧ (foldl Z.max a xs = a ∨ foldl Z.max a xs ∈ xs).
Proof.
  revert a. induction xs as [|y xs IH]; intros a; simpl.
  - split_and!; [lia | by intros ? ?%elem_of_nil | by left].
  - destruct (IH (Z.max a y)) as (Hge & Hall & Hin). split_and!.
    + lia.
    + intros x [->|Hx]%elem_of_cons; [lia | by apply Hall].
    + destruct Hin as [Heq|Hin]; [|right; by apply elem_of_cons; right].
      rewrite Heq. destruct (Z.max_spec a y) as [[_ ->]|[_ ->]];
        [right; apply elem_of_cons; by left | by left].
Qed.

Lemma py_max_spec (xs : list Z) :
  xs ≠ [] → ∃ m, py_max xs = Ok m ∧ m ∈ xs ∧ ∀ x, x ∈ xs → x ≤ m.
Proof.
  destruct xs as [|a xs]; [done|]. intros _. simpl.
  destruct (foldl_max_spec xs a) as (Hge & Hall & Hin).
  exists (foldl Z.max a xs). split_and!; [done| |].
  - destruct Hin as [->|Hin]; apply elem_of_cons; [by left | by right].
  - intros x [->|Hx]%elem_of_cons; [done | by apply Hall].
Qed.

Lemma add_neighbor_defined (n1 n2 : Z) (nodes : gmap Z (gset Z)) :
  is_Some (add_neighbor n1 n2 nodes !! n1).
Proof.
  unfold add_neighbor. destruct (nodes !! n1); rewrite lookup_insert_eq; eauto.
Qed.

Lemma add_neighbor_keeps (n1 n2 n : Z) (nodes : gmap Z (gset Z)) :
  is_Some (nodes !! n) → is_Some (add_neighbor n1 n2 nodes !! n).
Proof.
  intros Hn. destruct (decide (n1 = n)) as [->|Hne].
  - apply add_neighbor_defined.
  - unfold add_neighbor. destruct (nodes !! n1); by rewrite lookup_insert_ne.
Qed.

Lemma add_neighbor_peers_nonempty (n1 n2 : Z) (nodes : gmap Z (gset Z)) :
  peers_nonempty nodes → peers_nonempty (add_neighbor n1 n2 nodes).
Proof.
  intros Hne n peers. unfold add_neighbor.
  destruct (nodes !! n1) as [ps|] eqn:E;
    (destruct (decide (n1 = n)) as [->|Hn];
     [rewrite lookup_insert_eq; intros [= <-]; set_solver
     |rewrite lookup_insert_ne by done; apply Hne]).
Qed.

Lemma edges_to_neighbor_list_snoc (pairs : list (Z * Z)) (e : Z * Z) :
  edges_to_neighbor_list (pairs ++ [e])
  = add_neighbor e.2 e.1 (add_neighbor e.1 e.2 (edges_to_neighbor_list pairs)).
Proof. unfold edges_to_neighbor_list. by rewrite foldl_snoc. Qed.

Lemma edges_to_neighbor_list_peers_nonempty (pairs : list (Z * Z)) :
  peers_nonempty (edges_to_neighbor_list pairs).
Proof.
  induction pairs as [|e pairs IH] using rev_ind.
  - intros n peers. unfold edges_to_neighbor_list. simpl.
    by rewrite lookup_empty.
  - rewrite edges_to_neighbor_list_snoc.
    by do 2 apply add_neighbor_peers_nonempty.
Qed.

Lemma edges_to_neighbor_list_nonempty (pairs : list (Z * Z)) :
  pairs ≠ [] → edges_to_neighbor_list pairs ≠ ∅.
Proof.
  destruct pairs as [|e pairs _] using rev_ind; [done|]. intros _ Hempty.
  pose proof (add_neighbor_defined e.2 e.1
    (add_neighbor e.1 e.2 (edges_to_neighbor_list pairs))) as [ps Hps].
  rewrite <- edges_to_neighbor_list_snoc, Hempty, lookup_empty in Hps. done.
Qed.

(** The exact ceiling: [c] is the least integer with [deg <= dmax * c]. *)
Lemma extra_nodes_ceiling (dmax deg : Z) :
  0 < dmax → dmax < deg →
  dmax * extra_nodes dmax deg < deg ≤ dmax * (extra_nodes dmax deg + 1).
Proof.
  intros Hpos Hgt. unfold extra_nodes.
  rewrite (proj2 (Z.gtb_lt deg dmax)) by lia.
  pose proof (Z.div_mod (- deg) dmax ltac:(lia)) as Hdm.
  pose proof (Z.mod_pos_bound (- deg) dmax Hpos) as Hb.
  nia.
Qed.

Lemma extra_nodes_within (dmax deg : Z) : deg ≤ dmax → extra_nodes dmax deg = 0.
Proof.
  intros Hle. unfold extra_nodes.
  destruct (Z.gtb_spec deg dmax); [lia | done].
Qed.

(** The loop over [graph_needed.values()] adds up [extra_nodes]. *)
Lemma extras_loop (dmax : Z) (graph : gmap Z (gset Z)) :
  dmax ≠ 0 →
  map_fold (extras_step dmax) (Ok 0) graph = Ok (total_extras dmax graph).
Proof.
  intros Hnz. rewrite map_fold_foldr. unfold total_extras.
  induction (map_to_list graph) as [|[n peers] l IH]; [done|].
  cbn [foldr map uncurry]. rewrite IH. unfold extras_step, rbind, ceil_div.
  cbn [snd]. unfold extra_nodes, degree.
  destruct (Z.of_nat (size peers) >? dmax); [|f_equal; lia].
  rewrite (proj2 (Z.eqb_neq dmax 0) Hnz). f_equal. lia.
Qed.

Lemma total_extras_within (dmax : Z) (graph : gmap Z (gset Z)) :
  (∀ n peers, graph !! n = Some peers → degree peers ≤ dmax) →
  total_extras dmax graph = 0.
Proof.
  intros Hdeg. unfold total_extras.
  assert (∀ kv, kv ∈ map_to_list graph → degree kv.2 ≤ dmax) as Hl.
  { intros [n peers] Hin%elem_of_map_to_list. by eapply Hdeg. }
  induction (map_to_list graph) as [|kv l IH]; [done|].
  cbn [foldr map]. rewrite IH, extra_nodes_within; [done| |].
  - apply Hl, elem_of_cons. by left.
  - intros kv' Hin. apply Hl, elem_of_cons. by right.
Qed.

(** C9 (amended): for a hardware edge list that is not empty,
    [maybe_embeddable] returns a report whose [extras] is the sum, over the
    logical nodes of degree above the largest hardware degree [dmax], of
    [ceil(degree / dmax) - 1]; [embed] is false exactly when the needed nodes
    plus [extras] exceed the available nodes or the needed edges plus
    [extras] exceed the available edges; and on a logical edge list equal to
    the hardware edge list [embed] is true and [extras] is 0. *)
Theorem maybe_embeddable_report (edges adj : list (Z * Z)) :
  adj ≠ [] →
  ∃ dmax report,
    maybe_embeddable edges adj = Ok report
    ∧ 0 < dmax
    ∧ (∃ n peers, edges_to_neighbor_list adj !! n = Some peers
                  ∧ degree peers = dmax)
    ∧ (∀ n peers, edges_to_neighbor_list adj !! n = Some peers →
                  degree peers ≤ dmax)
    ∧ extras report = total_extras dmax (edges_to_neighbor_list edges)
    ∧ (∀ deg, deg ≤ dmax → extra_nodes dmax deg = 0)
    ∧ (∀ deg, dmax < deg →
         dmax * extra_nodes dmax deg < deg ≤ dmax * (extra_nodes dmax deg + 1))
    ∧ nodes_needed_avail report
      = (Z.of_nat (size (edges_to_neighbor_list edges)),
         Z.of_nat (size (edges_to_neighbor_list adj)))
    ∧ edges_needed_avail report
      = (Z.of_nat (length edges), Z.of_nat (length adj))
    ∧ (embed report = false ↔
         (nodes_needed_avail report).1 + extras report
           > (nodes_needed_avail report).2
         ∨ (edges_needed_avail report).1 + extras report
           > (edges_needed_avail report).2)
    ∧ (edges = adj → embed report = true ∧ extras report = 0).
Proof.
  intros Hadj.
  pose proof (edges_to_neighbor_list_nonempty adj Hadj) as Hg.
  pose proof (edges_to_neighbor_list_peers_nonempty adj) as Hpeers.
  set (degrees := map (λ kv : Z * gset Z, Z.of_nat (size kv.2))
                      (map_to_list (edges_to_neighbor_list adj))).
  assert (degrees ≠ []) as Hdegrees.
  { unfold degrees. intros Hnil%fmap_nil_inv.
    by apply map_to_list_empty_iff in Hnil. }
  destruct (py_max_spec degrees Hdegrees) as (dmax & Hmax & Hin & Hall).
  assert (∀ n peers, edges_to_neighbor_list adj !! n = Some peers →
            degree peers ≤ dmax) as Hbound.
  { intros n peers Hn. apply Hall. unfold degrees.
    apply list_elem_of_fmap. exists (n, peers).
    split; [done | by apply elem_of_map_to_list]. }
  apply list_elem_of_fmap in Hin as ([n peers] & Hdeg & Hnode).
  apply elem_of_map_to_list in Hnode. cbn [snd] in Hdeg.
  assert (0 < dmax) as Hpos.
  { apply Hpeers in Hnode.
    assert (size peers ≠ 0%nat) as Hsize.
    { intros Hs%size_empty_iff. apply Hnode. by apply leibniz_equiv. }
    lia. }
  exists dmax. unfold maybe_embeddable. fold degrees. rewrite Hmax.
  cbn [rbind]. rewrite extras_loop by lia. cbn [rbind].
  eexists. split; [reflexivity|]. cbn [embed extras nodes_needed_avail
    edges_needed_avail fst snd].
  split_and!; try done.
  - by exists n, peers.
  - apply extra_nodes_within.
  - intros deg Hgt. by apply extra_nodes_ceiling.
  - rewrite andb_false_iff, !negb_false_iff, !Z.gtb_gt. lia.
  - intros ->. rewrite total_extras_within by done. split; [|done].
    rewrite andb_true_iff, !negb_true_iff.
    split; rewrite Z.gtb_ltb; apply Z.ltb_ge; lia.
Qed.

Lemma maybe_embeddable_report_witness :
  ∃ report, maybe_embeddable [(0, 1); (1, 2)] [(0, 1); (1, 2)] = Ok report
            ∧ embed report = true ∧ extras report = 0.
Proof.
  destruct (maybe_embeddable_report [(0, 1); (1, 2)] [(0, 1); (1, 2)])
    as (dmax & report & Hrun & _ & _ & _ & _ & _ & _ & _ & _ & _ & Hsame);
    [discriminate|].
  exists report. split; [exact Hrun | exact (Hsame eq_refl)].
Defined.

(** C9 as written fails on an empty hardware edge list: [max] of no degrees
    raises [ValueError], also when the logical edge list is the same empty
    list. *)
Lemma maybe_embeddable_empty_hardware :
  maybe_embeddable [] [] = Raise ValueError.
Proof. reflexivity. Qed.

(** ** Renaming symbols *)

Lemma lookup_delete_all (l : list string) (m : gmap string Z) (x : string) :
  foldl (λ acc s, delete s acc) m l !! x
  = if decide (x ∈ l) then None else m !! x.
Proof.
  revert m. induction l as [|s l IH]; intros m; cbn [foldl].
  - case_decide as H; [by apply elem_of_nil in H | done].
  - rewrite IH.
    destruct (decide (x ∈ l)) as [Hin|Hnin];
      destruct (decide (x ∈ s :: l)) as [Hin'|Hnin']; try done.
    + exfalso. apply Hnin', elem_of_cons. by right.
    + apply elem_of_cons in Hin' as [->|?]; [apply lookup_delete_eq | done].
    + apply lookup_delete_ne. intros ->. apply Hnin', elem_of_cons. by left.
Qed.

(** The first loop stops at a symbol that the copy does not hold. *)
Lemma collect_before_undefined (before_syms : list string) (s2n : gmap string Z)
    (nums : list Z) (s : string) (st : SymbolMapping) :
  s ∈ before_syms → s2n !! s = None →
  ∃ msg, collect_before before_syms s2n nums st = (Raise (SystemExit msg), st).
Proof.
  revert s2n nums.
  induction before_syms as [|x rest IH]; intros s2n nums Hin Hnone.
  - by apply elem_of_nil in Hin.
  - simpl. destruct (s2n !! x) as [n|] eqn:Ex; [|by eexists].
    apply IH.
    + apply elem_of_cons in Hin as [->|Hin]; [congruence | done].
    + apply lookup_delete_None. by right.
Qed.

(** On distinct, defined symbols it removes them all and lists their
    numbers in order. *)
Lemma collect_before_defined (before_syms : list string) (s2n : gmap string Z)
    (nums : list Z) (st : SymbolMapping) :
  NoDup before_syms →
  (∀ s, s ∈ before_syms → is_Some (s2n !! s)) →
  ∃ before_nums,
    collect_before before_syms s2n nums st
      = (Ok (foldl (λ acc s, delete s acc) s2n before_syms, nums ++ before_nums), st)
    ∧ length before_nums = length before_syms
    ∧ ∀ i s, before_syms !! i = Some s → before_nums !! i = s2n !! s.
Proof.
  revert s2n nums.
  induction before_syms as [|x rest IH]; intros s2n nums Hnd Hdef.
  - exists []. simpl. rewrite app_nil_r. split_and!; [done|done|].
    intros i s. by rewrite lookup_nil.
  - apply NoDup_cons in Hnd as [Hx Hnd].
    destruct (Hdef x) as [n Hn]; [apply elem_of_cons; by left|].
    destruct (IH (delete x s2n) (nums ++ [n]) Hnd) as (bn & Hrun & Hlen & Hnth).
    { intros s Hs. rewrite lookup_delete_ne by (intros ->; done).
      apply Hdef, elem_of_cons. by right. }
    exists (n :: bn). simpl. rewrite Hn, Hrun, <- app_assoc. simpl.
    split_and!; [done | by rewrite Hlen |].
    intros [|i] s; simpl.
    + by intros [= <-].
    + intros Hs. rewrite (Hnth _ _ Hs). apply lookup_delete_ne.
      intros ->. apply Hx. by eapply list_elem_of_lookup_2.
Qed.

(** The second loop: a symbol that is not assigned keeps its entry, and an
    assigned symbol gets the number of its last assignment. *)
Lemma assign_pairs_other (pairs : list (string * Z)) (m : gmap string Z)
    (t : string) :
  t ∉ pairs.*1 →
  foldl (λ acc sn, <[sn.1 := sn.2]> acc) m pairs !! t = m !! t.
Proof.
  revert m. induction pairs as [|[s n] pairs IH]; intros m Hnin; [done|].
  simpl in *. apply not_elem_of_cons in Hnin as [Hne Hnin].
  rewrite IH by done. by apply lookup_insert_ne.
Qed.

Lemma assign_pairs_last (pairs : list (string * Z)) (m : gmap string Z)
    (i : nat) (t : string) (n : Z) :
  pairs !! i = Some (t, n) →
  (∀ j n', (i < j)%nat → pairs !! j ≠ Some (t, n')) →
  foldl (λ acc sn, <[sn.1 := sn.2]> acc) m pairs !! t = Some n.
Proof.
  revert m i. induction pairs as [|[s k] pairs IH]; intros m i Hi Hlast.
  - by rewrite lookup_nil in Hi.
  - destruct i as [|i]; simpl in *.
    + injection Hi as -> ->. rewrite assign_pairs_other.
      * apply lookup_insert_eq.
      * intros ([t' n'] & Heq & Hin)%list_elem_of_fmap. simpl in Heq. subst t'.
        apply list_elem_of_lookup in Hin as [j Hj].
        apply (Hlast (S j) n'); [lia | done].
    + apply (IH _ i); [done|].
      intros j n' Hij. apply (Hlast (S j) n'). lia.
Qed.

(** [overwrite_with] rebuilds [num2syms] as the inverse of [sym2num]. *)
Lemma add_symbol_inverse (s2n : gmap string Z) (s : string) (n : Z) :
  s2n !! s = Some n ↔ ∃ ss, map_fold add_symbol ∅ s2n !! n = Some ss ∧ s ∈ ss.
Proof.
  revert s n.
  apply (map_fold_weak_ind
    (λ r m, ∀ s n, m !! s = Some n ↔ ∃ ss, r !! n = Some ss ∧ s ∈ ss)).
  - intros s n. rewrite lookup_empty. split; [done|].
    intros (ss & Hss & _). by rewrite lookup_empty in Hss.
  - intros s0 n0 m r Hfresh IH s n. unfold add_symbol. split.
    + intros H. destruct (decide (s0 = s)) as [<-|Hs].
      * rewrite lookup_insert_eq in H. injection H as <-.
        destruct (r !! n0) as [ss0|]; eexists;
          (split; [apply lookup_insert_eq|]);
          [apply elem_of_union; right|]; by apply elem_of_singleton.
      * rewrite lookup_insert_ne in H by done.
        apply IH in H as (ss & Hss & Hin).
        destruct (decide (n0 = n)) as [<-|Hn].
        -- rewrite Hss. eexists. split; [apply lookup_insert_eq|].
           apply elem_of_union. by left.
        -- exists ss. split; [|done].
           destruct (r !! n0); by rewrite lookup_insert_ne.
    + intros (ss & Hss & Hin).
      assert (s ≠ s0 → (∃ ss', r !! n = Some ss' ∧ s ∈ ss') →
              <[s0:=n0]> m !! s = Some n) as Hold.
      { intros Hs Hr. rewrite lookup_insert_ne by done. by apply IH. }
      assert (∀ ss', r !! n = Some ss' → s ∈ ss' → s ≠ s0) as Hne.
      { intros ss' Hr Hs ->. assert (m !! s0 = Some n) as Hm.
        { apply IH. eauto. }
        congruence. }
      destruct (decide (n0 = n)) as [<-|Hn].
      * destruct (r !! n0) as [ss0|] eqn:E;
          rewrite lookup_insert_eq in Hss; injection Hss as <-.
        -- apply elem_of_union in Hin as [Hin|Hin%elem_of_singleton].
           ++ apply Hold; [by eapply Hne | eauto].
           ++ subst s. apply lookup_insert_eq.
        -- apply elem_of_singleton in Hin as ->. apply lookup_insert_eq.
      * assert (r !! n = Some ss) as Hr.
        { destruct (r !! n0); by rewrite lookup_insert_ne in Hss. }
        apply Hold; [by eapply Hne | eauto].
Qed.

Lemma overwrite_with_result (s2n : gmap string Z) (st : SymbolMapping) :
  ∃ st', overwrite_with s2n st = (Ok (), st')
         ∧ sym2num st' = s2n ∧ consistent st'.
Proof.
  unfold overwrite_with, put. eexists. split; [reflexivity|].
  split; [done|]. intros s n. apply add_symbol_inverse.
Qed.

(** C7 (amended): [replace_all] ends the program through [abend], with the
    table unchanged, if a symbol of [before_syms] is not defined.  On
    distinct, defined [before_syms] and [after_syms] of the same length it
    succeeds; the symbol at a position of [after_syms] then has the number
    that the symbol at that position of [before_syms] had, provided it does
    not occur again further on in [after_syms] (of a repeated symbol the
    last position counts); a symbol outside [after_syms] is undefined if it
    is in [before_syms] and keeps its number otherwise; and the two maps of
    the table agree. *)
Theorem replace_all_renames
    (st : SymbolMapping) (before_syms after_syms : list string) :
  (∀ s, s ∈ before_syms → sym2num st !! s = None →
     ∃ msg, replace_all before_syms after_syms st = (Raise (SystemExit msg), st))
  ∧ (NoDup before_syms →
     (∀ s, s ∈ before_syms → is_Some (sym2num st !! s)) →
     length before_syms = length after_syms →
     ∃ st',
       replace_all before_syms after_syms st = (Ok (), st')
       ∧ (∀ i s t,
            before_syms !! i = Some s → after_syms !! i = Some t →
            (∀ j, (i < j)%nat → after_syms !! j ≠ Some t) →
            sym2num st' !! t = sym2num st !! s ∧ is_Some (sym2num st !! s))
       ∧ (∀ s, s ∉ after_syms →
            sym2num st' !! s
            = if decide (s ∈ before_syms) then None else sym2num st !! s)
       ∧ consistent st').
Proof.
  split.
  - intros s Hin Hnone.
    destruct (collect_before_undefined before_syms (sym2num st) [] s st Hin Hnone)
      as [msg Hmsg].
    exists msg. unfold replace_all, bind, get. by rewrite Hmsg.
  - intros Hnd Hdef Hlen.
    destruct (collect_before_defined before_syms (sym2num st) [] st Hnd Hdef)
      as (bn & Hrun & Hbn & Hnth).
    set (s2n := assign_after after_syms bn
                  (foldl (λ acc s, delete s acc) (sym2num st) before_syms)).
    destruct (overwrite_with_result s2n st) as (st' & Hst' & Hs2n & Hcons).
    exists st'. split_and!; [|..|done].
    + unfold replace_all, bind, get. rewrite Hrun. exact Hst'.
    + intros i s t Hs Ht Hlast. split; [|apply Hdef; by eapply list_elem_of_lookup_2].
      rewrite Hs2n. unfold s2n, assign_after.
      destruct (Hdef s) as [n Hn]; [by eapply list_elem_of_lookup_2|].
      rewrite Hn. apply (assign_pairs_last _ _ i).
      * apply lookup_zip_with_Some. exists t, n.
        split_and!; [done | done |]. by rewrite (Hnth _ _ Hs).
      * intros j n' Hij Hj. apply lookup_zip_with_Some in Hj
          as (t' & k & [= <- <-] & Ht' & _).
        by apply (Hlast j).
    + intros s Hs. rewrite Hs2n. unfold s2n, assign_after.
      rewrite assign_pairs_other.
      * apply lookup_delete_all.
      * intros Hin. apply Hs. rewrite fst_zip in Hin by lia. done.
Qed.

Lemma replace_all_renames_witness :
  ∃ st', replace_all ["a"; "b"] ["x"; "y"] two_symbols = (Ok (), st')
         ∧ sym2num st' !! "x" = Some 0 ∧ sym2num st' !! "y" = Some 1.
Proof.
  destruct (replace_all_renames two_symbols ["a"; "b"] ["x"; "y"]) as [_ Hok].
  destruct Hok as (st' & Hrun & Hpos & _).
  - by apply (bool_decide_unpack _).
  - intros s [->|[->|[]%elem_of_nil]%elem_of_cons]%elem_of_cons;
      eexists; reflexivity.
  - reflexivity.
  - exists st'. split_and!; [exact Hrun | |].
    + apply (Hpos 0%nat "a" "x"); [reflexivity | reflexivity |].
      intros [|[|j]] Hj; [lia | discriminate | discriminate].
    + apply (Hpos 1%nat "b" "y"); [reflexivity | reflexivity |].
      intros [|[|j]] Hj; [lia | lia | discriminate].
Defined.

(** C7 as written fails when a new symbol is repeated: renaming ["a"; "b"]
    (numbers 0 and 1) to ["x"; "x"] succeeds and leaves "x" with number 1, so
    position 0 has not kept its number. *)
Lemma replace_all_repeated_new_symbol :
  (replace_all ["a"; "b"] ["x"; "x"] two_symbols).1 = Ok ()
  ∧ sym2num two_symbols !! "a" = Some 0
  ∧ sym2num (replace_all ["a"; "b"] ["x"; "x"] two_symbols).2 !! "x" = Some 1.
Proof. split_and!; vm_compute; reflexivity. Qed.

(** ** Aliases *)

(** Filing the symbols of one number: the inner loop of the rebuild. *)
Lemma file_symbols_lookup (n : Z) (ss : gset string) (acc : gmap string Z)
    (s : string) :
  set_fold (λ s' acc', <[s' := n]> acc') acc ss !! s
  = if decide (s ∈ ss) then Some n else acc !! s.
Proof.
  revert s.
  pose proof (set_fold_ind_L
    (λ (r : gmap string Z) (X : gset string),
       ∀ s : string, r !! s = if decide (s ∈ X) then Some n else acc !! s)
    (λ s' acc', <[s' := n]> acc') acc) as Hind.
  apply Hind; clear Hind.
  - intros s. case_decide as H; [by apply not_elem_of_empty in H | done].
  - intros x X r Hx IH s. destruct (decide (x = s)) as [->|Hne].
    + rewrite lookup_insert_eq. case_decide as H; [done|].
      exfalso. apply H, elem_of_union. left. by apply elem_of_singleton.
    + rewrite lookup_insert_ne, IH by done.
      destruct (decide (s ∈ X)) as [HX|HX]; case_decide as H; try done.
      * exfalso. apply H, elem_of_union. by right.
      * apply elem_of_union in H as [H%elem_of_singleton|H]; congruence.
Qed.

(** The rebuilt [sym2num] is the inverse of [num2syms], as long as no symbol
    is filed under two numbers. *)
Lemma regenerate_lookup (n2s : gmap Z (gset string)) :
  disjoint_sets n2s →
  ∀ s n, regenerate n2s !! s = Some n ↔ ∃ ss, n2s !! n = Some ss ∧ s ∈ ss.
Proof.
  unfold regenerate.
  apply (map_fold_weak_ind
    (λ r m, disjoint_sets m →
            ∀ s n, r !! s = Some n ↔ ∃ ss, m !! n = Some ss ∧ s ∈ ss)).
  - intros _ s n. rewrite lookup_empty. split; [done|].
    intros (ss & Hss & _). by rewrite lookup_empty in Hss.
  - intros n0 ss0 m r Hfresh IH Hd.
    assert (disjoint_sets m) as Hdm.
    { intros n n' ss ss' s H1 H2. apply (Hd n n' ss ss' s);
        rewrite lookup_insert_ne; congruence. }
    specialize (IH Hdm). intros s n. rewrite file_symbols_lookup.
    destruct (decide (s ∈ ss0)) as [Hin|Hnin].
    + split.
      * intros [= <-]. exists ss0. by rewrite lookup_insert_eq.
      * intros (ss & Hss & Hs). f_equal.
        apply (Hd n0 n ss0 ss s); [apply lookup_insert_eq | done..].
    + rewrite IH. split; intros (ss & Hss & Hs).
      * exists ss. split; [|done]. rewrite lookup_insert_ne; congruence.
      * destruct (decide (n0 = n)) as [<-|Hn].
        -- rewrite lookup_insert_eq in Hss. congruence.
        -- rewrite lookup_insert_ne in Hss by done. eauto.
Qed.

Lemma consistent_disjoint (st : SymbolMapping) :
  consistent st → disjoint_sets (num2syms st).
Proof.
  intros Hc n n' ss ss' s H1 H2 Hs Hs'.
  assert (sym2num st !! s = Some n) as E1 by (apply Hc; eauto).
  assert (sym2num st !! s = Some n') as E2 by (apply Hc; eauto).
  congruence.
Qed.

Lemma init_well_formed : well_formed init.
Proof.
  split.
  - intros s n. simpl. rewrite lookup_empty. split; [done|].
    intros (ss & Hss & _). by rewrite lookup_empty in Hss.
  - intros s n. simpl. by rewrite lookup_empty.
Qed.

(** Looking a symbol up, or defining it, keeps the table well formed and the
    numbers of the symbols defined before. *)
Lemma ensured_spec (sym : string) (st st' : SymbolMapping) (n d : Z) :
  well_formed st →
  ensured sym st = (n, d, st') →
  well_formed st'
  ∧ sym2num st' !! sym = Some n
  ∧ ∀ x k, sym2num st !! x = Some k → sym2num st' !! x = Some k.
Proof.
  intros [Hc Hb]. unfold ensured.
  destruct (sym2num st !! sym) as [k|] eqn:E; intros [= <- <- <-].
  { done. }
  split_and!.
  - split.
    + intros x k. cbn [sym2num num2syms].
      destruct (decide (sym = x)) as [<-|Hx].
      * rewrite lookup_insert_eq. split.
        -- intros [= <-]. exists {[sym]}. rewrite lookup_insert_eq.
           split; [done | by apply elem_of_singleton].
        -- intros (ss & Hss & Hin).
           destruct (decide (next_sym_num st = k)) as [<-|Hk]; [done|].
           rewrite lookup_insert_ne in Hss by done.
           assert (sym2num st !! sym = Some k) by (apply Hc; eauto).
           congruence.
      * rewrite lookup_insert_ne by done. split.
        -- intros Hk. pose proof (Hb _ _ Hk).
           apply Hc in Hk as (ss & Hss & Hin). exists ss.
           split; [|done]. rewrite lookup_insert_ne; [done|lia].
        -- intros (ss & Hss & Hin).
           destruct (decide (next_sym_num st = k)) as [<-|Hk].
           ++ rewrite lookup_insert_eq in Hss. injection Hss as <-.
              apply elem_of_singleton in Hin. congruence.
           ++ rewrite lookup_insert_ne in Hss by done. apply Hc. eauto.
    + intros x k. cbn [sym2num next_sym_num].
      destruct (decide (sym = x)) as [<-|Hx].
      * rewrite lookup_insert_eq. intros [= <-]. lia.
      * rewrite lookup_insert_ne by done. intros Hk%Hb. lia.
  - cbn [sym2num]. apply lookup_insert_eq.
  - intros x k Hk. cbn [sym2num]. rewrite lookup_insert_ne; [done|congruence].
Qed.

(** The lookup-or-define blocks at the head of [alias]. *)
Lemma try_ensured (sym : string) (d0 d1 : Z) (st : SymbolMapping) :
  try_KeyError (let! n := to_number sym in ret (n, d0))
               (let! n := new_symbol sym in ret (n, d1)) st
  = let '(n, d, st') := ensured sym st in
    (Ok (n, if d =? 0 then d0 else d1), st').
Proof.
  unfold try_KeyError, bind, ensured, ret.
  destruct (sym2num st !! sym) as [n|] eqn:E.
  - by rewrite (to_number_defined _ _ _ E).
  - by rewrite (to_number_undefined _ _ E), (new_symbol_fresh _ _ E).
Qed.

Lemma ensured_count (sym : string) (st st' : SymbolMapping) (n d : Z) :
  ensured sym st = (n, d, st') → d = 0 ∨ d = 1.
Proof.
  unfold ensured. destruct (sym2num st !! sym); intros [= _ <- _]; auto.
Qed.

(** [alias] in one piece: both symbols are looked up or defined, then the
    numbers are compared and, if needed, merged. *)
Lemma alias_unfold (sym1 sym2 : string) (st : SymbolMapping) :
  alias sym1 sym2 st =
    let '(num1, d1, st1) := ensured sym1 st in
    let '(num2, d2, st2) := ensured sym2 st1 in
    if num1 =? num2 then (Ok num1, st2)
    else if d1 + d2 =? 0 then
      (Raise (SystemExit
         ("Unable to alias pre-existing variables " +:+ sym1 +:+ " and " +:+ sym2)),
       st2)
    else
      match num2syms st2 !! Z.min num1 num2 with
      | None => (Raise KeyError, st2)
      | Some into =>
          match num2syms st2 !! Z.max num1 num2 with
          | None => (Raise KeyError, st2)
          | Some from => (Ok (Z.min num1 num2), merged num1 num2 into from st2)
          end
      end.
Proof.
  unfold alias. unfold bind at 1. rewrite try_ensured.
  destruct (ensured sym1 st) as [[num1 d1] st1] eqn:E1. cbv beta iota.
  unfold bind at 1. rewrite try_ensured.
  destruct (ensured sym2 st1) as [[num2 d2] st2] eqn:E2. cbv beta iota.
  destruct (num1 =? num2); [done|].
  destruct (ensured_count _ _ _ _ _ E1) as [-> | ->],
           (ensured_count _ _ _ _ _ E2) as [-> | ->];
    repeat match goal with
           | |- context [?a =? 0] =>
               let v := eval vm_compute in (a =? 0) in
               progress change (a =? 0) with v
           end;
    cbv beta iota; try done;
    cbv [bind get subscript put ret raise merged];
    (destruct (num2syms st2 !! Z.min num1 num2); [|done]);
    by destruct (num2syms st2 !! Z.max num1 num2).
Qed.

(** Merging the sets of two numbers in use: every symbol of either number
    now has the smaller one, every other symbol keeps its number. *)
Lemma merged_spec (st : SymbolMapping) (s1 s2 : string) (num1 num2 : Z)
    (into from : gset string) :
  well_formed st →
  sym2num st !! s1 = Some num1 →
  sym2num st !! s2 = Some num2 →
  num1 ≠ num2 →
  num2syms st !! Z.min num1 num2 = Some into →
  num2syms st !! Z.max num1 num2 = Some from →
  let st' := merged num1 num2 into from st in
  well_formed st'
  ∧ ∀ x k, sym2num st !! x = Some k →
           sym2num st' !! x
           = Some (if decide (k = Z.max num1 num2) then Z.min num1 num2 else k).
Proof.
  intros [Hc Hb] H1 H2 Hne Hinto Hfrom st'.
  set (new := Z.min num1 num2) in *. set (old := Z.max num1 num2) in *.
  assert (new ≠ old) as Hno by (unfold new, old; lia).
  assert (new < next_sym_num st) as Hnew.
  { pose proof (Hb _ _ H1). pose proof (Hb _ _ H2). unfold new. lia. }
  pose proof (consistent_disjoint st Hc) as Hd.
  assert (disjoint_sets (num2syms st')) as Hd'.
  { intros n n' ss ss' s Hn Hn' Hs Hs'. cbn [num2syms st' merged] in Hn, Hn'.
    fold new old in Hn, Hn'.
    apply lookup_delete_Some in Hn as [Hon Hn].
    apply lookup_delete_Some in Hn' as [Hon' Hn'].
    assert (∀ m ms, <[new:=into ∪ from]> (num2syms st) !! m = Some ms → s ∈ ms →
              m ≠ old → sym2num st !! s = Some m ∨ (m = new ∧ sym2num st !! s = Some old))
      as Hcase.
    { intros m ms Hm Hin Hmo. destruct (decide (new = m)) as [<-|Hm'].
      - rewrite lookup_insert_eq in Hm. injection Hm as <-.
        apply elem_of_union in Hin as [Hin|Hin].
        + left. apply Hc. eauto.
        + right. split; [done|]. apply Hc. eauto.
      - rewrite lookup_insert_ne in Hm by done. left. apply Hc. eauto. }
    destruct (Hcase _ _ Hn Hs) as [E|[-> E]]; [done| |];
      (destruct (Hcase _ _ Hn' Hs') as [E'|[-> E']]; [done| |]); congruence. }
  assert (consistent st') as Hc'.
  { intros s n. apply (regenerate_lookup _ Hd'). }
  assert (∀ x k, sym2num st !! x = Some k →
            sym2num st' !! x = Some (if decide (k = old) then new else k)) as Hmove.
  { intros x k Hk. apply Hc'. cbn [num2syms st' merged]. fold new old.
    apply Hc in Hk as (ss & Hss & Hin).
    destruct (decide (k = old)) as [->|Hko].
    - exists (into ∪ from). rewrite lookup_delete_ne, lookup_insert_eq by done.
      split; [done|]. apply elem_of_union. right. congruence.
    - destruct (decide (k = new)) as [->|Hkn].
      + exists (into ∪ from). rewrite lookup_delete_ne, lookup_insert_eq by done.
        split; [done|]. apply elem_of_union. left. congruence.
      + exists ss. by rewrite lookup_delete_ne, lookup_insert_ne by done. }
  split; [split|]; [done | | done].
  intros s n Hn. cbn [next_sym_num st' merged].
  apply Hc' in Hn as (ss & Hss & Hin). cbn [num2syms st' merged] in Hss.
  fold new old in Hss. apply lookup_delete_Some in Hss as [Hon Hss].
  destruct (decide (new = n)) as [<-|Hnn]; [done|].
  rewrite lookup_insert_ne in Hss by done. apply (Hb s). apply Hc. eauto.
Qed.

(** A call of [alias] that returns leaves its two symbols with the same
    number and separates no symbols that shared a number. *)
Lemma alias_returns (sym1 sym2 : string) (st st' : SymbolMapping) (n : Z) :
  well_formed st →
  alias sym1 sym2 st = (Ok n, st') →
  well_formed st'
  ∧ sym2num st' !! sym1 = Some n
  ∧ sym2num st' !! sym2 = Some n
  ∧ ∀ x y, same_number st x y → same_number st' x y.
Proof.
  intros Hwf. rewrite alias_unfold.
  destruct (ensured sym1 st) as [[num1 d1] st1] eqn:E1.
  destruct (ensured sym2 st1) as [[num2 d2] st2] eqn:E2.
  destruct (ensured_spec _ _ _ _ _ Hwf E1) as (Hwf1 & Hs1 & Hkeep1).
  destruct (ensured_spec _ _ _ _ _ Hwf1 E2) as (Hwf2 & Hs2 & Hkeep2).
  apply Hkeep2 in Hs1.
  assert (∀ x y, same_number st x y → same_number st2 x y) as Hsame.
  { intros x y (k & Hx & Hy). exists k. split; by apply Hkeep2, Hkeep1. }
  destruct (Z.eqb_spec num1 num2) as [<-|Hne].
  { intros [= <- <-]. done. }
  destruct (d1 + d2 =? 0); [done|].
  destruct (num2syms st2 !! Z.min num1 num2) as [into|] eqn:Einto; [|done].
  destruct (num2syms st2 !! Z.max num1 num2) as [from|] eqn:Efrom; [|done].
  intros [= <- <-].
  destruct (merged_spec st2 sym1 sym2 num1 num2 into from
              Hwf2 Hs1 Hs2 Hne Einto Efrom) as [Hwf' Hmove].
  split_and!; [done| | |].
  - rewrite (Hmove _ _ Hs1). f_equal. case_decide; lia.
  - rewrite (Hmove _ _ Hs2). f_equal. case_decide; lia.
  - intros x y (k & Hx & Hy)%Hsame. eexists. split; by apply Hmove.
Qed.

Lemma new_symbol_returns (sym : string) (st st' : SymbolMapping) (n : Z) :
  well_formed st →
  new_symbol sym st = (Ok n, st') →
  well_formed st' ∧ ∀ x y, same_number st x y → same_number st' x y.
Proof.
  intros Hwf Hrun. destruct (sym2num st !! sym) as [k|] eqn:E.
  { by rewrite (new_symbol_defined _ _ _ E) in Hrun. }
  rewrite (new_symbol_fresh _ _ E) in Hrun. injection Hrun as <- <-.
  pose proof (ensured_spec sym st) as Hspec. unfold ensured in Hspec.
  rewrite E in Hspec.
  destruct (Hspec _ _ _ Hwf eq_refl) as (Hwf' & _ & Hkeep).
  split; [done|]. intros x y (k & Hx & Hy). exists k. split; by apply Hkeep.
Qed.

(** A sequence of calls that returns keeps the table well formed, keeps
    together what was together and brings together what it aliases. *)
Lemma run_calls_returns (cs : list call) (st st' : SymbolMapping) :
  well_formed st →
  run_calls cs st = (Ok (), st') →
  well_formed st'
  ∧ (∀ x y, same_number st x y → same_number st' x y)
  ∧ ∀ s1 s2, Alias s1 s2 ∈ cs → same_number st' s1 s2.
Proof.
  revert st. induction cs as [|c cs IH]; intros st Hwf.
  - intros [= <-]. split_and!; [done | done |].
    intros s1 s2 Hin. by apply elem_of_nil in Hin.
  - cbn [run_calls]. unfold bind.
    destruct (run_call c st) as [[n|e] st1] eqn:Ec; [|done].
    intros Hrest.
    assert (well_formed st1
            ∧ (∀ x y, same_number st x y → same_number st1 x y)
            ∧ ∀ s1 s2, c = Alias s1 s2 → same_number st1 s1 s2)
      as (Hwf1 & Hkeep1 & Hnow).
    { destruct c as [sym|sym1 sym2]; cbn [run_call] in Ec.
      - destruct (new_symbol_returns _ _ _ _ Hwf Ec). split_and!; [done..|].
        intros ???. discriminate.
      - destruct (alias_returns _ _ _ _ _ Hwf Ec) as (? & ? & ? & ?).
        split_and!; [done..|]. intros s1 s2 [= <- <-]. by exists n. }
    destruct (IH _ Hwf1 Hrest) as (Hwf' & Hkeep & Hall).
    split_and!; [done | by auto |].
    intros s1 s2 [Heq|Hin]%elem_of_cons; [|by apply Hall].
    by apply Hkeep, Hnow.
Qed.

(** C6: after a sequence of [new_symbol] and [alias] calls that all return,
    run on an empty table, any two symbols aliased together, directly or
    through other symbols, are defined and resolve to the same number; and
    [alias("a", "b")] followed by [alias("b", "c")] on the empty table makes
    ["a"], ["b"] and ["c"] the symbols of the number of ["a"]. *)
Theorem aliased_symbols_share_number :
  (∀ cs st s1 s2,
     run_calls cs init = (Ok (), st) →
     aliased cs s1 s2 →
     ∃ n, to_number s1 st = (Ok n, st) ∧ to_number s2 st = (Ok n, st))
  ∧ (let! _ := alias "a" "b" in
     let! _ := alias "b" "c" in
     let! n := to_number "a" in
     to_symbols n) init
    = (Ok ({[ "a"; "b"; "c" ]} : gset string),
       {| sym2num := {[ "a" := 0; "b" := 0; "c" := 0 ]};
          num2syms := {[ 0 := {[ "a"; "b"; "c" ]} ]};
          next_sym_num := 3 |}).
Proof.
  split; [|vm_compute; reflexivity].
  intros cs st s1 s2 Hrun Hal.
  destruct (run_calls_returns cs init st init_well_formed Hrun) as (_ & _ & Hall).
  assert (same_number st s1 s2) as (n & H1 & H2).
  { induction Hal as [s1 s2 Hin|s1 s2 _ (n & ? & ?)|s1 s2 s3 _ (n & ? & ?) _ (k & ? & ?)].
    - by apply Hall.
    - by exists n.
    - exists n. split; [done|]. congruence. }
  exists n. split; by apply to_number_defined.
Qed.

Lemma aliased_symbols_share_number_witness :
  ∃ n, to_number "a" (run_calls [Alias "a" "b"; Define "d"; Alias "c" "b"] init).2
         = (Ok n, (run_calls [Alias "a" "b"; Define "d"; Alias "c" "b"] init).2)
       ∧ to_number "c" (run_calls [Alias "a" "b"; Define "d"; Alias "c" "b"] init).2
         = (Ok n, (run_calls [Alias "a" "b"; Define "d"; Alias "c" "b"] init).2).
Proof.
  apply (proj1 aliased_symbols_share_number
           [Alias "a" "b"; Define "d"; Alias "c" "b"]).
  - vm_compute. reflexivity.
  - apply aliased_trans with "b".
    + apply aliased_call. apply elem_of_cons. by left.
    + apply aliased_sym, aliased_call. do 2 (apply elem_of_cons; right).
      apply elem_of_cons. by left.
Defined.

(** ** Topology inference *)

Module PyDictFacts.
Import PyDict.

Lemma get_None (k : Z) (d : list (Z * Z)) : get k d = None ↔ k ∉ d.*1.
Proof.
  induction d as [|[k' v] d IH]; simpl.
  - split; [intros _; apply not_elem_of_nil | done].
  - destruct (Z.eqb_spec k k') as [->|Hne].
    + split; [done|]. intros H. exfalso. apply H, elem_of_cons. by left.
    + rewrite IH, not_elem_of_cons. tauto.
Qed.

Lemma get_Some_elem (k v : Z) (d : list (Z * Z)) :
  get k d = Some v → (k, v) ∈ d.
Proof.
  induction d as [|[k' v'] d IH]; simpl; [done|].
  destruct (Z.eqb_spec k k') as [->|Hne].
  - intros [= ->]. apply elem_of_cons. by left.
  - intros H. apply elem_of_cons. right. by apply IH.
Qed.

Lemma set_keys (k v x : Z) (d : list (Z * Z)) :
  x ∈ (set k v d).*1 ↔ x = k ∨ x ∈ d.*1.
Proof.
  induction d as [|[k' v'] d IH]; simpl.
  - rewrite elem_of_cons. reflexivity.
  - destruct (Z.eqb_spec k k') as [->|Hne]; simpl;
      rewrite !elem_of_cons, ?IH; tauto.
Qed.

Lemma set_NoDup (k v : Z) (d : list (Z * Z)) :
  NoDup d.*1 → NoDup (set k v d).*1.
Proof.
  induction d as [|[k' v'] d IH]; simpl.
  - intros _. apply NoDup_singleton.
  - intros [Hk Hnd]%NoDup_cons.
    destruct (Z.eqb_spec k k') as [->|Hne]; simpl; apply NoDup_cons.
    + done.
    + split; [|by apply IH]. rewrite set_keys. intros [?|?]; [congruence|done].
Qed.

Lemma set_values (k v : Z) (d : list (Z * Z)) (kc : Z * Z) :
  kc ∈ set k v d → kc = (k, v) ∨ kc ∈ d.
Proof.
  induction d as [|[k' v'] d IH]; simpl.
  - intros ->%list_elem_of_singleton. by left.
  - destruct (Z.eqb_spec k k') as [->|Hne];
      rewrite !elem_of_cons; [tauto|]. intros [?|?%IH]; tauto.
Qed.

End PyDictFacts.

Lemma zero_tallies_snoc (deltas : list Z) (d : Z) :
  zero_tallies (deltas ++ [d]) = PyDict.set d 0 (zero_tallies deltas).
Proof. unfold zero_tallies. by rewrite foldl_snoc. Qed.

(** [{d: 0 for d in deltas}] has every distance as a key, once, with the
    tally 0. *)
Lemma zero_tallies_spec (deltas : list Z) :
  NoDup (zero_tallies deltas).*1
  ∧ (∀ d, d ∈ (zero_tallies deltas).*1 ↔ d ∈ deltas)
  ∧ ∀ kc, kc ∈ zero_tallies deltas → kc.2 = 0.
Proof.
  induction deltas as [|d deltas (Hnd & Hkeys & Hzero)] using rev_ind.
  - split_and!; [apply NoDup_nil_2 | done |].
    intros kc Hin. by apply elem_of_nil in Hin.
  - rewrite zero_tallies_snoc. split_and!.
    + by apply PyDictFacts.set_NoDup.
    + intros x. rewrite PyDictFacts.set_keys, elem_of_app, list_elem_of_singleton, Hkeys.
      tauto.
    + intros kc [->|Hin]%PyDictFacts.set_values; [done | by apply Hzero].
Qed.

Lemma count_nonneg (d : Z) (l : list Z) : 0 ≤ count d l.
Proof. induction l as [|x l IH]; simpl; [done|]. destruct (d =? x); lia. Qed.

Lemma count_pos (d : Z) (l : list Z) : d ∈ l ↔ 0 < count d l.
Proof.
  induction l as [|x l IH]; simpl.
  - split; [by intros ?%elem_of_nil | lia].
  - pose proof (count_nonneg d l). rewrite elem_of_cons, IH.
    destruct (Z.eqb_spec d x); split; try lia; tauto.
Qed.

Lemma bump_entry (ds : list Z) (k c : Z) (tallies : list (Z * Z)) :
  bump ds ((k, c) :: tallies) = (k, c + count k ds) :: bump ds tallies.
Proof. reflexivity. Qed.

Lemma count_singleton (k d : Z) : count k [d] = if k =? d then 1 else 0.
Proof. simpl. lia. Qed.

Lemma bump_keys (ds : list Z) (tallies : list (Z * Z)) :
  (bump ds tallies).*1 = tallies.*1.
Proof.
  induction tallies as [|[k c] t IH]; [done|].
  rewrite bump_entry. cbn [fmap list_fmap fst]. by f_equal.
Qed.

Lemma bump_absent (d : Z) (tallies : list (Z * Z)) :
  d ∉ tallies.*1 → bump [d] tallies = tallies.
Proof.
  induction tallies as [|[k c] t IH]; [done|].
  cbn [fmap list_fmap fst]. intros [Hne Hnin]%not_elem_of_cons.
  rewrite bump_entry, IH, count_singleton by done.
  destruct (Z.eqb_spec k d); [congruence|]. by rewrite Z.add_0_r.
Qed.

(** [delta_tallies[d] += 1] counts one occurrence of [d]. *)
Lemma set_bump (d t : Z) (tallies : list (Z * Z)) :
  NoDup tallies.*1 → PyDict.get d tallies = Some t →
  PyDict.set d (t + 1) tallies = bump [d] tallies.
Proof.
  induction tallies as [|[k c] tallies IH]; [done|].
  cbn [fmap list_fmap fst PyDict.get PyDict.set]. intros [Hk Hnd]%NoDup_cons.
  rewrite bump_entry, count_singleton.
  destruct (Z.eqb_spec d k) as [->|Hne].
  - intros [= ->]. rewrite Z.eqb_refl. by rewrite bump_absent.
  - intros Hget. rewrite <- IH by done.
    destruct (Z.eqb_spec k d); [congruence|]. by rewrite Z.add_0_r.
Qed.

Lemma bump_cons (d : Z) (ds : list Z) (tallies : list (Z * Z)) :
  bump ds (bump [d] tallies) = bump (d :: ds) tallies.
Proof.
  unfold bump. rewrite map_map. apply map_ext. intros [k c]. simpl.
  f_equal. lia.
Qed.

(** The tallying loop counts every distance into its entry and leaves
    [sorted_tallies] as the ranking of the final tallies, unless there was no
    distance at all. *)
Lemma tally_loop_spec (ds : list Z) (tallies : list (Z * Z))
    (ranked : option (list (Z * Z))) :
  NoDup tallies.*1 →
  (∀ d, d ∈ ds → d ∈ tallies.*1) →
  foldl tally_step (Ok (tallies, ranked)) ds
  = Ok (bump ds tallies,
        match ds with
        | [] => ranked
        | _ :: _ => Some (sorted_desc (bump ds tallies))
        end).
Proof.
  revert tallies ranked. induction ds as [|d ds IH]; intros tallies ranked Hnd Hin.
  - simpl. unfold bump. f_equal. f_equal. rewrite <- (map_id tallies) at 1.
    apply map_ext. intros [k c]. simpl. f_equal. lia.
  - cbn [foldl]. unfold tally_step at 2. cbn [rbind].
    destruct (PyDict.get d tallies) as [t|] eqn:E.
    2:{ apply PyDictFacts.get_None in E. exfalso. apply E, Hin, elem_of_cons. by left. }
    rewrite (set_bump _ _ _ Hnd E), IH.
    + rewrite bump_cons. by destruct ds.
    + by rewrite bump_keys.
    + intros x Hx. rewrite bump_keys. apply Hin, elem_of_cons. by right.
Qed.

Lemma insert_desc_perm (x : Z * Z) (l : list (Z * Z)) :
  insert_desc x l ≡ₚ x :: l.
Proof.
  induction l as [|y l IH]; simpl; [done|].
  destruct (x.2 <? y.2); [|done].
  rewrite IH. apply Permutation_swap.
Qed.

Lemma sorted_desc_perm (l : list (Z * Z)) : sorted_desc l ≡ₚ l.
Proof.
  induction l as [|x l IH]; [done|].
  unfold sorted_desc in *. cbn [foldr].
  rewrite insert_desc_perm. by apply Permutation_cons.
Qed.

Lemma insert_desc_descending (x : Z * Z) (l : list (Z * Z)) :
  descending l → descending (insert_desc x l).
Proof.
  unfold descending. induction l as [|y l IH]; simpl.
  - intros _. by repeat constructor.
  - intros Hs. apply StronglySorted_inv in Hs as [Hs Hy].
    destruct (Z.ltb_spec x.2 y.2) as [Hlt|Hge].
    + constructor; [by apply IH|].
      rewrite (insert_desc_perm x l). constructor; [lia | done].
    + constructor; [by constructor|].
      constructor; [done|]. eapply Forall_impl; [exact Hy|].
      intros z Hz. simpl in *. lia.
Qed.

Lemma sorted_desc_descending (l : list (Z * Z)) : descending (sorted_desc l).
Proof.
  induction l as [|x l IH]; [constructor|].
  unfold sorted_desc in *. cbn [foldr]. by apply insert_desc_descending.
Qed.

(** The loop that sets [M], for a positive [L] and for [L = 0]. *)
Lemma find_stride_positive (L : Z) (rest : list (Z * Z)) :
  0 < L →
  find_stride L rest = Ok (stride_columns L rest) ∧ 0 < stride_columns L rest.
Proof.
  intros HL. unfold stride_columns.
  induction rest as [|[d t] rest IH]; cbn [find_stride find fst]; [by split|].
  destruct (Z.gtb_spec d (2 * L)) as [Hgt|Hle]; [|done].
  unfold floordiv. rewrite (proj2 (Z.eqb_neq (2 * L) 0)) by lia.
  cbn [fst]. split; [done|]. apply Z.div_str_pos. lia.
Qed.

Lemma find_stride_zero (rest : list (Z * Z)) :
  find_stride 0 rest = Ok 1 ∨ find_stride 0 rest = Raise ZeroDivisionError.
Proof.
  induction rest as [|[d t] rest IH]; cbn [find_stride]; [by left|].
  change (2 * 0) with 0. destruct (d >? 0); [by right | done].
Qed.

Lemma stride_columns_none (L : Z) (rest : list (Z * Z)) :
  (∀ dt, dt ∈ rest → dt.1 ≤ 2 * L) → stride_columns L rest = 1.
Proof.
  intros Hle. unfold stride_columns.
  induction rest as [|dt rest IH]; cbn [find]; [done|].
  destruct (Z.gtb_spec dt.1 (2 * L)) as [Hgt|_].
  - assert (dt.1 ≤ 2 * L) by (apply Hle, elem_of_cons; by left). lia.
  - apply IH. intros dt' Hin. apply Hle, elem_of_cons. by right.
Qed.

Lemma ceiling_division (a b : Z) :
  0 < b → b * ((a + b - 1) / b - 1) < a ≤ b * ((a + b - 1) / b).
Proof.
  intros Hb. pose proof (Z.div_mod (a + b - 1) b ltac:(lia)) as Hdm.
  pose proof (Z.mod_pos_bound (a + b - 1) b Hb). nia.
Qed.

(** The run of [chimera_topology] on a hardware description that has
    couplers and a nominal number of qubits. *)
Lemma chimera_topology_run (solver : solver_properties) (nominal : Z) :
  couplers solver ≠ [] →
  num_qubits solver = Some nominal →
  let deltas := coupler_deltas (couplers solver) in
  ∃ L t rest,
    (∀ d c, (d, c) ∈ (L, t) :: rest ↔ d ∈ deltas ∧ c = count d deltas)
    ∧ NoDup ((L, t) :: rest).*1
    ∧ descending ((L, t) :: rest)
    ∧ most_frequent deltas L
    ∧ 0 ≤ L
    ∧ (L = 0 → chimera_topology solver = Raise ZeroDivisionError)
    ∧ (L ≠ 0 →
         0 < stride_columns L rest
         ∧ chimera_topology solver
           = Ok (L, stride_columns L rest,
                 (nominal + 2 * L * stride_columns L rest - 1)
                 / (2 * L * stride_columns L rest))).
Proof.
  intros Hcs Hnom deltas.
  destruct (zero_tallies_spec deltas) as (Hnd & Hkeys & Hzero).
  set (tallies := bump deltas (zero_tallies deltas)).
  assert (deltas ≠ []) as Hdeltas.
  { unfold deltas, coupler_deltas. by intros ?%fmap_nil_inv. }
  assert (tally_loop deltas (zero_tallies deltas)
          = Ok (tallies, Some (sorted_desc tallies))) as Hloop.
  { unfold tally_loop. rewrite tally_loop_spec; [|done|by intros d ?%Hkeys].
    by destruct deltas. }
  assert (∀ d c, (d, c) ∈ tallies ↔ d ∈ deltas ∧ c = count d deltas) as Hmem.
  { intros d c. unfold tallies, bump. rewrite list_elem_of_fmap. split.
    - intros ([k v] & [= -> ->] & Hin). cbn [fst snd].
      pose proof (Hzero _ Hin) as Hv. cbn [snd] in Hv. subst v.
      split; [|lia]. apply Hkeys, list_elem_of_fmap. by exists (k, 0).
    - intros [Hd ->]. apply Hkeys, list_elem_of_fmap in Hd as ([k v] & -> & Hin).
      exists (k, v). split; [|done]. cbn [fst snd].
      pose proof (Hzero _ Hin) as Hv. cbn [snd] in Hv. by subst v. }
  pose proof (sorted_desc_perm tallies) as Hperm.
  pose proof (sorted_desc_descending tallies) as Hsorted.
  destruct (sorted_desc tallies) as [|[L t] rest] eqn:Eranked.
  { apply Permutation_nil_l in Hperm. destruct deltas as [|d ds]; [done|].
    assert ((d, count d (d :: ds)) ∈ tallies) as Hin.
    { apply Hmem. split; [apply elem_of_cons; by left | done]. }
    rewrite <- Hperm in Hin. by apply elem_of_nil in Hin. }
  assert (∀ d c, (d, c) ∈ (L, t) :: rest ↔ d ∈ deltas ∧ c = count d deltas)
    as Hranked.
  { intros d c. by rewrite Hperm. }
  assert (most_frequent deltas L ∧ t = count L deltas) as [Hmost Ht].
  { destruct (proj1 (Hranked L t)) as [HL Ht]; [apply elem_of_cons; by left|].
    split; [|done]. split; [done|]. intros d.
    destruct (decide (d ∈ deltas)) as [Hd|Hd].
    - assert ((d, count d deltas) ∈ (L, t) :: rest) as Hin by by apply Hranked.
      apply elem_of_cons in Hin as [[= -> _]|Hin]; [done|].
      apply StronglySorted_inv in Hsorted as [_ Hall].
      rewrite Forall_forall in Hall. apply Hall in Hin. simpl in Hin. lia.
    - assert (count d deltas = 0) as ->.
      { pose proof (count_nonneg d deltas).
        destruct (decide (0 < count d deltas)) as [Hpos%count_pos|]; [done|lia]. }
      apply count_nonneg. }
  assert (0 ≤ L) as HL.
  { destruct Hmost as [Hin _]. unfold deltas, coupler_deltas in Hin.
    apply list_elem_of_fmap in Hin as (c & -> & _). lia. }
  exists L, t, rest. split_and!; [done| |done|done|done| |].
  - rewrite Hperm. unfold tallies. by rewrite bump_keys.
  - intros ->. unfold chimera_topology. rewrite Hnom. fold deltas.
    rewrite Hloop. cbn [rbind].
    destruct (find_stride_zero rest) as [-> | ->]; reflexivity.
  - intros HL0.
    destruct (find_stride_positive L rest ltac:(lia)) as [Hfind Hpos].
    split; [done|].
    unfold chimera_topology. rewrite Hnom. fold deltas.
    rewrite Hloop. cbn [rbind]. rewrite Hfind. cbn [rbind].
    unfold floordiv. rewrite (proj2 (Z.eqb_neq _ 0)) by nia. reflexivity.
Qed.

(** Couplers that join two distinct qubits have distances above 0. *)
Lemma distinct_qubits_positive (cs : list (Z * Z)) (d : Z) :
  (∀ c, c ∈ cs → c.1 ≠ c.2) → d ∈ coupler_deltas cs → 0 < d.
Proof.
  intros Hdistinct Hd. unfold coupler_deltas in Hd.
  apply list_elem_of_fmap in Hd as (c & -> & Hc).
  specialize (Hdistinct c Hc). lia.
Qed.

Lemma one_cell_distinct (c : Z * Z) : c ∈ couplers one_cell → c.1 ≠ c.2.
Proof.
  unfold one_cell. cbn [couplers]. intros Hc.
  repeat (apply elem_of_cons in Hc as [->|Hc]); cbn [fst snd]; try lia.
  by apply elem_of_nil in Hc.
Qed.

(** C4: on a hardware description with at least one coupler, every coupler
    joining two distinct qubits, [chimera_topology] raises [NonChimera] when
    there is no nominal number of qubits and fails in no other case.  With a
    nominal number of qubits the distances, ranked by descending frequency,
    start with a most frequent distance [L], and the function returns
    [(L, M, N)], where [M] is [d // (2 * L)] for the first distance
    [d > 2 * L] in the rest of the ranking, or 1 if there is none, and [N]
    is the ceiling of the nominal number of qubits over [2 * L * M]. *)
Theorem chimera_topology_inference (solver : solver_properties) :
  couplers solver ≠ [] →
  (∀ c, c ∈ couplers solver → c.1 ≠ c.2) →
  let deltas := coupler_deltas (couplers solver) in
  match num_qubits solver with
  | None => chimera_topology solver = Raise NonChimera
  | Some nominal =>
      ∃ L t rest,
        (∀ d c, (d, c) ∈ (L, t) :: rest ↔ d ∈ deltas ∧ c = count d deltas)
        ∧ NoDup ((L, t) :: rest).*1
        ∧ descending ((L, t) :: rest)
        ∧ most_frequent deltas L
        ∧ 0 < L
        ∧ ∃ M N, chimera_topology solver = Ok (L, M, N)
                 ∧ M = stride_columns L rest
                 ∧ 0 < M
                 ∧ 2 * L * M * (N - 1) < nominal ≤ 2 * L * M * N
  end.
Proof.
  intros Hcs Hdistinct deltas.
  destruct (num_qubits solver) as [nominal|] eqn:Hnom.
  2:{ unfold chimera_topology. by rewrite Hnom. }
  destruct (chimera_topology_run solver nominal Hcs Hnom)
    as (L & t & rest & Hranked & Hnd & Hsorted & Hmost & HL & Hzero & Hpos).
  assert (0 < L) as HL0.
  { apply (distinct_qubits_positive (couplers solver)); [done|].
    by destruct Hmost. }
  exists L, t, rest. split_and!; [done..|].
  destruct (Hpos ltac:(lia)) as [HM Hrun].
  eexists _, _. split; [exact Hrun|]. split; [done|]. split; [done|].
  pose proof (ceiling_division nominal (2 * L * stride_columns L rest)
                ltac:(nia)).
  lia.
Qed.

Lemma chimera_topology_inference_witness :
  ∃ L M N, chimera_topology one_cell = Ok (L, M, N)
           ∧ most_frequent (coupler_deltas (couplers one_cell)) L.
Proof.
  destruct (chimera_topology_inference one_cell)
    as (L & t & rest & _ & _ & _ & Hmost & _ & M & N & Hrun & _);
    [discriminate | apply one_cell_distinct |].
  by exists L, M, N.
Defined.

(** C10: on a hardware description with at least one coupler, every coupler
    joining two distinct qubits, and with a nominal number of qubits, in
    which no distance is above twice a most frequent one, [chimera_topology]
    does not fail: it returns [(L, 1, N)] for a most frequent distance [L],
    with [N] the ceiling of the nominal number of qubits over [2 * L]. *)
Theorem chimera_topology_no_stride (solver : solver_properties) (nominal : Z) :
  couplers solver ≠ [] →
  (∀ c, c ∈ couplers solver → c.1 ≠ c.2) →
  num_qubits solver = Some nominal →
  let deltas := coupler_deltas (couplers solver) in
  (∀ L, most_frequent deltas L → ∀ d, d ∈ deltas → d ≤ 2 * L) →
  ∃ L N, most_frequent deltas L
         ∧ chimera_topology solver = Ok (L, 1, N)
         ∧ 2 * L * (N - 1) < nominal ≤ 2 * L * N.
Proof.
  intros Hcs Hdistinct Hnom deltas Hall.
  destruct (chimera_topology_run solver nominal Hcs Hnom)
    as (L & t & rest & Hranked & _ & _ & Hmost & HL & _ & Hpos).
  assert (0 < L) as HL0.
  { apply (distinct_qubits_positive (couplers solver)); [done|].
    by destruct Hmost. }
  pose proof (Hall L Hmost) as Hle.
  destruct (Hpos ltac:(lia)) as [_ Hrun].
  rewrite stride_columns_none in Hrun.
  2:{ intros [d c] Hin. apply Hle.
      apply (Hranked d c), elem_of_cons. by right. }
  eexists L, _. split; [done|]. split; [exact Hrun|].
  pose proof (ceiling_division nominal (2 * L * 1) ltac:(lia)). lia.
Qed.

Lemma chimera_topology_no_stride_witness :
  ∃ L N, most_frequent (coupler_deltas (couplers one_cell)) L
         ∧ chimera_topology one_cell = Ok (L, 1, N)
         ∧ 2 * L * (N - 1) < 4 ≤ 2 * L * N.
Proof.
  apply (chimera_topology_no_stride one_cell 4);
    [discriminate | apply one_cell_distinct | reflexivity |].
  intros L [Hin Hmax]. specialize (Hmax 2).
  change (coupler_deltas (couplers one_cell)) with [2; 3; 1; 2] in *.
  repeat (apply elem_of_cons in Hin as [->|Hin]);
    try (by apply elem_of_nil in Hin);
    try (exfalso; vm_compute in Hmax; by apply Hmax).
  all: intros d Hd; repeat (apply elem_of_cons in Hd as [->|Hd]); try lia.
  all: by apply elem_of_nil in Hd.
Defined.

(** * Further properties *)

(** ** The symbol table as it grows *)

Lemma ensured_cases (sym : string) (st st' : SymbolMapping) (n d : Z) :
  ensured sym st = (n, d, st') →
  (d = 0 ∧ st' = st ∧ sym2num st !! sym = Some n)
  ∨ (d = 1 ∧ sym2num st !! sym = None ∧ n = next_sym_num st
     ∧ next_sym_num st' = next_sym_num st + 1
     ∧ num2syms st' = <[n := {[sym]}]> (num2syms st)).
Proof.
  unfold ensured. destruct (sym2num st !! sym) as [k|] eqn:E;
    intros [= <- <- <-]; [left | right]; done.
Qed.

Lemma ensured_sym2num (sym : string) (st st' : SymbolMapping) (n d : Z) :
  ensured sym st = (n, d, st') → sym2num st' = <[sym := n]> (sym2num st).
Proof.
  unfold ensured. destruct (sym2num st !! sym) as [k|] eqn:E;
    intros [= <- <- <-]; [|done].
  by rewrite insert_id.
Qed.

Lemma ensured_next (sym : string) (st st' : SymbolMapping) (n d : Z) :
  ensured sym st = (n, d, st') → next_sym_num st' = next_sym_num st + d.
Proof.
  intros [(-> & -> & _)|(-> & _ & _ & -> & _)]%ensured_cases; lia.
Qed.

Lemma ensured_populated (sym : string) (st st' : SymbolMapping) (n d : Z) :
  populated st → ensured sym st = (n, d, st') → populated st'.
Proof.
  intros Hp [(_ & -> & _)|(_ & _ & _ & _ & Hn2s)]%ensured_cases; [done|].
  intros k ss. rewrite Hn2s. destruct (decide (n = k)) as [->|Hk].
  - rewrite lookup_insert_eq. intros [= <-] Hempty.
    apply (not_elem_of_empty (C := gset string) sym). rewrite <- Hempty.
    by apply elem_of_singleton.
  - rewrite lookup_insert_ne by done. apply Hp.
Qed.

Lemma ensured_from_zero (sym : string) (st st' : SymbolMapping) (n d : Z) :
  from_zero st → ensured sym st = (n, d, st') → from_zero st'.
Proof.
  intros [Hnext Hnums] He. pose proof (ensured_sym2num _ _ _ _ _ He) as Hs2n.
  apply ensured_cases in He as [(_ & -> & _)|(_ & _ & -> & Hn & _)]; [done|].
  split; [lia|]. intros s k. rewrite Hs2n.
  destruct (decide (sym = s)) as [->|Hs].
  - rewrite lookup_insert_eq. by intros [= <-].
  - rewrite lookup_insert_ne by done. apply Hnums.
Qed.

(** A symbol has a number after a merge only if it had one before. *)
Lemma merged_defined_before (st : SymbolMapping) (num1 num2 : Z)
    (into from : gset string) (x : string) (k : Z) :
  consistent st →
  consistent (merged num1 num2 into from st) →
  num2syms st !! Z.min num1 num2 = Some into →
  num2syms st !! Z.max num1 num2 = Some from →
  sym2num (merged num1 num2 into from st) !! x = Some k →
  is_Some (sym2num st !! x).
Proof.
  intros Hc Hc' Hinto Hfrom Hk.
  apply Hc' in Hk as (ss & Hss & Hin). cbn [num2syms merged] in Hss.
  apply lookup_delete_Some in Hss as [Hko Hss].
  destruct (decide (Z.min num1 num2 = k)) as [<-|Hkn].
  - rewrite lookup_insert_eq in Hss. injection Hss as <-.
    apply elem_of_union in Hin as [Hin|Hin].
    + exists (Z.min num1 num2). apply Hc. eauto.
    + exists (Z.max num1 num2). apply Hc. eauto.
  - rewrite lookup_insert_ne in Hss by done. exists k. apply Hc. eauto.
Qed.

Lemma merged_populated (st : SymbolMapping) (num1 num2 : Z)
    (into from : gset string) :
  populated st →
  num2syms st !! Z.min num1 num2 = Some into →
  populated (merged num1 num2 into from st).
Proof.
  intros Hp Hinto k ss. cbn [num2syms merged].
  intros [Hko Hss]%lookup_delete_Some.
  destruct (decide (Z.min num1 num2 = k)) as [<-|Hkn].
  - rewrite lookup_insert_eq in Hss. injection Hss as <-.
    pose proof (Hp _ _ Hinto) as Hne. intros Hempty. apply Hne.
    apply leibniz_equiv. apply equiv_empty. intros s Hs.
    rewrite <- Hempty. apply elem_of_union. by left.
  - rewrite lookup_insert_ne in Hss by done. by eapply Hp.
Qed.

(** What a call of [alias] that returns has done to a well-formed table. *)
Lemma alias_result (sym1 sym2 : string) (st st' : SymbolMapping) (n : Z) :
  well_formed st →
  alias sym1 sym2 st = (Ok n, st') →
  n = alias_number sym1 sym2 st
  ∧ sym2num st' = <[sym1 := n]> (<[sym2 := n]> (sym2num st))
  ∧ well_formed st'
  ∧ next_sym_num st' = next_sym_num st + alias_new_defs sym1 sym2 st
  ∧ (∀ n1 n2, sym2num st !! sym1 = Some n1 → sym2num st !! sym2 = Some n2 →
              n1 = n2)
  ∧ (populated st → populated st').
Proof.
  intros Hwf. rewrite alias_unfold.
  destruct (ensured sym1 st) as [[num1 d1] st1] eqn:E1.
  destruct (ensured sym2 st1) as [[num2 d2] st2] eqn:E2.
  destruct (ensured_spec _ _ _ _ _ Hwf E1) as (Hwf1 & Hs1 & Hkeep1).
  destruct (ensured_spec _ _ _ _ _ Hwf1 E2) as (Hwf2 & Hs2 & Hkeep2).
  pose proof (ensured_sym2num _ _ _ _ _ E1) as Hmap1.
  pose proof (ensured_sym2num _ _ _ _ _ E2) as Hmap2.
  pose proof (ensured_next _ _ _ _ _ E1) as Hnext1.
  pose proof (ensured_next _ _ _ _ _ E2) as Hnext2.
  pose proof (Hkeep2 _ _ Hs1) as Hs1'.
  destruct Hwf as [Hc Hb]. destruct Hwf1 as [Hc1 Hb1].
  assert (Hfacts :
    (d1 = 0 ∧ d2 = 0 ∧ sym2num st !! sym1 = Some num1
       ∧ sym2num st !! sym2 = Some num2)
    ∨ (d1 = 0 ∧ d2 = 1 ∧ sym2num st !! sym1 = Some num1
       ∧ sym2num st !! sym2 = None ∧ num2 = next_sym_num st)
    ∨ (d1 = 1 ∧ d2 = 0 ∧ sym2num st !! sym1 = None ∧ num1 = next_sym_num st
       ∧ ((sym1 = sym2 ∧ num2 = num1)
          ∨ (sym1 ≠ sym2 ∧ sym2num st !! sym2 = Some num2)))
    ∨ (d1 = 1 ∧ d2 = 1 ∧ sym2num st !! sym1 = None ∧ sym2num st !! sym2 = None
       ∧ sym1 ≠ sym2 ∧ num1 = next_sym_num st ∧ num2 = next_sym_num st + 1)).
  { apply ensured_cases in E1 as [(-> & -> & H1)|(-> & H1 & -> & Hn1 & _)];
      apply ensured_cases in E2 as [(-> & -> & H2)|(-> & H2 & -> & Hn2 & _)].
    - left. done.
    - right. left. done.
    - right. right. left. split_and!; [done..|].
      rewrite Hmap1 in H2. destruct (decide (sym1 = sym2)) as [<-|Hne].
      + rewrite lookup_insert_eq in H2. injection H2 as <-. by left.
      + rewrite lookup_insert_ne in H2 by done. by right.
    - right. right. right. rewrite Hmap1 in H2.
      destruct (decide (sym1 = sym2)) as [<-|Hne].
      + by rewrite lookup_insert_eq in H2.
      + rewrite lookup_insert_ne in H2 by done. split_and!; [done..|lia]. }
  assert (Hget : ∀ x, x ≠ sym1 → x ≠ sym2 →
                      sym2num st2 !! x = sym2num st !! x).
  { intros x Hx1 Hx2. by rewrite Hmap2, Hmap1, !lookup_insert_ne. }
  assert (Hcount : d1 + d2 = alias_new_defs sym1 sym2 st).
  { unfold alias_new_defs.
    destruct Hfacts as [(-> & -> & H1 & H2)|[(-> & -> & H1 & H2 & Hn)
      |[(-> & -> & H1 & Hn & [[Hs Hn2]|[Hs H2]])
       |(-> & -> & H1 & H2 & Hs & Hn1 & Hn2)]]].
    - by rewrite H1, H2.
    - by rewrite H1, H2.
    - subst sym2. rewrite H1. by rewrite decide_True.
    - by rewrite H1, H2.
    - rewrite H1, H2. by rewrite decide_False. }
  assert (Hnum : (d1 + d2 = 0 → num1 = alias_number sym1 sym2 st)
                 ∧ (d1 + d2 ≠ 0 → Z.min num1 num2 = alias_number sym1 sym2 st)).
  { unfold alias_number.
    destruct Hfacts as [(-> & -> & H1 & H2)|[(-> & -> & H1 & H2 & Hn)
      |[(-> & -> & H1 & Hn & [[Hs Hn2]|[Hs H2]])
       |(-> & -> & H1 & H2 & Hs & Hn1 & Hn2)]]].
    - rewrite H1. split; [done | lia].
    - rewrite H1. apply Hb in H1. split; [lia|]. intros _. lia.
    - subst sym2. rewrite H1. split; [lia|]. intros _. lia.
    - rewrite H1, H2. apply Hb in H2. split; [lia|]. intros _. lia.
    - rewrite H1, H2. split; [lia|]. intros _. lia. }
  assert (Hold : d1 + d2 ≠ 0 → next_sym_num st ≤ Z.max num1 num2).
  { destruct Hfacts as [(-> & -> & H1 & H2)|[(-> & -> & H1 & H2 & Hn)
      |[(-> & -> & H1 & Hn & _)|(-> & -> & H1 & H2 & Hs & Hn1 & Hn2)]]]; lia. }
  assert (Hcompat : num1 = num2 ∨ d1 + d2 ≠ 0 →
            ∀ n1 n2, sym2num st !! sym1 = Some n1 →
                     sym2num st !! sym2 = Some n2 → n1 = n2).
  { intros Hor n1 n2 H1 H2.
    pose proof (Hkeep2 _ _ (Hkeep1 _ _ H1)) as H1'.
    pose proof (Hkeep2 _ _ (Hkeep1 _ _ H2)) as H2'.
    destruct Hor as [Heq|Hd]; [congruence|].
    destruct Hfacts as [(-> & -> & _)|[(_ & _ & _ & ? & _)
      |[(_ & _ & ? & _)|(_ & _ & ? & _)]]]; [done | congruence..]. }
  assert (Hpop : populated st → populated st2).
  { intros Hp. eapply ensured_populated; [|exact E2].
    eapply ensured_populated; [exact Hp | exact E1]. }
  destruct (Z.eqb_spec num1 num2) as [Heq|Hne].
  { intros [= <- <-]. subst num2. split_and!.
    - destruct (decide (d1 + d2 = 0)) as [Hd|Hd]; [by apply Hnum|].
      rewrite <- (proj2 Hnum Hd). lia.
    - rewrite Hmap2, Hmap1. destruct (decide (sym1 = sym2)) as [<-|Hs].
      + done.
      + by apply insert_insert_ne.
    - done.
    - rewrite Hnext2, Hnext1. lia.
    - apply Hcompat. by left.
    - done. }
  destruct (Z.eqb_spec (d1 + d2) 0) as [Hd|Hd]; [done|].
  destruct (num2syms st2 !! Z.min num1 num2) as [into|] eqn:Einto; [|done].
  destruct (num2syms st2 !! Z.max num1 num2) as [from|] eqn:Efrom; [|done].
  intros [= <- <-].
  destruct (merged_spec st2 sym1 sym2 num1 num2 into from
              Hwf2 Hs1' Hs2 Hne Einto Efrom) as [Hwf' Hmove].
  specialize (Hold Hd).
  split_and!.
  - by apply Hnum.
  - apply map_eq. intros x.
    destruct (sym2num st2 !! x) as [k|] eqn:Ex.
    + rewrite (Hmove _ _ Ex).
      destruct (decide (sym1 = x)) as [<-|Hx1].
      { rewrite lookup_insert_eq. f_equal.
        assert (k = num1) as -> by congruence. case_decide; lia. }
      rewrite lookup_insert_ne by done.
      destruct (decide (sym2 = x)) as [<-|Hx2].
      { rewrite lookup_insert_eq. f_equal.
        assert (k = num2) as -> by congruence. case_decide; lia. }
      rewrite lookup_insert_ne by done.
      rewrite Hget in Ex by done. rewrite Ex. f_equal.
      apply Hb in Ex. case_decide; [lia | done].
    + assert (x ≠ sym1) as Hx1 by (intros ->; congruence).
      assert (x ≠ sym2) as Hx2 by (intros ->; congruence).
      rewrite !lookup_insert_ne by done. rewrite <- Hget, Ex by done.
      destruct (sym2num (merged num1 num2 into from st2) !! x) as [k|] eqn:Ek;
        [|done].
      destruct (merged_defined_before st2 num1 num2 into from x k
                  (proj1 Hwf2) (proj1 Hwf') Einto Efrom Ek) as [k' Hk'].
      congruence.
  - done.
  - cbn [next_sym_num merged]. rewrite Hnext2, Hnext1. lia.
  - apply Hcompat. by right.
  - intros Hp. apply merged_populated; [by apply Hpop | done].
Qed.

(** [alias] returns unless its symbols have two different numbers. *)
Lemma alias_runs (sym1 sym2 : string) (st : SymbolMapping) :
  well_formed st →
  (∀ n1 n2, sym2num st !! sym1 = Some n1 → sym2num st !! sym2 = Some n2 →
            n1 = n2) →
  ∃ n st', alias sym1 sym2 st = (Ok n, st').
Proof.
  intros Hwf Hcompat. rewrite alias_unfold.
  destruct (ensured sym1 st) as [[num1 d1] st1] eqn:E1.
  destruct (ensured sym2 st1) as [[num2 d2] st2] eqn:E2.
  destruct (ensured_spec _ _ _ _ _ Hwf E1) as (Hwf1 & Hs1 & Hkeep1).
  destruct (ensured_spec _ _ _ _ _ Hwf1 E2) as (Hwf2 & Hs2 & Hkeep2).
  apply Hkeep2 in Hs1.
  destruct (Z.eqb_spec num1 num2) as [Heq|Hne]; [by eauto|].
  destruct (Z.eqb_spec (d1 + d2) 0) as [Hd|Hd].
  { exfalso. apply Hne.
    apply ensured_cases in E1 as [(-> & -> & H1)|(-> & _)];
      apply ensured_cases in E2 as [(-> & -> & H2)|(-> & _)]; try lia.
    by apply Hcompat. }
  destruct (proj1 (proj1 Hwf2 _ _) Hs1) as (ss1 & Hss1 & _).
  destruct (proj1 (proj1 Hwf2 _ _) Hs2) as (ss2 & Hss2 & _).
  destruct (Z.min_spec num1 num2) as [[_ ->]|[_ ->]];
    destruct (Z.max_spec num1 num2) as [[_ ->]|[_ ->]];
    rewrite ?Hss1, ?Hss2; eauto.
Qed.

Lemma alias_from_zero (sym1 sym2 : string) (st st' : SymbolMapping) (n : Z) :
  well_formed st → from_zero st →
  alias sym1 sym2 st = (Ok n, st') → from_zero st'.
Proof.
  intros Hwf [Hnext Hnums] Hrun.
  destruct (alias_result _ _ _ _ _ Hwf Hrun) as (Hn & Hmap & _ & Hnx & _).
  assert (0 ≤ n) as Hn0.
  { rewrite Hn. unfold alias_number.
    destruct (sym2num st !! sym1) as [n1|] eqn:E1; [by eapply Hnums|].
    destruct (sym2num st !! sym2) as [n2|] eqn:E2; [by eapply Hnums | done]. }
  split.
  - rewrite Hnx. unfold alias_new_defs. repeat case_match; lia.
  - intros s k. rewrite Hmap.
    destruct (decide (sym1 = s)) as [->|H1].
    { rewrite lookup_insert_eq. by intros [= <-]. }
    rewrite lookup_insert_ne by done.
    destruct (decide (sym2 = s)) as [->|H2].
    { rewrite lookup_insert_eq. by intros [= <-]. }
    rewrite lookup_insert_ne by done. apply Hnums.
Qed.

Lemma new_symbol_ensured (sym : string) (st st' : SymbolMapping) (n : Z) :
  new_symbol sym st = (Ok n, st') → ensured sym st = (n, 1, st').
Proof.
  intros Hrun. unfold ensured. destruct (sym2num st !! sym) as [k|] eqn:E.
  - by rewrite (new_symbol_defined _ _ _ E) in Hrun.
  - rewrite (new_symbol_fresh _ _ E) in Hrun. by injection Hrun as <- <-.
Qed.

(** The table built by a sequence of calls that all return. *)
Lemma run_calls_table (cs : list call) (st st' : SymbolMapping) :
  well_formed st → populated st → from_zero st →
  run_calls cs st = (Ok (), st') →
  well_formed st' ∧ populated st' ∧ from_zero st'.
Proof.
  revert st. induction cs as [|c cs IH]; intros st Hwf Hp Hz.
  - by intros [= <-].
  - cbn [run_calls]. unfold bind.
    destruct (run_call c st) as [[n|e] st1] eqn:Ec; [|done].
    intros Hrest. apply (IH st1); [| | |done];
      destruct c as [sym|sym1 sym2]; cbn [run_call] in Ec.
    + by destruct (new_symbol_returns _ _ _ _ Hwf Ec).
    + by destruct (alias_result _ _ _ _ _ Hwf Ec) as (_ & _ & ? & _).
    + eapply ensured_populated; [exact Hp | by apply new_symbol_ensured].
    + destruct (alias_result _ _ _ _ _ Hwf Ec) as (_ & _ & _ & _ & _ & Hpop).
      by apply Hpop.
    + eapply ensured_from_zero; [exact Hz | by apply new_symbol_ensured].
    + by eapply alias_from_zero.
Qed.

(** X1: [new_symbol] on an undefined symbol returns [next_sym_num], after
    which [to_number] of the symbol is that number, [to_symbols] of the number
    is the symbol alone, [max_number] is the number, and [to_number] of every
    other symbol is as before; on a defined symbol it raises and leaves the
    table as it was. *)
Theorem new_symbol_round_trip (sym : string) (st : SymbolMapping) :
  (sym2num st !! sym = None →
   ∃ st', new_symbol sym st = (Ok (next_sym_num st), st')
          ∧ to_number sym st' = (Ok (next_sym_num st), st')
          ∧ to_symbols (next_sym_num st) st' = (Ok {[ sym ]}, st')
          ∧ max_number st' = (Ok (next_sym_num st), st')
          ∧ ∀ s, s ≠ sym → (to_number s st').1 = (to_number s st).1)
  ∧ (is_Some (sym2num st !! sym) →
     ∃ msg, new_symbol sym st = (Raise (InternalError msg), st)).
Proof.
  split.
  - intros Hnone. eexists. split; [by apply new_symbol_fresh|].
    split_and!.
    + apply to_number_defined. cbn [sym2num]. apply lookup_insert_eq.
    + unfold to_symbols, bind, get, subscript. cbn [num2syms].
      by rewrite lookup_insert_eq.
    + unfold max_number, bind, get, ret. cbn [next_sym_num]. do 2 f_equal. lia.
    + intros s Hs. unfold to_number, bind, get, subscript. cbn [sym2num].
      rewrite lookup_insert_ne by done. by destruct (sym2num st !! s).
  - intros [n Hn]. eexists. by apply (new_symbol_defined _ _ n).
Qed.

Lemma new_symbol_round_trip_witness :
  ∃ st', new_symbol "c" two_symbols = (Ok 2, st')
         ∧ to_number "c" st' = (Ok 2, st')
         ∧ to_symbols 2 st' = (Ok {[ "c" ]}, st').
Proof.
  destruct (proj1 (new_symbol_round_trip "c" two_symbols) eq_refl)
    as (st' & H1 & H2 & H3 & _).
  by exists st'.
Defined.

(** X2: in the table built from the empty one by [new_symbol] and [alias]
    calls that all return, every number of [all_numbers] lies between 0 and
    [max_number] and has a non-empty set of symbols, each of which
    [to_number] maps back to it; and every symbol of [all_symbols] has a
    number, which is in [all_numbers] and has the symbol in its set. *)
Theorem built_table_invariant (cs : list call) (st : SymbolMapping) :
  run_calls cs init = (Ok (), st) →
  ∃ numbers symbols largest,
    all_numbers st = (Ok numbers, st)
    ∧ all_symbols st = (Ok symbols, st)
    ∧ max_number st = (Ok largest, st)
    ∧ (∀ n, n ∈ numbers →
         0 ≤ n ≤ largest
         ∧ ∃ ss, to_symbols n st = (Ok ss, st) ∧ ss ≠ ∅
                 ∧ ∀ s, s ∈ ss → s ∈ symbols ∧ to_number s st = (Ok n, st))
    ∧ (∀ s, s ∈ symbols →
         ∃ n ss, to_number s st = (Ok n, st) ∧ n ∈ numbers
                 ∧ to_symbols n st = (Ok ss, st) ∧ s ∈ ss).
Proof.
  intros Hrun.
  destruct (run_calls_table cs init st init_well_formed) as ([Hc Hb] & Hp & Hz);
    [| |done|].
  { intros n ss. cbn. by rewrite lookup_empty. }
  { split; [done|]. intros s n. cbn. by rewrite lookup_empty. }
  eexists _, _, _. split_and!; [reflexivity..| |].
  - intros n [ss Hss]%elem_of_dom.
    pose proof (Hp _ _ Hss) as Hne.
    assert (∃ s, s ∈ ss) as [s Hs].
    { apply set_choose_L. done. }
    assert (sym2num st !! s = Some n) as Hs' by (apply Hc; eauto).
    split.
    + pose proof (Hb _ _ Hs'). pose proof (proj2 Hz _ _ Hs'). lia.
    + exists ss. split_and!; [|done|].
      * unfold to_symbols, bind, get, subscript. by rewrite Hss.
      * intros s' Hin. assert (sym2num st !! s' = Some n) as E by (apply Hc; eauto).
        split; [apply elem_of_dom; eauto | by apply to_number_defined].
  - intros s [n Hn]%elem_of_dom.
    destruct (proj1 (Hc _ _) Hn) as (ss & Hss & Hin).
    exists n, ss. split_and!; [by apply to_number_defined | | |done].
    + apply elem_of_dom. eauto.
    + unfold to_symbols, bind, get, subscript. by rewrite Hss.
Qed.

Lemma built_table_invariant_witness :
  ∃ numbers symbols largest,
    all_numbers (run_calls [Alias "a" "b"; Define "d"] init).2
      = (Ok numbers, (run_calls [Alias "a" "b"; Define "d"] init).2)
    ∧ all_symbols (run_calls [Alias "a" "b"; Define "d"] init).2
      = (Ok symbols, (run_calls [Alias "a" "b"; Define "d"] init).2)
    ∧ max_number (run_calls [Alias "a" "b"; Define "d"] init).2
      = (Ok largest, (run_calls [Alias "a" "b"; Define "d"] init).2).
Proof.
  destruct (built_table_invariant [Alias "a" "b"; Define "d"]
              (run_calls [Alias "a" "b"; Define "d"] init).2)
    as (numbers & symbols & largest & H1 & H2 & H3 & _).
  - vm_compute. reflexivity.
  - by exists numbers, symbols, largest.
Defined.

Lemma init_populated : populated init.
Proof. intros n ss. cbn. by rewrite lookup_empty. Qed.

Lemma init_from_zero : from_zero init.
Proof. split; [done|]. intros s n. cbn. by rewrite lookup_empty. Qed.

Lemma two_symbols_well_formed : well_formed two_symbols.
Proof.
  apply (run_calls_table [Define "a"; Define "b"] init two_symbols
           init_well_formed init_populated init_from_zero).
  vm_compute. reflexivity.
Qed.

(** X3: a call of [alias] that returns on a well-formed table leaves every
    symbol defined before with the number it had, and moves [next_sym_num]
    up by at most 2, never down: a number once given to a symbol is not
    handed out again. *)
Theorem alias_keeps_numbers
    (sym1 sym2 : string) (st st' : SymbolMapping) (n : Z) :
  well_formed st →
  alias sym1 sym2 st = (Ok n, st') →
  (∀ x k, sym2num st !! x = Some k → sym2num st' !! x = Some k)
  ∧ next_sym_num st ≤ next_sym_num st' ≤ next_sym_num st + 2.
Proof.
  intros Hwf Hrun.
  destruct (alias_result _ _ _ _ _ Hwf Hrun) as (Hn & Hmap & _ & Hnext & Hcompat & _).
  split.
  - intros x k Hk. rewrite Hmap.
    destruct (decide (sym1 = x)) as [<-|H1].
    { rewrite lookup_insert_eq, Hn. unfold alias_number. by rewrite Hk. }
    rewrite lookup_insert_ne by done.
    destruct (decide (sym2 = x)) as [<-|H2]; [|by rewrite lookup_insert_ne].
    rewrite lookup_insert_eq, Hn. unfold alias_number. rewrite Hk.
    destruct (sym2num st !! sym1) as [n1|] eqn:E1; [|done].
    f_equal. by apply Hcompat.
  - rewrite Hnext. unfold alias_new_defs. repeat case_match; lia.
Qed.

Lemma alias_keeps_numbers_witness :
  sym2num (alias "b" "c" two_symbols).2 !! "a" = Some 0
  ∧ next_sym_num two_symbols
    ≤ next_sym_num (alias "b" "c" two_symbols).2
    ≤ next_sym_num two_symbols + 2.
Proof.
  destruct (alias_keeps_numbers "b" "c" two_symbols
              (alias "b" "c" two_symbols).2 1 two_symbols_well_formed)
    as [Hkeep Hnext].
  - vm_compute. reflexivity.
  - split; [by apply Hkeep | exact Hnext].
Defined.

(** X4: on a well-formed table, [alias] returns whenever its two symbols do
    not already have two different numbers.  It returns the number of the
    first symbol if that is defined, else that of the second, else
    [next_sym_num]; afterwards [sym2num] is the old one with both symbols set
    to that number, the set of symbols of that number holds both, the table
    is well formed, and [next_sym_num] has grown by the number of symbols
    that had to be defined. *)
Theorem alias_defines_both (sym1 sym2 : string) (st : SymbolMapping) :
  well_formed st →
  (∀ n1 n2, sym2num st !! sym1 = Some n1 → sym2num st !! sym2 = Some n2 →
            n1 = n2) →
  ∃ st' ss,
    alias sym1 sym2 st = (Ok (alias_number sym1 sym2 st), st')
    ∧ sym2num st'
      = <[sym1 := alias_number sym1 sym2 st]>
          (<[sym2 := alias_number sym1 sym2 st]> (sym2num st))
    ∧ to_symbols (alias_number sym1 sym2 st) st' = (Ok ss, st')
    ∧ sym1 ∈ ss ∧ sym2 ∈ ss
    ∧ well_formed st'
    ∧ next_sym_num st' = next_sym_num st + alias_new_defs sym1 sym2 st.
Proof.
  intros Hwf Hcompat.
  destruct (alias_runs sym1 sym2 st Hwf Hcompat) as (n & st' & Hrun).
  destruct (alias_result _ _ _ _ _ Hwf Hrun) as (Hn & Hmap & Hwf' & Hnext & _).
  subst n.
  assert (sym2num st' !! sym1 = Some (alias_number sym1 sym2 st)) as H1.
  { rewrite Hmap. apply lookup_insert_eq. }
  assert (sym2num st' !! sym2 = Some (alias_number sym1 sym2 st)) as H2.
  { rewrite Hmap. destruct (decide (sym1 = sym2)) as [->|Hne].
    - apply lookup_insert_eq.
    - rewrite lookup_insert_ne by done. apply lookup_insert_eq. }
  destruct (proj1 (proj1 Hwf' _ _) H1) as (ss & Hss & Hin1).
  destruct (proj1 (proj1 Hwf' _ _) H2) as (ss' & Hss' & Hin2).
  assert (ss' = ss) as -> by congruence.
  exists st', ss. split_and!; [done | done | | done..].
  unfold to_symbols, bind, get, subscript. by rewrite Hss.
Qed.

Lemma alias_defines_both_witness :
  ∃ st' ss, alias "x" "y" init = (Ok 0, st')
            ∧ to_symbols 0 st' = (Ok ss, st') ∧ "x" ∈ ss ∧ "y" ∈ ss
            ∧ next_sym_num st' = 2.
Proof.
  destruct (alias_defines_both "x" "y" init init_well_formed)
    as (st' & ss & Hrun & _ & Hss & H1 & H2 & _ & Hnext).
  - intros n1 n2 H. cbn in H. by rewrite lookup_empty in H.
  - exists st', ss. split_and!; done.
Defined.

(** X5: on a well-formed table the order of the two symbols makes no
    difference to a call of [alias] that returns: the call with the symbols
    exchanged returns the same number and leaves the same [sym2num] and the
    same [next_sym_num]. *)
Theorem alias_symmetric (sym1 sym2 : string) (st st1 : SymbolMapping) (n : Z) :
  well_formed st →
  alias sym1 sym2 st = (Ok n, st1) →
  ∃ st2, alias sym2 sym1 st = (Ok n, st2)
         ∧ sym2num st2 = sym2num st1
         ∧ next_sym_num st2 = next_sym_num st1.
Proof.
  intros Hwf Hrun.
  destruct (alias_result _ _ _ _ _ Hwf Hrun) as (Hn & Hmap & _ & Hnext & Hcompat & _).
  destruct (alias_runs sym2 sym1 st Hwf) as (n' & st2 & Hrun').
  { intros n1 n2 H1 H2. symmetry. by apply Hcompat. }
  destruct (alias_result _ _ _ _ _ Hwf Hrun') as (Hn' & Hmap' & _ & Hnext' & _).
  assert (n' = n) as ->.
  { rewrite Hn, Hn'. unfold alias_number.
    destruct (sym2num st !! sym1) as [n1|] eqn:E1,
             (sym2num st !! sym2) as [n2|] eqn:E2; try done.
    f_equal. symmetry. by apply Hcompat. }
  exists st2. split_and!; [done | |].
  - rewrite Hmap, Hmap'. destruct (decide (sym1 = sym2)) as [->|Hne]; [done|].
    by apply insert_insert_ne.
  - rewrite Hnext, Hnext'. f_equal. unfold alias_new_defs.
    destruct (sym2num st !! sym1), (sym2num st !! sym2); try done.
    repeat case_decide; congruence.
Qed.

Lemma alias_symmetric_witness :
  ∃ st2, alias "c" "b" two_symbols = (Ok 1, st2)
         ∧ sym2num st2 = sym2num (alias "b" "c" two_symbols).2.
Proof.
  destruct (alias_symmetric "b" "c" two_symbols (alias "b" "c" two_symbols).2 1)
    as (st2 & Hrun & Hmap & _).
  - exact two_symbols_well_formed.
  - vm_compute. reflexivity.
  - by exists st2.
Defined.

(** X6: once [alias] has returned on a well-formed table, the same call on
    the table it left returns the same number and changes nothing. *)
Theorem alias_idempotent (sym1 sym2 : string) (st st' : SymbolMapping) (n : Z) :
  well_formed st →
  alias sym1 sym2 st = (Ok n, st') →
  alias sym1 sym2 st' = (Ok n, st').
Proof.
  intros Hwf Hrun.
  destruct (alias_result _ _ _ _ _ Hwf Hrun) as (_ & Hmap & _).
  assert (sym2num st' !! sym1 = Some n) as H1.
  { rewrite Hmap. apply lookup_insert_eq. }
  assert (sym2num st' !! sym2 = Some n) as H2.
  { rewrite Hmap. destruct (decide (sym1 = sym2)) as [->|Hne].
    - apply lookup_insert_eq.
    - rewrite lookup_insert_ne by done. apply lookup_insert_eq. }
  rewrite alias_unfold. unfold ensured. rewrite H1, H2.
  by rewrite Z.eqb_refl.
Qed.

Lemma alias_idempotent_witness :
  alias "x" "y" (alias "x" "y" init).2 = (Ok 0, (alias "x" "y" init).2).
Proof.
  apply (alias_idempotent "x" "y" init _ 0 init_well_formed).
  vm_compute. reflexivity.
Defined.

(** ** Rebuilding and renaming *)

Lemma add_symbol_populated (s2n : gmap string Z) (n : Z) (ss : gset string) :
  map_fold add_symbol ∅ s2n !! n = Some ss → ss ≠ ∅.
Proof.
  revert n ss.
  apply (map_fold_weak_ind
    (λ (r : gmap Z (gset string)) (m : gmap string Z),
       ∀ n ss, r !! n = Some ss → ss ≠ ∅)).
  - intros n ss. by rewrite lookup_empty.
  - intros s0 n0 m r _ IH n ss. unfold add_symbol.
    assert (∀ X : gset string, X ∪ {[s0]} ≠ ∅) as Hne.
    { intros X Hempty. apply (not_elem_of_empty (C := gset string) s0).
      rewrite <- Hempty. apply elem_of_union. right. by apply elem_of_singleton. }
    assert (({[s0]} : gset string) ≠ ∅) as Hne'.
    { intros Hempty. apply (not_elem_of_empty (C := gset string) s0).
      rewrite <- Hempty. by apply elem_of_singleton. }
    destruct (r !! n0) as [ss0|] eqn:E;
      (destruct (decide (n0 = n)) as [<-|Hn];
       [rewrite lookup_insert_eq; intros [= <-]; done
       |rewrite lookup_insert_ne by done; apply IH]).
Qed.

(** X7: whatever the table held, [overwrite_with(sym2num)] leaves a table
    whose [sym2num] is the given map and whose [num2syms] is its inverse,
    with no empty set of symbols; rebuilding [sym2num] from that [num2syms],
    as [alias] does, gives the given map back; [next_sym_num] is 0 for an
    empty map and otherwise one more than the largest number in use. *)
Theorem overwrite_with_rebuilds (s2n : gmap string Z) (st : SymbolMapping) :
  ∃ st',
    overwrite_with s2n st = (Ok (), st')
    ∧ sym2num st' = s2n
    ∧ well_formed st'
    ∧ populated st'
    ∧ regenerate (num2syms st') = s2n
    ∧ (s2n = ∅ → next_sym_num st' = 0)
    ∧ (s2n ≠ ∅ → ∃ s, s2n !! s = Some (next_sym_num st' - 1)).
Proof.
  destruct (overwrite_with_result s2n st) as (st' & Hrun & Hmap & Hc).
  exists st'. split; [done|]. split; [done|].
  assert (num2syms st' = map_fold add_symbol ∅ s2n) as Hn2s.
  { unfold overwrite_with, put in Hrun. by injection Hrun as <-. }
  assert (populated st') as Hp.
  { intros n ss. rewrite Hn2s. apply add_symbol_populated. }
  assert (next_sym_num st'
          = match (map_to_list (num2syms st')).*1 with
            | [] => 0
            | k :: ks => foldl Z.max k ks + 1
            end) as Hnext.
  { unfold overwrite_with, put in Hrun. by injection Hrun as <-. }
  assert (∀ n, n ∈ (map_to_list (num2syms st')).*1 ↔ is_Some (num2syms st' !! n))
    as Hkeys.
  { intros n. rewrite list_elem_of_fmap. split.
    - intros ([k ss] & -> & Hin%elem_of_map_to_list). eauto.
    - intros [ss Hss]. exists (n, ss). split; [done|].
      by apply elem_of_map_to_list. }
  split_and!; [split; [done|] | done | | |].
  - intros s n Hs.
    apply Hc in Hs as (ss & Hss & _).
    assert (n ∈ (map_to_list (num2syms st')).*1) as Hin by (apply Hkeys; eauto).
    rewrite Hnext. destruct ((map_to_list (num2syms st')).*1) as [|k ks].
    + by apply elem_of_nil in Hin.
    + destruct (foldl_max_spec ks k) as (Hge & Hall & _).
      apply elem_of_cons in Hin as [->|Hin]; [lia|].
      apply Hall in Hin. lia.
  - apply map_eq. intros s. apply option_eq. intros n.
    rewrite (regenerate_lookup _ (consistent_disjoint st' Hc)).
    rewrite <- Hmap. symmetry. apply Hc.
  - intros ->. rewrite Hnext, Hn2s. by rewrite map_fold_empty, map_to_list_empty.
  - intros Hne. rewrite Hnext.
    destruct ((map_to_list (num2syms st')).*1) as [|k ks] eqn:Ekeys.
    + exfalso. apply Hne. apply map_empty. intros s.
      destruct (s2n !! s) as [n|] eqn:Es; [|done].
      rewrite <- Hmap in Es. apply Hc in Es as (ss & Hss & _).
      assert (n ∈ ([] : list Z)) as Hin by (apply Hkeys; eauto).
      by apply elem_of_nil in Hin.
    + assert (foldl Z.max k ks ∈ k :: ks) as Hin.
      { destruct (foldl_max_spec ks k) as (_ & _ & [->|Hin]);
          apply elem_of_cons; [by left | by right]. }
      apply Hkeys in Hin as [ss Hss].
      destruct (set_choose_L ss (Hp _ _ Hss)) as [s Hs].
      exists s. rewrite <- Hmap. replace (foldl Z.max k ks + 1 - 1)
        with (foldl Z.max k ks) by lia.
      apply Hc. eauto.
Qed.

(** What [replace_all] does on distinct, defined symbols. *)
Lemma replace_all_defined
    (st : SymbolMapping) (before_syms after_syms : list string) :
  NoDup before_syms →
  (∀ s, s ∈ before_syms → is_Some (sym2num st !! s)) →
  length before_syms = length after_syms →
  ∃ st',
    replace_all before_syms after_syms st = (Ok (), st')
    ∧ (∀ i s t,
         before_syms !! i = Some s → after_syms !! i = Some t →
         (∀ j, (i < j)%nat → after_syms !! j ≠ Some t) →
         sym2num st' !! t = sym2num st !! s)
    ∧ (∀ s, s ∉ after_syms →
         sym2num st' !! s
         = if decide (s ∈ before_syms) then None else sym2num st !! s).
Proof.
  intros Hnd Hdef Hlen.
  destruct (collect_before_defined before_syms (sym2num st) [] st Hnd Hdef)
    as (bn & Hrun & Hbn & Hnth).
  set (s2n := assign_after after_syms bn
                (foldl (λ acc s, delete s acc) (sym2num st) before_syms)).
  destruct (overwrite_with_result s2n st) as (st' & Hst' & Hs2n & _).
  exists st'. split_and!.
  - unfold replace_all, bind, get. rewrite Hrun. exact Hst'.
  - intros i s t Hs Ht Hlast. rewrite Hs2n. unfold s2n, assign_after.
    destruct (Hdef s) as [n Hn]; [by eapply list_elem_of_lookup_2|].
    rewrite Hn. apply (assign_pairs_last _ _ i).
    + apply lookup_zip_with_Some. exists t, n.
      split_and!; [done | done |]. by rewrite (Hnth _ _ Hs).
    + intros j n' Hij Hj. apply lookup_zip_with_Some in Hj
        as (t' & k & [= <- <-] & Ht' & _).
      by apply (Hlast j).
  - intros s Hs. rewrite Hs2n. unfold s2n, assign_after.
    rewrite assign_pairs_other.
    + apply lookup_delete_all.
    + intros Hin. apply Hs. rewrite fst_zip in Hin by lia. done.
Qed.

(** X8: renaming distinct, defined symbols to as many distinct symbols that
    the table does not hold, and then renaming these back, both succeed and
    restore [sym2num]. *)
Theorem replace_all_round_trip
    (st : SymbolMapping) (before_syms after_syms : list string) :
  NoDup before_syms →
  (∀ s, s ∈ before_syms → is_Some (sym2num st !! s)) →
  NoDup after_syms →
  (∀ t, t ∈ after_syms → sym2num st !! t = None) →
  length before_syms = length after_syms →
  ∃ st1 st2,
    replace_all before_syms after_syms st = (Ok (), st1)
    ∧ replace_all after_syms before_syms st1 = (Ok (), st2)
    ∧ sym2num st2 = sym2num st.
Proof.
  intros Hndb Hdef Hnda Hfresh Hlen.
  destruct (replace_all_defined st before_syms after_syms Hndb Hdef Hlen)
    as (st1 & Hrun1 & Hpos1 & Hother1).
  assert (∀ i s t, before_syms !! i = Some s → after_syms !! i = Some t →
                   sym2num st1 !! t = sym2num st !! s) as Hfwd.
  { intros i s t Hs Ht. apply (Hpos1 i); [done..|].
    intros j Hij Hj. pose proof (NoDup_lookup _ _ _ _ Hnda Ht Hj). lia. }
  destruct (replace_all_defined st1 after_syms before_syms Hnda) as
    (st2 & Hrun2 & Hpos2 & Hother2); [|done|].
  { intros t Ht. apply list_elem_of_lookup in Ht as [i Hi].
    destruct (lookup_lt_is_Some_2 before_syms i) as [s Hs].
    { rewrite Hlen. by eapply lookup_lt_Some. }
    rewrite (Hfwd _ _ _ Hs Hi). apply Hdef. by eapply list_elem_of_lookup_2. }
  exists st1, st2. split; [done|]. split; [done|].
  apply map_eq. intros x.
  destruct (decide (x ∈ before_syms)) as [Hx|Hx].
  - apply list_elem_of_lookup in Hx as [i Hi].
    destruct (lookup_lt_is_Some_2 after_syms i) as [t Ht].
    { rewrite <- Hlen. by eapply lookup_lt_Some. }
    rewrite (Hpos2 i t x Ht Hi).
    + by apply (Hfwd i).
    + intros j Hij Hj. pose proof (NoDup_lookup _ _ _ _ Hndb Hi Hj). lia.
  - rewrite (Hother2 x Hx).
    destruct (decide (x ∈ after_syms)) as [Ha|Ha].
    + symmetry. by apply Hfresh.
    + rewrite (Hother1 x Ha). by rewrite decide_False.
Qed.

Lemma replace_all_round_trip_witness :
  ∃ st1 st2,
    replace_all ["a"; "b"] ["x"; "y"] two_symbols = (Ok (), st1)
    ∧ replace_all ["x"; "y"] ["a"; "b"] st1 = (Ok (), st2)
    ∧ sym2num st2 = sym2num two_symbols.
Proof.
  apply (replace_all_round_trip two_symbols ["a"; "b"] ["x"; "y"]).
  - by apply (bool_decide_unpack _).
  - intros s [->|[->|[]%elem_of_nil]%elem_of_cons]%elem_of_cons;
      eexists; reflexivity.
  - by apply (bool_decide_unpack _).
  - intros s [->|[->|[]%elem_of_nil]%elem_of_cons]%elem_of_cons; reflexivity.
  - reflexivity.
Defined.

(** ** Neighbour lists and the embeddability report *)

Lemma add_neighbor_adjacent (a b x y : Z) (nodes : gmap Z (gset Z)) :
  adjacent (add_neighbor a b nodes) x y ↔ (x = a ∧ y = b) ∨ adjacent nodes x y.
Proof.
  unfold adjacent, add_neighbor. destruct (decide (a = x)) as [->|Hne].
  - destruct (nodes !! x) as [peers|] eqn:E; rewrite lookup_insert_eq.
    + split.
      * intros (ps & [= <-] & [Hin | ->%elem_of_singleton]%elem_of_union);
          [right; eauto | by left].
      * intros [[_ ->]|(ps & [= <-] & Hin)]; eexists; (split; [done|]);
          apply elem_of_union; [right; by apply elem_of_singleton | by left].
    + split.
      * intros (ps & [= <-] & ->%elem_of_singleton). by left.
      * intros [[_ ->]|(ps & ? & _)]; [|done].
        eexists. split; [done|]. by apply elem_of_singleton.
  - assert (∀ v, <[a:=v]> nodes !! x = nodes !! x) as Hl.
    { intros v. by apply lookup_insert_ne. }
    destruct (nodes !! a); rewrite Hl; split; try tauto;
      (intros [[? _]|?]; [congruence | done]).
Qed.

(** X9: [edges_to_neighbor_list] files node [n2] as a neighbour of [n1]
    exactly when the pair [(n1, n2)] or the pair [(n2, n1)] is among the
    edges, so the relation is symmetric; its keys are the nodes that occur in
    some edge, and no node has an empty set of neighbours. *)
Theorem edges_to_neighbor_list_adjacent (pairs : list (Z * Z)) :
  (∀ n1 n2, adjacent (edges_to_neighbor_list pairs) n1 n2
            ↔ (n1, n2) ∈ pairs ∨ (n2, n1) ∈ pairs)
  ∧ (∀ n1 n2, adjacent (edges_to_neighbor_list pairs) n1 n2
              → adjacent (edges_to_neighbor_list pairs) n2 n1)
  ∧ (∀ n, is_Some (edges_to_neighbor_list pairs !! n)
          ↔ ∃ m, (n, m) ∈ pairs ∨ (m, n) ∈ pairs)
  ∧ (∀ n peers, edges_to_neighbor_list pairs !! n = Some peers → peers ≠ ∅).
Proof.
  assert (∀ n1 n2, adjacent (edges_to_neighbor_list pairs) n1 n2
                   ↔ (n1, n2) ∈ pairs ∨ (n2, n1) ∈ pairs) as Hadj.
  { induction pairs as [|[a b] pairs IH] using rev_ind; intros n1 n2.
    - split.
      + intros (ps & Hps & _). unfold edges_to_neighbor_list in Hps.
        cbn in Hps. by rewrite lookup_empty in Hps.
      + intros [H|H]; by apply elem_of_nil in H.
    - rewrite edges_to_neighbor_list_snoc. cbn [fst snd].
      rewrite !add_neighbor_adjacent, IH, !elem_of_app, !list_elem_of_singleton.
      split.
      + intros [ [-> ->] | [ [-> ->] | [?|?] ] ]; tauto.
      + intros [ [?|[= -> ->] ] | [?|[= -> ->] ] ]; tauto. }
  split; [done|]. split; [|split].
  - intros n1 n2. rewrite !Hadj. tauto.
  - intros n. split.
    + intros [peers Hp].
      pose proof (edges_to_neighbor_list_peers_nonempty pairs n peers Hp) as Hne.
      destruct (set_choose_L peers Hne) as [m Hm].
      exists m. apply Hadj. by exists peers.
    + intros [m Hm]. apply Hadj in Hm as (peers & Hp & _). eauto.
  - apply edges_to_neighbor_list_peers_nonempty.
Qed.

Lemma extra_nodes_nonneg (dmax deg : Z) : 0 < dmax → 0 ≤ extra_nodes dmax deg.
Proof.
  intros Hpos. destruct (decide (dmax < deg)) as [Hgt|Hle].
  - pose proof (extra_nodes_ceiling dmax deg Hpos Hgt). nia.
  - rewrite extra_nodes_within by lia. done.
Qed.

Lemma total_extras_nonneg (dmax : Z) (graph : gmap Z (gset Z)) :
  0 < dmax → 0 ≤ total_extras dmax graph.
Proof.
  intros Hpos. unfold total_extras.
  induction (map_to_list graph) as [|kv l IH]; [done|].
  cbn [foldr map]. pose proof (extra_nodes_nonneg dmax (degree kv.2) Hpos). lia.
Qed.

(** The report of [maybe_embeddable] on hardware with at least one edge. *)
Lemma maybe_embeddable_runs (edges adj : list (Z * Z)) :
  adj ≠ [] →
  ∃ dmax,
    0 < dmax
    ∧ maybe_embeddable edges adj
      = Ok {| embed :=
                negb (Z.of_nat (size (edges_to_neighbor_list edges))
                      + total_extras dmax (edges_to_neighbor_list edges)
                      >? Z.of_nat (size (edges_to_neighbor_list adj)))
                && negb (Z.of_nat (length edges)
                         + total_extras dmax (edges_to_neighbor_list edges)
                         >? Z.of_nat (length adj));
              extras := total_extras dmax (edges_to_neighbor_list edges);
              nodes_needed_avail :=
                (Z.of_nat (size (edges_to_neighbor_list edges)),
                 Z.of_nat (size (edges_to_neighbor_list adj)));
              edges_needed_avail :=
                (Z.of_nat (length edges), Z.of_nat (length adj));
              degree_hist :=
                merge_sort pair_le
                  (map_to_list
                     (map_fold hist_step ∅ (edges_to_neighbor_list edges))) |}.
Proof.
  intros Hadj.
  pose proof (edges_to_neighbor_list_nonempty adj Hadj) as Hg.
  pose proof (edges_to_neighbor_list_peers_nonempty adj) as Hpeers.
  set (degrees := map (λ kv : Z * gset Z, Z.of_nat (size kv.2))
                      (map_to_list (edges_to_neighbor_list adj))).
  assert (degrees ≠ []) as Hdegrees.
  { unfold degrees. intros Hnil%fmap_nil_inv.
    by apply map_to_list_empty_iff in Hnil. }
  destruct (py_max_spec degrees Hdegrees) as (dmax & Hmax & Hin & _).
  apply list_elem_of_fmap in Hin as ([n peers] & Hdeg & Hnode).
  apply elem_of_map_to_list in Hnode. cbn [snd] in Hdeg.
  assert (0 < dmax) as Hpos.
  { apply Hpeers in Hnode.
    assert (size peers ≠ 0%nat) as Hsize.
    { intros Hs%size_empty_iff. apply Hnode. by apply leibniz_equiv. }
    lia. }
  exists dmax. split; [done|].
  unfold maybe_embeddable. fold degrees. rewrite Hmax.
  cbn [rbind]. rewrite extras_loop by lia. reflexivity.
Qed.

(** X10: on hardware with at least one edge, the report of
    [maybe_embeddable] has [extras >= 0]; [embed] can only be true if the
    logical graph has no more nodes and no more edges than the hardware, so a
    logical edge list longer than the hardware edge list is always reported
    as not embeddable. *)
Theorem maybe_embeddable_necessary (edges adj : list (Z * Z)) :
  adj ≠ [] →
  ∃ report,
    maybe_embeddable edges adj = Ok report
    ∧ 0 ≤ extras report
    ∧ (embed report = true →
         (size (edges_to_neighbor_list edges)
            ≤ size (edges_to_neighbor_list adj))%nat
         ∧ (length edges ≤ length adj)%nat)
    ∧ ((length adj < length edges)%nat → embed report = false).
Proof.
  intros Hadj. destruct (maybe_embeddable_runs edges adj Hadj) as (dmax & Hpos & ->).
  pose proof (total_extras_nonneg dmax (edges_to_neighbor_list edges) Hpos) as Hex.
  eexists. split; [reflexivity|]. cbn [embed extras]. split; [done|]. split.
  - rewrite andb_true_iff, !negb_true_iff, !Z.gtb_ltb, !Z.ltb_ge. lia.
  - intros Hlt. rewrite andb_false_iff, !negb_false_iff, !Z.gtb_ltb, !Z.ltb_lt.
    right. lia.
Qed.

Lemma maybe_embeddable_necessary_witness :
  ∃ report, maybe_embeddable [(0, 1); (1, 2); (0, 2)] [(0, 1); (1, 2)] = Ok report
            ∧ embed report = false.
Proof.
  destruct (maybe_embeddable_necessary [(0, 1); (1, 2); (0, 2)] [(0, 1); (1, 2)])
    as (report & Hrun & _ & _ & Hfalse); [discriminate|].
  exists report. split; [done|]. apply Hfalse. simpl. lia.
Defined.

Lemma nodes_of_degree_insert (deg n : Z) (peers : gset Z) (nodes : gmap Z (gset Z)) :
  nodes !! n = None →
  nodes_of_degree deg (<[n := peers]> nodes)
  = nodes_of_degree deg nodes + (if decide (degree peers = deg) then 1 else 0).
Proof.
  intros Hfresh. unfold nodes_of_degree. rewrite map_filter_insert.
  cbn [snd]. destruct (decide (degree peers = deg)) as [Hd|Hd].
  - rewrite map_size_insert_None; [lia|].
    apply map_lookup_filter_None. by left.
  - rewrite delete_id by done. lia.
Qed.

(** The histogram loop files under every degree the number of nodes that
    have it, and files nothing under a degree that no node has. *)
Lemma hist_lookup (nodes : gmap Z (gset Z)) (deg : Z) :
  map_fold hist_step ∅ nodes !! deg
  = if decide (nodes_of_degree deg nodes = 0) then None
    else Some (nodes_of_degree deg nodes).
Proof.
  revert deg.
  pose proof (map_fold_weak_ind
    (λ (r : gmap Z Z) (m : gmap Z (gset Z)),
       ∀ deg : Z, r !! deg = if decide (nodes_of_degree deg m = 0) then None
                             else Some (nodes_of_degree deg m))
    hist_step ∅) as Hind.
  apply Hind; clear Hind.
  - intros deg. unfold nodes_of_degree.
    rewrite map_filter_empty, map_size_empty, lookup_empty. done.
  - intros n peers m r Hfresh IH deg.
    rewrite (nodes_of_degree_insert _ _ _ _ Hfresh).
    assert (0 ≤ nodes_of_degree deg m) as Hnn by (unfold nodes_of_degree; lia).
    unfold hist_step, degree.
    destruct (decide (Z.of_nat (size peers) = deg)) as [<-|Hd].
    + rewrite (IH (Z.of_nat (size peers))).
      destruct (decide (nodes_of_degree (Z.of_nat (size peers)) m = 0))
        as [->|Hz]; rewrite lookup_insert_eq.
      * by rewrite decide_False.
      * rewrite decide_False by lia. done.
    + rewrite Z.add_0_r.
      destruct (r !! Z.of_nat (size peers)); rewrite lookup_insert_ne by done;
        apply IH.
Qed.

Lemma sum_of_tallies (hist : gmap Z Z) :
  total_tally (map_to_list hist) = map_fold (λ _ c acc, c + acc) 0 hist.
Proof.
  rewrite map_fold_foldr. unfold total_tally.
  induction (map_to_list hist) as [|[d c] l IH]; [done|].
  cbn. by rewrite <- IH.
Qed.

(** Every node is counted once. *)
Lemma hist_total (nodes : gmap Z (gset Z)) :
  total_tally (map_to_list (map_fold hist_step ∅ nodes)) = Z.of_nat (size nodes).
Proof.
  rewrite sum_of_tallies.
  assert (∀ (i : Z) (c : Z) (m : gmap Z Z),
            map_fold (λ _ c acc, c + acc) 0 (<[i := c]> m)
            = c + map_fold (λ _ c acc, c + acc) 0 (delete i m)) as Hins.
  { intros i c m. rewrite <- insert_delete_eq.
    rewrite map_fold_insert_L; [done| |apply lookup_delete_eq].
    intros. lia. }
  apply (map_fold_weak_ind
    (λ (r : gmap Z Z) (m : gmap Z (gset Z)),
       map_fold (λ _ c acc, c + acc) 0 r = Z.of_nat (size m))).
  - by rewrite map_fold_empty, map_size_empty.
  - intros n peers m r Hfresh IH.
    rewrite map_size_insert_None by done. unfold hist_step.
    destruct (r !! Z.of_nat (size peers)) as [c|] eqn:E; rewrite Hins.
    + rewrite (map_fold_delete_L (λ _ c acc, c + acc) 0
                 (Z.of_nat (size peers)) c r) in IH;
        [lia | intros; lia | done].
    + rewrite delete_id by done. lia.
Qed.

Lemma total_tally_cons (p : Z * Z) (l : list (Z * Z)) :
  total_tally (p :: l) = p.2 + total_tally l.
Proof. reflexivity. Qed.

Lemma total_tally_perm (l1 l2 : list (Z * Z)) :
  l1 ≡ₚ l2 → total_tally l1 = total_tally l2.
Proof.
  induction 1 as [|p l1 l2 _ IH|p q l|l1 l2 l3 _ IH1 _ IH2];
    rewrite ?total_tally_cons; [done | by rewrite IH | lia | congruence].
Qed.

Lemma sorted_keys_increasing (l : list (Z * Z)) :
  StronglySorted pair_le l → NoDup l.*1 →
  StronglySorted (λ p q, p.1 < q.1) l.
Proof.
  induction 1 as [|p l Hs IH Hall]; [constructor|].
  rewrite fmap_cons. intros [Hp Hnd]%NoDup_cons.
  constructor; [by apply IH|].
  rewrite Forall_forall in Hall |- *. intros q Hq.
  destruct (Hall q Hq) as [Hlt|[Heq _]]; [done|].
  exfalso. apply Hp. rewrite Heq. apply list_elem_of_fmap. by exists q.
Qed.

(** X11: on hardware with at least one edge, the degree histogram in the
    report of [maybe_embeddable] lists the degrees that occur in the logical
    graph in strictly increasing order, each once and with the number of
    logical nodes of that degree, and the tallies add up to the number of
    logical nodes. *)
Theorem maybe_embeddable_histogram (edges adj : list (Z * Z)) :
  adj ≠ [] →
  ∃ report,
    maybe_embeddable edges adj = Ok report
    ∧ StronglySorted (λ p q, p.1 < q.1) (degree_hist report)
    ∧ (∀ deg c, (deg, c) ∈ degree_hist report
                ↔ c = nodes_of_degree deg (edges_to_neighbor_list edges) ∧ 0 < c)
    ∧ total_tally (degree_hist report) = (nodes_needed_avail report).1.
Proof.
  intros Hadj. destruct (maybe_embeddable_runs edges adj Hadj) as (dmax & _ & ->).
  eexists. split; [reflexivity|]. cbn [degree_hist nodes_needed_avail fst].
  set (nodes := edges_to_neighbor_list edges).
  set (hist := map_fold hist_step ∅ nodes).
  pose proof (merge_sort_Permutation pair_le (map_to_list hist)) as Hperm.
  assert (Total pair_le) as Htotal.
  { intros [a b] [c d]. unfold pair_le. cbn. lia. }
  assert (Transitive pair_le) as Htrans.
  { intros [a b] [c d] [e f]. unfold pair_le. cbn. lia. }
  split_and!.
  - apply sorted_keys_increasing.
    + apply (StronglySorted_merge_sort pair_le).
    + rewrite Hperm. apply NoDup_fst_map_to_list.
  - intros deg c. rewrite Hperm, elem_of_map_to_list. unfold hist.
    rewrite hist_lookup. fold nodes.
    assert (0 ≤ nodes_of_degree deg nodes) by (unfold nodes_of_degree; lia).
    case_decide; split; try done.
    + intros [-> ?]. lia.
    + intros [= <-]. split; [done | lia].
    + by intros [-> _].
  - rewrite (total_tally_perm _ _ Hperm). apply hist_total.
Qed.

Lemma maybe_embeddable_histogram_witness :
  ∃ report, maybe_embeddable [(0, 1); (1, 2)] [(0, 1); (1, 2)] = Ok report
            ∧ total_tally (degree_hist report) = 3.
Proof.
  destruct (maybe_embeddable_histogram [(0, 1); (1, 2)] [(0, 1); (1, 2)])
    as (report & Hrun & _ & _ & Htotal); [discriminate|].
  exists report. split; [done|]. rewrite Htotal.
  vm_compute in Hrun. injection Hrun as <-. reflexivity.
Defined.

(** ** Topology inference: edge cases and results *)

Lemma chimera_topology_without (solver : solver_properties) :
  (num_qubits solver = None → chimera_topology solver = Raise NonChimera)
  ∧ (is_Some (num_qubits solver) → couplers solver = [] →
     chimera_topology solver = Raise UnboundLocalError).
Proof.
  unfold chimera_topology. split.
  - by intros ->.
  - intros [n ->] ->. reflexivity.
Qed.

(** X12: [chimera_topology] looks for the nominal number of qubits first:
    without it the function raises [NonChimera] whatever the couplers are,
    also when there are none; with it and with an empty coupler list the loop
    body never runs, [sorted_tallies] is never assigned, and the function
    raises [UnboundLocalError]. *)
Theorem chimera_topology_no_couplers (solver : solver_properties) :
  (num_qubits solver = None → chimera_topology solver = Raise NonChimera)
  ∧ (is_Some (num_qubits solver) → couplers solver = [] →
     chimera_topology solver = Raise UnboundLocalError).
Proof. apply chimera_topology_without. Qed.

Lemma chimera_topology_no_couplers_witness :
  chimera_topology {| num_qubits := Some 8; couplers := [] |}
  = Raise UnboundLocalError.
Proof.
  apply (proj2 (chimera_topology_no_couplers
                  {| num_qubits := Some 8; couplers := [] |})).
  - by exists 8.
  - reflexivity.
Defined.

(** X13: whenever [chimera_topology] returns [(L, M, N)], a nominal number
    of qubits was given, [L] is a most frequent distance and at least 1, [M]
    is at least 1, and [N] is the least number of rows with which
    [2 * L * M * N] reaches the nominal number of qubits; the function never
    returns a shore size or a column count of 0. *)
Theorem chimera_topology_result (solver : solver_properties) (L M N : Z) :
  chimera_topology solver = Ok (L, M, N) →
  most_frequent (coupler_deltas (couplers solver)) L
  ∧ 1 ≤ L ∧ 1 ≤ M
  ∧ ∃ nominal, num_qubits solver = Some nominal
               ∧ 2 * L * M * (N - 1) < nominal ≤ 2 * L * M * N.
Proof.
  intros Hrun.
  destruct (num_qubits solver) as [nominal|] eqn:Hnom.
  2:{ rewrite (proj1 (chimera_topology_without solver) Hnom) in Hrun. done. }
  destruct (decide (couplers solver = [])) as [Hcs|Hcs].
  { rewrite (proj2 (chimera_topology_without solver)) in Hrun; done. }
  destruct (chimera_topology_run solver nominal Hcs Hnom)
    as (L' & t & rest & _ & _ & _ & Hmost & HL & Hzero & Hpos).
  destruct (decide (L' = 0)) as [HL0|HL0].
  { rewrite (Hzero HL0) in Hrun. done. }
  destruct (Hpos HL0) as [HM Hrun']. rewrite Hrun' in Hrun.
  injection Hrun as <- <- <-. split_and!; [done | lia | lia |].
  exists nominal. split; [done|].
  pose proof (ceiling_division nominal (2 * L' * stride_columns L' rest)
                ltac:(nia)).
  lia.
Qed.

Lemma chimera_topology_result_witness :
  most_frequent (coupler_deltas (couplers one_cell)) 2 ∧ 1 ≤ 2 ∧ 1 ≤ 1
  ∧ ∃ nominal, num_qubits one_cell = Some nominal
               ∧ 2 * 2 * 1 * (1 - 1) < nominal ≤ 2 * 2 * 1 * 1.
Proof.
  apply (chimera_topology_result one_cell 2 1 1). vm_compute. reflexivity.
Defined.

(** X14: couplers are unordered pairs to [chimera_topology]: writing every
    coupler with its two qubits exchanged changes neither the result nor the
    exception. *)
Theorem chimera_topology_unordered (solver : solver_properties) :
  chimera_topology
    {| num_qubits := num_qubits solver;
       couplers := map (λ c, (c.2, c.1)) (couplers solver) |}
  = chimera_topology solver.
Proof.
  unfold chimera_topology. cbn [num_qubits couplers].
  replace (coupler_deltas (map (λ c, (c.2, c.1)) (couplers solver)))
    with (coupler_deltas (couplers solver)); [done|].
  unfold coupler_deltas. rewrite map_map. apply map_ext.
  intros [c1 c2]. cbn [fst snd]. lia.
Qed.

(** ** Coupler numbers: order of the qubits and address ranges *)

(** X15: whatever the decomposition, [coupler_number] gives a pair of qubits
    the same number in either order, and fails for one order exactly when it
    fails for the other. *)
Theorem coupler_number_symmetric
    (decompose : list Z → Z → Z → Z → result (list (list Z)))
    (M N L q1 q2 : Z) :
  (∀ id, coupler_number decompose M N L q1 q2 = Ok id
         ↔ coupler_number decompose M N L q2 q1 = Ok id)
  ∧ is_ok (coupler_number decompose M N L q1 q2)
    = is_ok (coupler_number decompose M N L q2 q1).
Proof.
  unfold coupler_number. rewrite (Z.min_comm q2 q1), (Z.max_comm q2 q1).
  destruct (decompose [Z.min q1 q2; Z.max q1 q2] M N L) as [coords|e];
    cbn [rbind]; [|done].
  repeat (case_match; try done).
Qed.

(** The three kinds of couplers and the ranges of their numbers. *)
Lemma coupler_number_in_range
    (decompose : list Z → Z → Z → Z → result (list (list Z)))
    (M N L q1 q2 imin jmin umin kmin imax jmax umax kmax id : Z) :
  decompose [Z.min q1 q2; Z.max q1 q2] M N L
    = Ok [[imin; jmin; umin; kmin]; [imax; jmax; umax; kmax]] →
  0 ≤ imin → imin < N → imax < N →
  0 ≤ jmin → jmin < M → jmax < M →
  0 ≤ kmin < L → 0 ≤ kmax < L →
  coupler_number decompose M N L q1 q2 = Ok id →
  let total_intra := L * L * M * N in
  let total_horiz := (M - 1) * N * L in
  let total_vert := (N - 1) * M * L in
  (imin = imax ∧ jmin = jmax ∧ umin ≠ umax ∧ 0 ≤ id < total_intra)
  ∨ (imin = imax ∧ jmin + 1 = jmax ∧ umin = umax ∧ kmin = kmax
     ∧ total_intra ≤ id < total_intra + total_horiz)
  ∨ (imin + 1 = imax ∧ jmin = jmax ∧ umin = umax ∧ kmin = kmax
     ∧ total_intra + total_horiz ≤ id < total_intra + total_horiz + total_vert).
Proof.
  intros Hd Hi0 HiN HiN' Hj0 HjM HjM' Hk1 Hk2. unfold coupler_number.
  rewrite Hd. cbn [rbind]. intros Hid. cbv zeta.
  assert (HL : 0 < L) by lia.
  destruct ((imin =? imax) && (jmin =? jmax) && negb (umin =? umax)) eqn:E1.
  { apply andb_true_iff in E1 as [[Hi Hj]%andb_true_iff Hu].
    apply Z.eqb_eq in Hi, Hj. apply negb_true_iff, Z.eqb_neq in Hu.
    injection Hid as <-. left.
    assert (0 ≤ imin * M + jmin ≤ M * N - 1) by nia.
    assert (0 ≤ kmin * L + kmax ≤ L * L - 1) by nia.
    assert (0 ≤ L * L * (imin * M + jmin) ≤ L * L * (M * N - 1)) by nia.
    split_and!; [done..| |]; lia. }
  destruct ((imin =? imax) && (jmin + 1 =? jmax) && (umin =? umax)
            && (kmin =? kmax)) eqn:E2.
  { apply andb_true_iff in E2 as [[[Hi Hj]%andb_true_iff Hu]%andb_true_iff Hk].
    apply Z.eqb_eq in Hi, Hj, Hu, Hk.
    injection Hid as <-. right. left.
    assert (0 ≤ imin * (M - 1) + jmin ≤ (M - 1) * N - 1) by nia.
    assert (0 ≤ L * (imin * (M - 1) + jmin) ≤ L * ((M - 1) * N - 1)) by nia.
    split_and!; [done..| |]; lia. }
  destruct ((imin + 1 =? imax) && (jmin =? jmax) && (umin =? umax)
            && (kmin =? kmax)) eqn:E3; [|done].
  apply andb_true_iff in E3 as [[[Hi Hj]%andb_true_iff Hu]%andb_true_iff Hk].
  apply Z.eqb_eq in Hi, Hj, Hu, Hk.
  injection Hid as <-. right. right.
  assert (0 ≤ imin * M + jmin ≤ (N - 1) * M - 1) by nia.
  assert (0 ≤ L * (imin * M + jmin) ≤ L * ((N - 1) * M - 1)) by nia.
  split_and!; [done..| |]; lia.
Qed.

(** X16: when the decomposition puts the two qubits at rows below [N],
    columns below [M] and offsets below [L], none negative, every number
    [coupler_number] returns lies in the range of its kind: couplers inside
    a cell in [0, L*L*M*N), horizontal ones in the next [(M-1)*N*L] numbers,
    vertical ones in the [(N-1)*M*L] numbers after these.  The three ranges
    do not overlap. *)
Theorem coupler_number_ranges
    (decompose : list Z → Z → Z → Z → result (list (list Z)))
    (M N L q1 q2 imin jmin umin kmin imax jmax umax kmax id : Z) :
  decompose [Z.min q1 q2; Z.max q1 q2] M N L
    = Ok [[imin; jmin; umin; kmin]; [imax; jmax; umax; kmax]] →
  0 ≤ imin → imin < N → imax < N →
  0 ≤ jmin → jmin < M → jmax < M →
  0 ≤ kmin < L → 0 ≤ kmax < L →
  coupler_number decompose M N L q1 q2 = Ok id →
  let total_intra := L * L * M * N in
  let total_horiz := (M - 1) * N * L in
  let total_vert := (N - 1) * M * L in
  (imin = imax ∧ jmin = jmax ∧ umin ≠ umax ∧ 0 ≤ id < total_intra)
  ∨ (imin = imax ∧ jmin + 1 = jmax ∧ umin = umax ∧ kmin = kmax
     ∧ total_intra ≤ id < total_intra + total_horiz)
  ∨ (imin + 1 = imax ∧ jmin = jmax ∧ umin = umax ∧ kmin = kmax
     ∧ total_intra + total_horiz ≤ id < total_intra + total_horiz + total_vert).
Proof. apply coupler_number_in_range. Qed.

Lemma coupler_number_ranges_witness :
  (0 = 0 ∧ 0 + 1 = 1 ∧ 1 = 1 ∧ 2 = 2
   ∧ 4 * 4 * 2 * 2 ≤ 66 < 4 * 4 * 2 * 2 + (2 - 1) * 2 * 4).
Proof.
  destruct (coupler_number_ranges linear_index_to_chimera
              2 2 4 6 14 0 0 1 2 0 1 1 2 66)
    as [(_ & H & _)|[H|(H & _)]];
    [reflexivity | lia.. | reflexivity | | |];
    [lia | exact H | lia].
Defined.

(** ** Prefixes: markers away from the prefix, and the two functions together *)

Lemma replace_absent (old new s : string) :
  PyStr.contains old s = false → PyStr.replace old new s = s.
Proof.
  destruct old as [|a old].
  { destruct s; discriminate. }
  unfold PyStr.replace. induction s as [|c s IH]; [done|].
  intros Hc. cbn [PyStr.contains] in Hc.
  apply orb_false_iff in Hc as [Hst Hc].
  cbn [PyStr.replace_from]. rewrite Hst. f_equal. by apply IH.
Qed.

Lemma lookup_or_new_ensured (sym : string) (st : SymbolMapping) :
  try_KeyError (to_number sym) (new_symbol sym) st
  = (Ok (ensured sym st).1.1, (ensured sym st).2).
Proof. rewrite lookup_or_new_result. unfold ensured. by destruct (sym2num st !! sym). Qed.

(** X17: with both prefixes at hand nothing is raised, and only a marker that
    directly follows the prefix is replaced: when the prefix followed by
    ["!next."] does not occur, [apply_prefix] returns the prefixed symbol as
    it is and [symbol_to_number] numbers the symbol it was given, so a marker
    elsewhere in the symbol stays in the name. *)
Theorem marker_away_from_prefix_stays
    (sym p n : string) (st : SymbolMapping) :
  (PyStr.contains (p +:+ next_marker) (p +:+ sym) = false →
   apply_prefix sym (Some p) (Some n) = Ok (p +:+ sym))
  ∧ (PyStr.contains (p +:+ next_marker) sym = false →
     symbol_to_number sym (Some p) (Some n) st
     = try_KeyError (to_number sym) (new_symbol sym) st)
  ∧ is_ok (apply_prefix sym (Some p) (Some n)) = true
  ∧ is_ok (symbol_to_number sym (Some p) (Some n) st).1 = true.
Proof.
  split_and!.
  - intros Habs. unfold apply_prefix.
    destruct (PyStr.contains next_marker (p +:+ sym)); [|done].
    by rewrite replace_absent.
  - intros Habs. unfold symbol_to_number.
    destruct (PyStr.contains next_marker sym); [|done].
    by rewrite replace_absent.
  - unfold apply_prefix. by destruct (PyStr.contains next_marker (p +:+ sym)).
  - unfold symbol_to_number.
    destruct (PyStr.contains next_marker sym); by rewrite lookup_or_new_ensured.
Qed.

Lemma marker_away_from_prefix_stays_witness :
  apply_prefix "a.!next.b" (Some "foo.") (Some "bar.") = Ok "foo.a.!next.b".
Proof.
  apply (proj1 (marker_away_from_prefix_stays "a.!next.b" "foo." "bar." init)).
  reflexivity.
Defined.

(** X18: [symbol_to_number], given the prefixed symbol, numbers exactly the
    name that [apply_prefix] makes of the symbol: when [apply_prefix] returns
    a name, [symbol_to_number] returns the number that [to_number] then gives
    for that name, and changes nothing if the name was already defined; when
    [apply_prefix] raises, [symbol_to_number] raises the same exception and
    leaves the table as it was. *)
Theorem symbol_to_number_apply_prefix
    (sym : string) (prefix next_prefix : option string) (st : SymbolMapping) :
  let prefixed := match prefix with Some p => p +:+ sym | None => sym end in
  (∀ name, apply_prefix sym prefix next_prefix = Ok name →
     ∃ num st', symbol_to_number prefixed prefix next_prefix st = (Ok num, st')
                ∧ to_number name st' = (Ok num, st')
                ∧ (∀ k, sym2num st !! name = Some k → num = k ∧ st' = st)
                ∧ (sym2num st !! name = None →
                   num = next_sym_num st
                   ∧ sym2num st' = <[name := num]> (sym2num st)))
  ∧ (∀ e, apply_prefix sym prefix next_prefix = Raise e →
       symbol_to_number prefixed prefix next_prefix st = (Raise e, st)).
Proof.
  intros prefixed.
  assert (∀ name, ∃ num st',
            try_KeyError (to_number name) (new_symbol name) st = (Ok num, st')
            ∧ to_number name st' = (Ok num, st')
            ∧ (∀ k, sym2num st !! name = Some k → num = k ∧ st' = st)
            ∧ (sym2num st !! name = None →
               num = next_sym_num st
               ∧ sym2num st' = <[name := num]> (sym2num st))) as Hnew.
  { intros name. rewrite lookup_or_new_result.
    destruct (sym2num st !! name) as [k|] eqn:Hk.
    - exists k, st. split_and!; [done | by apply to_number_defined | | done].
      by intros ? [= <-].
    - eexists _, _. split_and!; [done | | done | done].
      apply to_number_defined. cbn [sym2num]. apply lookup_insert_eq. }
  unfold apply_prefix, symbol_to_number. fold prefixed.
  destruct (PyStr.contains next_marker prefixed).
  - destruct prefix as [p|], next_prefix as [n|]; (split; [|by intros ? [= <-]]);
      intros name [= <-]. apply Hnew.
  - split; [|done]. intros name [= <-]. apply Hnew.
Qed.

Lemma symbol_to_number_apply_prefix_witness :
  ∃ num st',
    symbol_to_number "foo.!next.x" (Some "foo.") (Some "bar.") init = (Ok num, st')
    ∧ to_number "bar.x" st' = (Ok num, st')
    ∧ (∀ k, sym2num init !! "bar.x" = Some k → num = k ∧ st' = init)
    ∧ (sym2num init !! "bar.x" = None →
       num = next_sym_num init ∧ sym2num st' = <[ "bar.x" := num ]> (sym2num init)).
Proof.
  apply (proj1 (symbol_to_number_apply_prefix "!next.x" (Some "foo.") (Some "bar.") init)).
  reflexivity.
Defined.

(** X19: [symbol_to_number] raises nothing but [RemainingNextException], and
    then leaves the table as it was.  When it returns on a well-formed table
    the table stays well formed, every symbol keeps its number, at most one
    number is handed out, and the same call on the new table returns the same
    number and changes nothing. *)
Theorem symbol_to_number_stable
    (sym : string) (prefix next_prefix : option string) (st : SymbolMapping) :
  well_formed st →
  (symbol_to_number sym prefix next_prefix st = (Raise RemainingNextException, st))
  ∨ ∃ num st',
      symbol_to_number sym prefix next_prefix st = (Ok num, st')
      ∧ well_formed st'
      ∧ (∀ x k, sym2num st !! x = Some k → sym2num st' !! x = Some k)
      ∧ next_sym_num st ≤ next_sym_num st' ≤ next_sym_num st + 1
      ∧ symbol_to_number sym prefix next_prefix st' = (Ok num, st').
Proof.
  intros Hwf.
  assert (∀ s, ∃ num st',
            try_KeyError (to_number s) (new_symbol s) st = (Ok num, st')
            ∧ well_formed st'
            ∧ (∀ x k, sym2num st !! x = Some k → sym2num st' !! x = Some k)
            ∧ next_sym_num st ≤ next_sym_num st' ≤ next_sym_num st + 1
            ∧ try_KeyError (to_number s) (new_symbol s) st' = (Ok num, st'))
    as Hnew.
  { intros s. rewrite lookup_or_new_ensured.
    destruct (ensured s st) as [[num d] st'] eqn:He. cbn [fst snd].
    destruct (ensured_spec s st st' num d Hwf He) as (Hwf' & Hs & Hkeep).
    pose proof (ensured_next _ _ _ _ _ He) as Hnext.
    exists num, st'. split_and!; [done | done | done | | |].
    - destruct (ensured_cases _ _ _ _ _ He) as [(-> & _)|(-> & _)]; lia.
    - destruct (ensured_cases _ _ _ _ _ He) as [(-> & _)|(-> & _)]; lia.
    - rewrite lookup_or_new_result. by rewrite Hs. }
  unfold symbol_to_number.
  destruct (PyStr.contains next_marker sym).
  - destruct prefix as [p|], next_prefix as [n|]; try (by left).
    right. apply Hnew.
  - right. apply Hnew.
Qed.

Lemma symbol_to_number_stable_witness :
  symbol_to_number "x" None None init = (Ok 0, (symbol_to_number "x" None None init).2)
  ∧ symbol_to_number "x" None None (symbol_to_number "x" None None init).2
    = (Ok 0, (symbol_to_number "x" None None init).2).
Proof.
  destruct (symbol_to_number_stable "x" None None init init_well_formed)
    as [Hr|(num & st' & Hrun & _ & _ & _ & Hagain)].
  - discriminate Hr.
  - rewrite Hrun in *. cbn [snd]. vm_compute in Hrun.
    injection Hrun as <- <-. split; [reflexivity | exact Hagain].
Defined.

(** ** Dictionaries and lists of weights *)

Lemma list_setitem_result {A} (lst : list A) (k : Z) (v : A) :
  let len := Z.of_nat (length lst) in
  (- len ≤ k < len →
   ∃ r, list_setitem lst k v = Ok r ∧ length r = length lst)
  ∧ (¬ (- len ≤ k < len) → list_setitem lst k v = Raise (IndexError [])).
Proof.
  intros len. unfold list_setitem. fold len. split.
  - intros Hk.
    destruct (Z.leb_spec 0 k), (Z.ltb_spec k len); cbn [andb]; try lia.
    + eexists. split; [done|]. apply length_insert.
    + destruct (Z.leb_spec (- len) k), (Z.ltb_spec k 0); cbn [andb]; try lia.
      eexists. split; [done|]. apply length_insert.
  - intros Hk.
    destruct (Z.leb_spec 0 k), (Z.ltb_spec k len); cbn [andb]; try lia;
      destruct (Z.leb_spec (- len) k), (Z.ltb_spec k 0); cbn [andb]; try lia;
      done.
Qed.

Lemma list_setitem_nonneg {A} (lst : list A) (k : Z) (v : A) :
  0 ≤ k < Z.of_nat (length lst) →
  list_setitem lst k v = Ok (<[Z.to_nat k := v]> lst).
Proof.
  intros Hk. unfold list_setitem.
  by rewrite (proj2 (Z.leb_le 0 k)), (proj2 (Z.ltb_lt k _)) by lia.
Qed.

Section ListDictFacts.

Context {V : Type} (int_zero float_zero : V) (is_zero : V → bool).

Lemma fill_list_result (items : list (Z * V)) (lst : list V) :
  let len := Z.of_nat (length lst) in
  ((∀ k, k ∈ items.*1 → - len ≤ k < len) →
   ∃ r, fill_list items lst = Ok r ∧ length r = length lst)
  ∧ (¬ (∀ k, k ∈ items.*1 → - len ≤ k < len) →
     fill_list items lst = Raise (IndexError [])).
Proof.
  revert lst. induction items as [|[k v] items IH]; intros lst len.
  - split; [by exists lst|]. intros H. exfalso. apply H.
    by intros k ?%elem_of_nil.
  - cbn [fill_list fmap list_fmap fst].
    destruct (list_setitem_result lst k v) as [Hok Herr]. fold len in Hok, Herr.
    destruct (decide (- len ≤ k < len)) as [Hk|Hk].
    + destruct (Hok Hk) as (lst' & -> & Hlen). cbn [rbind].
      destruct (IH lst') as [IHok IHerr]. rewrite Hlen in IHok, IHerr.
      fold len in IHok, IHerr. split.
      * intros Hall. apply IHok. intros k' Hk'. apply Hall, elem_of_cons.
        by right.
      * intros Hall. apply IHerr. intros Hrest. apply Hall.
        intros k' [->|Hk']%elem_of_cons; [done | by apply Hrest].
    + rewrite (Herr Hk). cbn [rbind]. split; [|done].
      intros Hall. exfalso. apply Hk, Hall, elem_of_cons. by left.
Qed.

Lemma fill_list_lookup (items : list (Z * V)) (lst : list V) :
  NoDup items.*1 →
  (∀ k, k ∈ items.*1 → 0 ≤ k < Z.of_nat (length lst)) →
  ∃ r, fill_list items lst = Ok r
       ∧ length r = length lst
       ∧ ∀ i, r !! i = match (list_to_map items : gmap Z V) !! Z.of_nat i with
                       | Some v => Some v
                       | None => lst !! i
                       end.
Proof.
  revert lst. induction items as [|[k v] items IH]; intros lst Hnd Hkeys.
  - exists lst. split_and!; [done..|]. intros i. by rewrite list_to_map_nil, lookup_empty.
  - cbn [fmap list_fmap fst] in Hnd, Hkeys.
    apply NoDup_cons in Hnd as [Hk Hnd].
    assert (0 ≤ k < Z.of_nat (length lst)) as Hkr.
    { apply Hkeys, elem_of_cons. by left. }
    cbn [fill_list]. rewrite (list_setitem_nonneg lst k v Hkr). cbn [rbind].
    destruct (IH (<[Z.to_nat k := v]> lst) Hnd) as (r & Hrun & Hlen & Hlook).
    { intros k' Hk'. rewrite length_insert. apply Hkeys, elem_of_cons.
      by right. }
    exists r. split_and!; [done | by rewrite Hlen, length_insert |].
    intros i. rewrite Hlook, list_to_map_cons.
    destruct (decide (k = Z.of_nat i)) as [->|Hne].
    + rewrite lookup_insert_eq.
      rewrite (not_elem_of_list_to_map_1 _ _ Hk).
      rewrite Nat2Z.id. apply list_lookup_insert_eq. lia.
    + rewrite lookup_insert_ne by done.
      destruct (list_to_map items !! Z.of_nat i); [done|].
      apply list_lookup_insert_ne. lia.
Qed.

Lemma list_to_dict_prefix (lst : list V) (n : nat) (k : Z) :
  (n ≤ length lst)%nat →
  foldl (λ acc i,
           match lst !! i with
           | Some v => if is_zero v then acc else <[Z.of_nat i := v]> acc
           | None => acc
           end)
        (∅ : gmap Z V) (seq 0 n) !! k
  = if (0 <=? k) && (k <? Z.of_nat n)
    then match lst !! Z.to_nat k with
         | Some v => if is_zero v then None else Some v
         | None => None
         end
    else None.
Proof.
  induction n as [|n IH]; intros Hn.
  - cbn [seq foldl]. rewrite lookup_empty.
    destruct (Z.leb_spec 0 k), (Z.ltb_spec k (Z.of_nat 0)); try done; lia.
  - rewrite seq_S, foldl_app. cbn [foldl Nat.add].
    specialize (IH ltac:(lia)).
    destruct (lookup_lt_is_Some_2 lst n ltac:(lia)) as [x Hx]. rewrite Hx.
    set (acc := foldl _ _ (seq 0 n)) in *.
    destruct (decide (k = Z.of_nat n)) as [->|Hne].
    + rewrite Nat2Z.id, Hx.
      rewrite (proj2 (Z.leb_le 0 _)), (proj2 (Z.ltb_lt _ _)) by lia.
      cbn [andb]. destruct (is_zero x) eqn:Hz.
      * rewrite IH. rewrite (proj2 (Z.ltb_ge _ _)) by lia.
        by rewrite andb_false_r.
      * apply lookup_insert_eq.
    + assert ((if is_zero x then acc else <[Z.of_nat n := x]> acc) !! k
              = acc !! k) as ->.
      { destruct (is_zero x); [done|]. by rewrite lookup_insert_ne. }
      rewrite IH.
      destruct (Z.leb_spec 0 k); cbn [andb]; [|done].
      destruct (Z.ltb_spec k (Z.of_nat n)), (Z.ltb_spec k (Z.of_nat (S n)));
        try done; lia.
Qed.

Lemma list_to_dict_lookup (lst : list V) (k : Z) :
  list_to_dict is_zero lst !! k
  = if (0 <=? k) && (k <? Z.of_nat (length lst))
    then match lst !! Z.to_nat k with
         | Some v => if is_zero v then None else Some v
         | None => None
         end
    else None.
Proof. unfold list_to_dict. by apply list_to_dict_prefix. Qed.


Lemma items_of_map (m : gmap Z V) (items : list (Z * V)) :
  items ≡ₚ map_to_list m →
  NoDup items.*1
  ∧ (∀ k, k ∈ items.*1 ↔ is_Some (m !! k))
  ∧ (list_to_map items : gmap Z V) = m.
Proof.
  intros Hperm. split_and!.
  - rewrite Hperm. apply NoDup_fst_map_to_list.
  - intros k. rewrite Hperm, list_elem_of_fmap. split.
    + intros ([k' v] & -> & Hin%elem_of_map_to_list). by exists v.
    + intros [v Hv]. exists (k, v). split; [done|].
      by apply elem_of_map_to_list.
  - rewrite <- (list_to_map_to_list m). apply list_to_map_proper; [|done].
    rewrite Hperm. apply NoDup_fst_map_to_list.
Qed.

(** The list made of a dictionary with keys from 0 on, whatever the order of
    its items. *)
Lemma dict_to_list_of_map (m : gmap Z V) (items : list (Z * V)) :
  items ≡ₚ map_to_list m → m ≠ ∅ → (∀ k, is_Some (m !! k) → 0 ≤ k) →
  ∃ top, is_Some (m !! top) ∧ (∀ k, is_Some (m !! k) → k ≤ top)
    ∧ dict_to_list int_zero items
      = Ok ((λ i, default int_zero (m !! Z.of_nat i))
              <$> seq 0 (Z.to_nat (top + 1))).
Proof.
  intros Hperm Hne Hkeys.
  destruct (items_of_map m items Hperm) as (Hnd & Hin & Hmap).
  assert (items ≠ []) as Hitems.
  { intros ->. apply Hne, map_to_list_empty_iff.
    by apply Permutation_nil. }
  destruct (py_max_spec items.*1) as (top & Hmax & Htop & Hall).
  { by destruct items. }
  exists top. split_and!.
  - by apply Hin.
  - intros k Hk. by apply Hall, Hin.
  - unfold dict_to_list. destruct items as [|kv items']; [done|].
    rewrite Hmax. cbn [rbind].
    assert (0 ≤ top) as Htop0 by (by apply Hkeys, Hin).
    destruct (fill_list_lookup (kv :: items')
                (replicate (Z.to_nat (top + 1)) int_zero) Hnd)
      as (r & -> & Hlen & Hlook).
    { intros k Hk. rewrite length_replicate. split.
      - by apply Hkeys, Hin.
      - apply Hall in Hk. lia. }
    f_equal. apply list_eq. intros i. rewrite Hlook, Hmap, list_lookup_fmap.
    destruct (decide (i < Z.to_nat (top + 1))%nat) as [Hi|Hi].
    + rewrite lookup_seq_lt by done. cbn [fmap option_fmap option_map Nat.add].
      rewrite lookup_replicate_2 by done.
      by destruct (m !! Z.of_nat i).
    + rewrite lookup_seq_ge by lia. cbn [fmap option_fmap option_map].
      destruct (m !! Z.of_nat i) as [v|] eqn:Hv.
      * assert (Z.of_nat i ≤ top) by (apply Hall, Hin; by exists v). lia.
      * apply lookup_replicate_None. lia.
Qed.

(** X20: a non-empty dictionary whose keys are all at least 0 becomes, in
    whatever order its items are visited, the list that is one longer than
    its largest key and holds at every index the value stored under it, or
    [0] where the dictionary has no such key. *)
Theorem dict_to_list_entries (m : gmap Z V) (items : list (Z * V)) :
  items ≡ₚ map_to_list m → m ≠ ∅ → (∀ k, is_Some (m !! k) → 0 ≤ k) →
  ∃ top, is_Some (m !! top) ∧ (∀ k, is_Some (m !! k) → k ≤ top)
    ∧ dict_to_list int_zero items
      = Ok ((λ i, default int_zero (m !! Z.of_nat i))
              <$> seq 0 (Z.to_nat (top + 1))).
Proof. apply dict_to_list_of_map. Qed.

(** X21: [dict_to_list] of a non-empty dictionary with largest key [top]
    returns a list of [top + 1] elements when no key is below [-(top + 1)],
    and raises [IndexError] otherwise; so it always raises when all the keys
    are negative. *)
Theorem dict_to_list_index_error (items : list (Z * V)) :
  items ≠ [] →
  ∃ top, top ∈ items.*1 ∧ (∀ k, k ∈ items.*1 → k ≤ top)
    ∧ ((∀ k, k ∈ items.*1 → - (top + 1) ≤ k) →
       ∃ r, dict_to_list int_zero items = Ok r
            ∧ Z.of_nat (length r) = top + 1)
    ∧ (¬ (∀ k, k ∈ items.*1 → - (top + 1) ≤ k) →
       dict_to_list int_zero items = Raise (IndexError []))
    ∧ (top < 0 → dict_to_list int_zero items = Raise (IndexError [])).
Proof.
  intros Hne.
  destruct (py_max_spec items.*1) as (top & Hmax & Htop & Hall).
  { by destruct items. }
  exists top.
  assert (dict_to_list int_zero items
          = fill_list items (replicate (Z.to_nat (top + 1)) int_zero)) as Hrun.
  { unfold dict_to_list. destruct items; [done|]. by rewrite Hmax. }
  destruct (fill_list_result items (replicate (Z.to_nat (top + 1)) int_zero))
    as [Hok Herr].
  rewrite length_replicate in Hok, Herr.
  assert (¬ (∀ k, k ∈ items.*1 → - (top + 1) ≤ k) →
          dict_to_list int_zero items = Raise (IndexError [])) as Hlow.
  { intros Hnot. rewrite Hrun. apply Herr. intros Hall'. apply Hnot.
    intros k Hk. specialize (Hall' k Hk). lia. }
  split_and!; [done | done | | done |].
  - intros Hlow'. specialize (Hlow' top Htop) as Htop0.
    destruct Hok as (r & Hr & Hlen).
    { intros k Hk. specialize (Hlow' k Hk). specialize (Hall k Hk). lia. }
    exists r. rewrite Hrun. split; [done|]. rewrite Hlen. lia.
  - intros Hneg. apply Hlow. intros Hall'. specialize (Hall' top Htop). lia.
Qed.

(** X22: the dictionary made by [list_to_dict] holds exactly the indices of
    the list whose value is not zero, each with that value, and reads as
    [0.0] everywhere else. *)
Theorem list_to_dict_entries (lst : list V) (k : Z) :
  (∀ v, list_to_dict is_zero lst !! k = Some v
        ↔ 0 ≤ k ∧ lst !! Z.to_nat k = Some v ∧ is_zero v = false)
  ∧ read_default float_zero (list_to_dict is_zero lst) k
    = match (if 0 <=? k then lst !! Z.to_nat k else None) with
      | Some v => if is_zero v then float_zero else v
      | None => float_zero
      end.
Proof.
  unfold read_default. rewrite list_to_dict_lookup.
  destruct (Z.leb_spec 0 k) as [Hk|Hk]; cbn [andb].
  - destruct (lst !! Z.to_nat k) as [x|] eqn:Hx.
    + apply lookup_lt_Some in Hx as Hlt.
      rewrite (proj2 (Z.ltb_lt _ _)) by lia.
      destruct (is_zero x) eqn:Hz; (split; [|done]); intros v; split.
      * done.
      * intros (_ & [= <-] & ?). congruence.
      * intros [= <-]. done.
      * by intros (_ & [= <-] & _).
    + split; [|by destruct (k <? _)]. intros v. split.
      * by destruct (k <? _).
      * by intros (_ & ? & _).
  - split; [|done]. intros v. split; [done|]. intros (? & _). lia.
Qed.

Lemma list_to_dict_keys (lst : list V) (k : Z) :
  is_Some (list_to_dict is_zero lst !! k) → 0 ≤ k < Z.of_nat (length lst).
Proof.
  rewrite list_to_dict_lookup.
  destruct (Z.leb_spec 0 k), (Z.ltb_spec k (Z.of_nat (length lst)));
    cbn [andb]; intros [v Hv]; try done; lia.
Qed.

Lemma list_to_dict_ext (l1 l2 : list V) :
  (∀ k, list_to_dict is_zero l1 !! k = list_to_dict is_zero l2 !! k) →
  list_to_dict is_zero l1 = list_to_dict is_zero l2.
Proof. apply map_eq. Qed.

(** X23: turning a list into a dictionary and back never raises.  The list
    that comes back is the given one without its final run of zeros, with
    [0] in the place of every other zero; if [0] counts as zero, it gives the
    same dictionary again. *)
Theorem list_dict_round_trip (lst : list V) (items : list (Z * V)) :
  items ≡ₚ map_to_list (list_to_dict is_zero lst) →
  ∃ r, dict_to_list int_zero items = Ok r
       ∧ (length r ≤ length lst)%nat
       ∧ (∀ i y, (i < length r)%nat → lst !! i = Some y →
                 r !! i = Some (if is_zero y then int_zero else y))
       ∧ (∀ i y, (length r ≤ i)%nat → lst !! i = Some y → is_zero y = true)
       ∧ (∀ y, last lst = Some y → is_zero y = false → r ≠ [] ∧ last r = Some y)
       ∧ (is_zero int_zero = true →
          list_to_dict is_zero r = list_to_dict is_zero lst).
Proof.
  intros Hperm.
  assert (∀ i y, lst !! i = Some y →
            list_to_dict is_zero lst !! Z.of_nat i
            = if is_zero y then None else Some y) as Hentry.
  { intros i y Hy. rewrite list_to_dict_lookup, Nat2Z.id, Hy.
    apply lookup_lt_Some in Hy.
    rewrite (proj2 (Z.leb_le 0 _)), (proj2 (Z.ltb_lt _ _)) by lia. done. }
  destruct (decide (list_to_dict is_zero lst = ∅)) as [Hempty|Hne].
  - rewrite Hempty, map_to_list_empty in Hperm.
    apply Permutation_nil_r in Hperm as ->.
    assert (∀ i y, lst !! i = Some y → is_zero y = true) as Hzero.
    { intros i y Hy. apply Hentry in Hy. rewrite Hempty, lookup_empty in Hy.
      by destruct (is_zero y). }
    exists []. split_and!; [done | cbn; lia | cbn; lia | | |].
    + intros i y _. apply Hzero.
    + intros y Hy Hz. rewrite last_lookup in Hy. apply Hzero in Hy. congruence.
    + intros _. by rewrite Hempty.
  - destruct (dict_to_list_of_map _ items Hperm Hne) as (top & Htop & Hall & Hrun).
    { intros k Hk. apply list_to_dict_keys in Hk. lia. }
    rewrite Hrun. eexists. split; [done|].
    rewrite length_fmap, length_seq.
    pose proof (list_to_dict_keys _ _ Htop) as Htopr.
    assert (∀ i y, (i < Z.to_nat (top + 1))%nat → lst !! i = Some y →
              ((λ i, default int_zero (list_to_dict is_zero lst !! Z.of_nat i))
                 <$> seq 0 (Z.to_nat (top + 1))) !! i
              = Some (if is_zero y then int_zero else y)) as Hlook.
    { intros i y Hi Hy. rewrite list_lookup_fmap, lookup_seq_lt by done.
      cbn [fmap option_fmap option_map Nat.add]. rewrite (Hentry i y Hy).
      by destruct (is_zero y). }
    split_and!.
    + lia.
    + done.
    + intros i y Hi Hy. specialize (Hentry i y Hy).
      destruct (is_zero y) eqn:Hz; [done|].
      assert (Z.of_nat i ≤ top); [|lia]. apply Hall. by rewrite Hentry.
    + intros y Hy Hz. rewrite last_lookup in Hy.
      assert (Z.of_nat (Nat.pred (length lst)) ≤ top) as Hlast.
      { apply Hall. rewrite (Hentry _ _ Hy), Hz. done. }
      split.
      * intros Hnil%(f_equal length).
        rewrite length_fmap, length_seq in Hnil. cbn in Hnil. lia.
      * rewrite last_lookup, length_fmap, length_seq.
        replace (Nat.pred (Z.to_nat (top + 1))) with (Nat.pred (length lst))
          by lia.
        rewrite (Hlook _ y) by (done || lia). by rewrite Hz.
    + intros Hz0. apply list_to_dict_ext. intros k.
      rewrite !list_to_dict_lookup. rewrite length_fmap, length_seq.
      destruct (Z.leb_spec 0 k) as [Hk|Hk]; cbn [andb]; [|done].
      destruct (lst !! Z.to_nat k) as [y|] eqn:Hy.
      * apply lookup_lt_Some in Hy as Hlt.
        rewrite (proj2 (Z.ltb_lt k (Z.of_nat (length lst)))) by lia.
        destruct (Z.ltb_spec k (Z.of_nat (Z.to_nat (top + 1)))) as [Hin|Hout].
        -- rewrite (Hlook _ y) by (done || lia).
           destruct (is_zero y) eqn:Hz; [by rewrite Hz0 | by rewrite Hz].
        -- specialize (Hentry _ _ Hy). rewrite Z2Nat.id in Hentry by done.
           destruct (is_zero y) eqn:Hz; [done|].
           assert (k ≤ top); [|lia]. apply Hall. by rewrite Hentry.
      * apply lookup_ge_None in Hy.
        rewrite (proj2 (Z.ltb_ge k (Z.of_nat (length lst)))) by lia.
        rewrite (proj2 (Z.ltb_ge k (Z.of_nat (Z.to_nat (top + 1))))) by lia.
        done.
Qed.

(** X24: turning a dictionary with keys from 0 on into a list and back gives
    the entries of the dictionary whose value is not zero, provided [0]
    counts as zero; the other keys read as [0.0] afterwards. *)
Theorem dict_list_round_trip (m : gmap Z V) (items : list (Z * V)) :
  items ≡ₚ map_to_list m → (∀ k, is_Some (m !! k) → 0 ≤ k) →
  is_zero int_zero = true →
  ∃ r, dict_to_list int_zero items = Ok r
       ∧ list_to_dict is_zero r = filter (λ kv, is_zero kv.2 = false) m
       ∧ ∀ k, read_default float_zero (list_to_dict is_zero r) k
              = match m !! k with
                | Some v => if is_zero v then float_zero else v
                | None => float_zero
                end.
Proof.
  intros Hperm Hkeys Hz0.
  assert (∀ r, list_to_dict is_zero r = filter (λ kv, is_zero kv.2 = false) m →
            ∀ k, read_default float_zero (list_to_dict is_zero r) k
                 = match m !! k with
                   | Some v => if is_zero v then float_zero else v
                   | None => float_zero
                   end) as Hread.
  { intros r -> k. unfold read_default.
    destruct (m !! k) as [v|] eqn:Hv.
    - destruct (is_zero v) eqn:Hz.
      + rewrite (proj2 (map_lookup_filter_None _ _ _)); [done|].
        right. intros v' Hv'. cbn. congruence.
      + rewrite (map_lookup_filter_Some_2 _ _ k v); done.
    - rewrite (proj2 (map_lookup_filter_None _ _ _)); [done|]. by left. }
  destruct (decide (m = ∅)) as [->|Hne].
  - rewrite map_to_list_empty in Hperm. apply Permutation_nil_r in Hperm as ->.
    exists []. split; [done|].
    assert (list_to_dict is_zero [] = filter (λ kv, is_zero kv.2 = false) (∅ : gmap Z V))
      as Heq by (by rewrite map_filter_empty).
    split; [done | by apply Hread].
  - destruct (dict_to_list_of_map m items Hperm Hne Hkeys)
      as (top & Htop & Hall & Hrun).
    rewrite Hrun. eexists. split; [done|].
    match goal with |- ?A ∧ _ => assert A as Heq end; [|split; [done | by apply Hread]].
    apply map_eq. intros k. rewrite list_to_dict_lookup.
    rewrite length_fmap, length_seq.
    assert (0 ≤ top) by (by apply Hkeys).
    destruct (m !! k) as [v|] eqn:Hv.
    + assert (0 ≤ k ≤ top) as Hk.
      { split; [apply Hkeys | apply Hall]; by rewrite Hv. }
      rewrite (proj2 (Z.leb_le 0 _)), (proj2 (Z.ltb_lt _ _)) by lia.
      cbn [andb]. rewrite list_lookup_fmap, lookup_seq_lt by lia.
      cbn [fmap option_fmap option_map Nat.add].
      rewrite Z2Nat.id, Hv by lia. cbn [default from_option id].
      destruct (is_zero v) eqn:Hz; symmetry.
      * apply map_lookup_filter_None. right. intros v' Hv'. cbn. congruence.
      * by apply map_lookup_filter_Some_2.
    + rewrite (proj2 (map_lookup_filter_None _ _ _)) by (by left).
      destruct ((0 <=? k) && (k <? Z.of_nat (Z.to_nat (top + 1)))) eqn:Hin;
        [|done].
      apply andb_true_iff in Hin as [Hk0%Z.leb_le Hk1%Z.ltb_lt].
      rewrite list_lookup_fmap, lookup_seq_lt by lia.
      cbn [fmap option_fmap option_map Nat.add].
      rewrite Z2Nat.id, Hv by lia. cbn [default from_option id]. by rewrite Hz0.
Qed.

End ListDictFacts.

Lemma dict_to_list_entries_witness :
  dict_to_list_Z [(2, 7); (0, 5)] = Ok [5; 0; 7].
Proof.
  destruct (dict_to_list_entries 0 {[ 0 := 5; 2 := 7 ]} [(2, 7); (0, 5)])
    as (top & Htop & Hall & Hrun).
  - vm_compute. first [reflexivity | apply perm_swap].
  - intros H%(f_equal (lookup 0)). vm_compute in H. discriminate H.
  - intros k [v Hk]. destruct (decide (k = 0)) as [->|?]; [lia|].
    rewrite lookup_insert_ne in Hk by done.
    apply lookup_singleton_Some in Hk as [<- _]. lia.
  - unfold dict_to_list_Z. rewrite Hrun.
    assert (top = 2) as ->.
    { apply Z.le_antisymm.
      - destruct Htop as [v Hv]. destruct (decide (top = 0)) as [->|?]; [lia|].
        rewrite lookup_insert_ne in Hv by done.
        apply lookup_singleton_Some in Hv as [<- _]. lia.
      - apply Hall. by exists 7. }
    reflexivity.
Defined.

Lemma dict_to_list_index_error_witness :
  dict_to_list_Z [(-1, 5)] = Raise (IndexError []).
Proof.
  destruct (dict_to_list_index_error 0 [(-1, 5)] ltac:(done))
    as (top & Htop & _ & _ & _ & Hneg).
  apply Hneg. cbn [fmap list_fmap fst] in Htop.
  apply list_elem_of_singleton in Htop. lia.
Defined.

Lemma list_dict_round_trip_witness :
  dict_to_list_Z (map_to_list (list_to_dict_Z [0; 3; 0; 4; 0])) = Ok [0; 3; 0; 4].
Proof.
  destruct (list_dict_round_trip 0 (Z.eqb 0) [0; 3; 0; 4; 0]
              (map_to_list (list_to_dict_Z [0; 3; 0; 4; 0])))
    as (r & Hrun & _); [reflexivity|].
  unfold dict_to_list_Z. rewrite Hrun. vm_compute in Hrun.
  by injection Hrun as <-.
Defined.

Lemma dict_list_round_trip_witness :
  ∃ r, dict_to_list_Z [(1, 0); (2, 7)] = Ok r
       ∧ list_to_dict_Z r = {[ 2 := 7 ]}.
Proof.
  destruct (dict_list_round_trip 0 0 (Z.eqb 0) {[ 1 := 0; 2 := 7 ]}
              [(1, 0); (2, 7)])
    as (r & Hrun & Hback & _).
  - vm_compute. first [reflexivity | apply perm_swap].
  - intros k [v Hk]. destruct (decide (k = 1)) as [->|?]; [lia|].
    rewrite lookup_insert_ne in Hk by done.
    apply lookup_singleton_Some in Hk as [<- _]. lia.
  - reflexivity.
  - exists r. split; [done|]. vm_compute in Hrun. injection Hrun as <-.
    vm_compute. reflexivity.
Defined.

(** ** Coupler numbers: different couplers, different numbers *)

Lemma base_unique (B q r q' r' : Z) :
  0 ≤ r < B → 0 ≤ r' < B → B * q + r = B * q' + r' → q = q' ∧ r = r'.
Proof. intros Hr Hr' Heq. assert (q = q') by nia. split; [done | nia]. Qed.

(** X25: [coupler_number] gives two couplers the same number only if they
    run between the same places: for qubits that the decomposition puts
    inside the grid, equal numbers mean equal rows, columns and in-shore
    offsets of the lower and of the higher qubit (the number does not record
    the shores). *)
Theorem coupler_number_injective
    (decompose : list Z → Z → Z → Z → result (list (list Z)))
    (M N L q1 q2 q1' q2' id : Z) (c1 c2 d1 d2 : list Z) :
  decompose [Z.min q1 q2; Z.max q1 q2] M N L = Ok [c1; c2] →
  decompose [Z.min q1' q2'; Z.max q1' q2'] M N L = Ok [d1; d2] →
  in_grid M N L c1 → in_grid M N L c2 → in_grid M N L d1 → in_grid M N L d2 →
  coupler_number decompose M N L q1 q2 = Ok id →
  coupler_number decompose M N L q1' q2' = Ok id →
  ∀ n, n ≠ 2%nat → c1 !! n = d1 !! n ∧ c2 !! n = d2 !! n.
Proof.
  intros Hc Hd Hc1 Hc2 Hd1 Hd2.
  destruct c1 as [|i [|j [|u [|k [|]]]]]; try done.
  destruct c2 as [|i' [|j' [|u' [|k' [|]]]]]; try done.
  destruct d1 as [|a [|b [|c [|d [|]]]]]; try done.
  destruct d2 as [|a' [|b' [|c' [|d' [|]]]]]; try done.
  destruct Hc1 as (Hi & Hj & Hk), Hc2 as (Hi' & Hj' & Hk').
  destruct Hd1 as (Ha & Hb & Hd0), Hd2 as (Ha' & Hb' & Hd').
  intros H1 H2.
  assert (0 ≤ (M - 1) * N * L) as Hhoriz
    by (repeat apply Z.mul_nonneg_nonneg; lia).
  assert (0 ≤ (N - 1) * M * L) as Hvert
    by (repeat apply Z.mul_nonneg_nonneg; lia).
  destruct (coupler_number_in_range decompose M N L q1 q2 i j u k i' j' u' k' id)
    as [K1|[K1|K1]]; try done; try lia;
  destruct (coupler_number_in_range decompose M N L q1' q2' a b c d a' b' c' d' id)
    as [K2|[K2|K2]]; try done; try lia;
  cbv zeta in K1, K2; try lia.
  - (* both inside a cell *)
    destruct K1 as (<- & <- & Hu & _), K2 as (<- & <- & Hcc & _).
    unfold coupler_number in H1, H2. rewrite Hc in H1. rewrite Hd in H2.
    cbn [rbind] in H1, H2.
    rewrite !Z.eqb_refl in H1, H2. cbn [andb] in H1, H2.
    destruct (u =? u') eqn:Eu; [by apply Z.eqb_eq in Eu|].
    destruct (c =? c') eqn:Ec; [by apply Z.eqb_eq in Ec|].
    cbn [negb] in H1, H2. injection H1 as <-. injection H2 as H2.
    assert (0 ≤ k * L + k' < L * L) by nia.
    assert (0 ≤ d * L + d' < L * L) by nia.
    destruct (base_unique (L * L) (a * M + b) (d * L + d') (i * M + j)
                (k * L + k')) as [Hcell Hoff]; [done | done | lia |].
    destruct (base_unique M a b i j) as [-> ->]; [done | done | lia |].
    destruct (base_unique L d d' k k') as [-> ->]; [done | done | lia |].
    intros [|[|[|[|n]]]] Hn; done.
  - (* both horizontal *)
    destruct K1 as (<- & <- & <- & <- & _), K2 as (<- & <- & <- & <- & _).
    unfold coupler_number in H1, H2. rewrite Hc in H1. rewrite Hd in H2.
    cbn [rbind] in H1, H2.
    rewrite !Z.eqb_refl in H1, H2. cbn [andb negb] in H1, H2.
    rewrite (proj2 (Z.eqb_neq j (j + 1))) in H1 by lia.
    rewrite (proj2 (Z.eqb_neq b (b + 1))) in H2 by lia.
    cbn [andb] in H1, H2. rewrite ?Z.eqb_refl in H1, H2.
    cbn [andb] in H1, H2. injection H1 as <-. injection H2 as H2.
    destruct (base_unique L (a * (M - 1) + b) d (i * (M - 1) + j) k)
      as [Hcell ->]; [done | done | lia |].
    destruct (base_unique (M - 1) a b i j) as [-> ->]; [lia | lia | lia |].
    intros [|[|[|[|n]]]] Hn; done.
  - (* both vertical *)
    destruct K1 as (<- & <- & <- & <- & _), K2 as (<- & <- & <- & <- & _).
    unfold coupler_number in H1, H2. rewrite Hc in H1. rewrite Hd in H2.
    cbn [rbind] in H1, H2.
    rewrite !Z.eqb_refl in H1, H2. cbn [andb negb] in H1, H2.
    rewrite (proj2 (Z.eqb_neq i (i + 1))) in H1 by lia.
    rewrite (proj2 (Z.eqb_neq a (a + 1))) in H2 by lia.
    cbn [andb] in H1, H2. rewrite ?Z.eqb_refl in H1, H2.
    cbn [andb] in H1, H2. injection H1 as <-. injection H2 as H2.
    destruct (base_unique L (a * M + b) d (i * M + j) k)
      as [Hcell ->]; [done | done | lia |].
    destruct (base_unique M a b i j) as [-> ->]; [lia | lia | lia |].
    intros [|[|[|[|n]]]] Hn; done.
Qed.

Lemma coupler_number_injective_witness :
  [0; 0; 1; 2] !! 3%nat = [0; 0; 1; 2] !! 3%nat
  ∧ [0; 1; 1; 2] !! 3%nat = [0; 1; 1; 2] !! 3%nat.
Proof.
  apply (coupler_number_injective linear_index_to_chimera 2 2 4 6 14 14 6 66);
    first [reflexivity | vm_compute; intuition discriminate | lia].
Defined.

(** ** Shell quoting *)

Lemma squote_app (x : string) :
  squote +:+ x = String (Ascii.ascii_of_nat 39) x.
Proof. reflexivity. Qed.

Lemma quoted_squote_app (x : string) :
  quoted_squote +:+ x
  = String (Ascii.ascii_of_nat 39) (String (Ascii.ascii_of_nat 34)
      (String (Ascii.ascii_of_nat 39) (String (Ascii.ascii_of_nat 34)
        (String (Ascii.ascii_of_nat 39) x)))).
Proof. reflexivity. Qed.

Lemma replace_squote_cons (c : ascii) (s : string) :
  PyStr.replace squote quoted_squote (String c s)
  = if Ascii.eqb (Ascii.ascii_of_nat 39) c
    then quoted_squote +:+ PyStr.replace squote quoted_squote s
    else String c (PyStr.replace squote quoted_squote s).
Proof.
  unfold PyStr.replace, squote.
  cbn [PyStr.replace_from PyStr.starts_with String.length Nat.pred].
  destruct (Ascii.eqb (Ascii.ascii_of_nat 39) c); [|done].
  by destruct s.
Qed.

Lemma length_String (c : ascii) (s : string) :
  String.length (String c s) = S (String.length s).
Proof. reflexivity. Qed.

Lemma append_length (a b : string) :
  String.length (a +:+ b) = (String.length a + String.length b)%nat.
Proof.
  induction a as [|x a IH]; [done|].
  change (S (String.length (a +:+ b)) = S (String.length a + String.length b)).
  by rewrite IH.
Qed.

Lemma append_cancel_r (a b c : string) : a +:+ c = b +:+ c → a = b.
Proof.
  revert b. induction a as [|x a IH]; intros [|y b] Heq.
  - done.
  - apply (f_equal String.length) in Heq.
    rewrite !append_length, !length_String in Heq.
    change (String.length EmptyString) with 0%nat in Heq. lia.
  - apply (f_equal String.length) in Heq.
    rewrite !append_length, !length_String in Heq.
    change (String.length EmptyString) with 0%nat in Heq. lia.
  - change (String x (a +:+ c) = String y (b +:+ c)) in Heq.
    injection Heq as -> Heq. f_equal. by apply IH.
Qed.

Lemma replace_squote_length (s : string) :
  (String.length s ≤ String.length (PyStr.replace squote quoted_squote s))%nat.
Proof.
  induction s as [|c s IH]; [done|].
  rewrite replace_squote_cons.
  destruct (Ascii.eqb (Ascii.ascii_of_nat 39) c).
  - rewrite quoted_squote_app, !length_String. lia.
  - rewrite !length_String. lia.
Qed.

Lemma replace_squote_inj (s1 s2 : string) :
  PyStr.replace squote quoted_squote s1 = PyStr.replace squote quoted_squote s2 →
  s1 = s2.
Proof.
  revert s2. induction s1 as [|a s1 IH]; intros [|b s2].
  - done.
  - rewrite replace_squote_cons.
    destruct (Ascii.eqb _ b); [rewrite quoted_squote_app|]; discriminate.
  - rewrite replace_squote_cons.
    destruct (Ascii.eqb _ a); [rewrite quoted_squote_app|]; discriminate.
  - rewrite !replace_squote_cons.
    destruct (Ascii.eqb_spec (Ascii.ascii_of_nat 39) a) as [<-|Ha],
             (Ascii.eqb_spec (Ascii.ascii_of_nat 39) b) as [<-|Hb].
    + rewrite !quoted_squote_app. intros [= Heq]. f_equal. by apply IH.
    + rewrite quoted_squote_app. intros [= <- _]. done.
    + rewrite quoted_squote_app. intros [= -> _]. done.
    + intros [= -> Heq]. f_equal. by apply IH.
Qed.

Section QuoteFacts.

Context (word_char : ascii → bool).

Lemma quote_cases (s : string) :
  (s = EmptyString ∧ quote word_char s = squote +:+ squote)
  ∨ (s ≠ EmptyString ∧ all_safe word_char s = true ∧ quote word_char s = s)
  ∨ (s ≠ EmptyString ∧ all_safe word_char s = false
     ∧ quote word_char s
       = squote +:+ PyStr.replace squote quoted_squote s +:+ squote).
Proof.
  destruct s as [|c s]; [by left|]. right. unfold quote.
  destruct (all_safe word_char (String c s)); [left | right]; done.
Qed.

(** A string that starts with a single quote holds an unsafe character,
    the single quote not being a word character. *)
Lemma all_safe_no_squote (s : string) :
  word_char (Ascii.ascii_of_nat 39) = false →
  all_safe word_char (String (Ascii.ascii_of_nat 39) s) = false.
Proof.
  intros Hq. cbn [all_safe]. unfold is_safe_char. rewrite Hq. reflexivity.
Qed.

(** X27: [quote] never gives two different strings the same shell word,
    whatever the word characters are, as long as the single quote is not
    one of them. *)
Theorem quote_injective (s1 s2 : string) :
  word_char (Ascii.ascii_of_nat 39) = false →
  s1 ≠ s2 → quote word_char s1 ≠ quote word_char s2.
Proof.
  intros Hq Hne Heq. apply Hne. clear Hne.
  destruct (quote_cases s1) as [[-> H1]|[(Hn1 & Hs1 & H1)|(Hn1 & Hs1 & H1)]];
  destruct (quote_cases s2) as [[-> H2]|[(Hn2 & Hs2 & H2)|(Hn2 & Hs2 & H2)]];
    try rewrite H1 in Heq; try rewrite H2 in Heq; clear H1 H2.
  - done.
  - subst s2. rewrite squote_app in Hs2.
    by rewrite all_safe_no_squote in Hs2.
  - apply (f_equal String.length) in Heq. rewrite !append_length in Heq.
    change (String.length squote) with 1%nat in Heq.
    pose proof (replace_squote_length s2) as Hle.
    destruct s2 as [|c s2]; [done|]. rewrite length_String in Hle. lia.
  - subst s1. rewrite squote_app in Hs1.
    by rewrite all_safe_no_squote in Hs1.
  - done.
  - subst s1. rewrite squote_app in Hs1.
    by rewrite all_safe_no_squote in Hs1.
  - apply (f_equal String.length) in Heq. rewrite !append_length in Heq.
    change (String.length squote) with 1%nat in Heq.
    pose proof (replace_squote_length s1) as Hle.
    destruct s1 as [|c s1]; [done|]. rewrite length_String in Hle. lia.
  - subst s2. rewrite squote_app in Hs2.
    by rewrite all_safe_no_squote in Hs2.
  - rewrite !squote_app in Heq. injection Heq as Heq.
    apply append_cancel_r in Heq. by apply replace_squote_inj.
Qed.


End QuoteFacts.

Lemma quote_injective_witness :
  quote ascii_word_char "it's" ≠ quote ascii_word_char "its".
Proof.
  apply (quote_injective ascii_word_char "it's" "its");
    [reflexivity | discriminate].
Defined.
